(** * go-caskdb: a log-structured key-value store

    A shallow embedding of the disk store (an append-only data file and an
    in-memory key directory) together with its record codec, and the
    properties of the store that follow from the code. *)

From Stdlib Require Import ZArith List Lia.
From Stdlib Require Import Strings.Byte Strings.Ascii Strings.String.
From stdpp Require Import base option gmap strings list.

Local Open Scope Z_scope.

(** ** Machine integers and bytes *)

(** Go's [uint32(x)] conversion and the wrap-around of [uint32] arithmetic. *)
Definition uint32 (x : Z) : Z := x mod 2 ^ 32.

(** Go's [byte(x)] conversion of an unsigned integer: the low eight bits. *)
Definition byte_of_Z (x : Z) : byte :=
  match Byte.of_N (Z.to_N (x mod 256)) with
  | Some b => b
  | None => x00
  end.

Definition Z_of_byte (b : byte) : Z := Z.of_N (Byte.to_N b).

(** [len(b)] of a byte slice and [len(s)] of a string, as Go's [int]. *)
Definition len {A : Type} (l : list A) : Z := Z.of_nat (length l).
Definition slen (s : string) : Z := Z.of_nat (String.length s).

(** [make([]byte, n)]: a zeroed buffer. *)
Definition make (n : Z) : list byte := replicate (Z.to_nat n) x00.

(** The slice expression [data[lo:hi]] for indices within range. *)
Definition slice (data : list byte) (lo hi : Z) : list byte :=
  take (Z.to_nat (hi - lo)) (drop (Z.to_nat lo) data).

(** ** Record codec *)

(** The header is three 32-bit unsigned integers "stored in a single fixed
    byte order"; the order is a parameter of the codec. *)
Inductive ByteOrder : Type := LittleEndian | BigEndian.

(** Modelled from the spec: the size of the header, three integers of four
    bytes. *)
Definition headerSize : Z := 12.

(** Modelled from the spec: the key directory entry (its declaration is not
    part of the store's file). The three fields are the ones the store
    writes: the record's timestamp, the offset of its header in the file and
    its total encoded length, all [uint32]. *)
Record KeyEntry : Type := mkKeyEntry {
  timestamp : Z;
  writeOffSet : Z;
  totalSize : Z
}.

Section Codec.

Variable order : ByteOrder.

(** Modelled from the spec: writing one 32-bit integer of the header in the
    codec's byte order. *)
Definition PutUint32 (v : Z) : list byte :=
  let b0 := byte_of_Z v in
  let b1 := byte_of_Z (v / 2 ^ 8) in
  let b2 := byte_of_Z (v / 2 ^ 16) in
  let b3 := byte_of_Z (v / 2 ^ 24) in
  match order with
  | LittleEndian => [b0; b1; b2; b3]
  | BigEndian => [b3; b2; b1; b0]
  end.

(** Modelled from the spec: reading one 32-bit integer back. *)
Definition Uint32 (b : list byte) : Z :=
  let at_ (i : nat) := Z_of_byte (nth i b x00) in
  match order with
  | LittleEndian => at_ 0%nat + 2 ^ 8 * at_ 1%nat + 2 ^ 16 * at_ 2%nat + 2 ^ 24 * at_ 3%nat
  | BigEndian => at_ 3%nat + 2 ^ 8 * at_ 2%nat + 2 ^ 16 * at_ 1%nat + 2 ^ 24 * at_ 0%nat
  end.

(** Modelled from the spec: the fixed-size header
    [timestamp(4B) | keySize(4B) | valueSize(4B)]. *)
Definition encodeHeader (timestamp keySize valueSize : Z) : list byte :=
  PutUint32 timestamp ++ PutUint32 keySize ++ PutUint32 valueSize.

(** Modelled from the spec: [decodeHeader], a total function over a
    header-sized buffer, returning [(timestamp, keySize, valueSize)]. *)
Definition decodeHeader (header : list byte) : Z * Z * Z :=
  (Uint32 (slice header 0 4), Uint32 (slice header 4 8), Uint32 (slice header 8 12)).

(** Modelled from the spec: [encodeKV] (the spec's [encodeRecord]) builds the
    header from the timestamp, [len(key)] and [len(value)] and concatenates
    header, key and value; it returns the total size with the bytes. The
    lengths are converted to the header's 32-bit width. *)
Definition encodeKV (timestamp : Z) (key value : string) : Z * list byte :=
  let header := encodeHeader timestamp (uint32 (slen key)) (uint32 (slen value)) in
  let data := list_byte_of_string key ++ list_byte_of_string value in
  (headerSize + len data, header ++ data).

(** Modelled from the spec: [decodeKV] (the spec's [decodeRecord]) slices the
    buffer with the sizes of its own embedded header. A slice expression
    out of the buffer's range is a run-time panic in Go: [None]. *)
Definition decodeKV (data : list byte) : option (Z * string * string) :=
  if len data <? headerSize then None
  else
    let '(timestamp, keySize, valueSize) := decodeHeader (slice data 0 headerSize) in
    if len data <? headerSize + keySize + valueSize then None
    else
      let key := string_of_list_byte (slice data headerSize (headerSize + keySize)) in
      let value :=
        string_of_list_byte
          (slice data (headerSize + keySize) (headerSize + keySize + valueSize)) in
      Some (timestamp, key, value).

End Codec.

(** ** The operating system's files

    The store talks to the operating system through [os.Stat], [os.Open],
    [os.OpenFile] and the [Read], [Seek], [Write] and [Close] methods of
    [*os.File]. The world holds the regular files by name, the free space
    left on the disk (a write beyond it fails, after writing what fits) and
    the names that cannot be opened. *)

Inductive error : Type :=
  | EOF | ErrInvalid | ErrClosed | ErrNotExist | ErrPermission | ErrNoSpace.

Record World : Type := mkWorld {
  disk : gmap string (list byte);
  free : Z;
  denied : gset string
}.

(** An open file: its name, the offset of the next read and whether it has
    been closed. A [*os.File] is a pointer: [None] is [nil]. *)
Record OsFile : Type := mkOsFile {
  fname : string;
  fpos : Z;
  fclosed : bool
}.

Definition contents (w : World) (name : string) : list byte :=
  default [] (disk w !! name).

(** [os.Stat(name)] succeeds on an existing file. *)
Definition os_Stat (w : World) (name : string) : option error :=
  match disk w !! name with
  | Some _ => None
  | None => Some ErrNotExist
  end.

(** [os.Open(name)]: read-only, offset 0. *)
Definition os_Open (w : World) (name : string) : OsFile + error :=
  if decide (name ∈ denied w) then inr ErrPermission
  else match disk w !! name with
       | Some _ => inl (mkOsFile name 0 false)
       | None => inr ErrNotExist
       end.

(** [os.OpenFile(name, os.O_APPEND|os.O_RDWR|os.O_CREATE, 0666)]: the file is
    created empty when it does not exist. *)
Definition os_OpenFile (w : World) (name : string) : (OsFile + error) * World :=
  if decide (name ∈ denied w) then (inr ErrPermission, w)
  else match disk w !! name with
       | Some _ => (inl (mkOsFile name 0 false), w)
       | None =>
           (inl (mkOsFile name 0 false),
            mkWorld (<[name := []]> (disk w)) (free w) (denied w))
       end.

(** One call of [Read] transfers at most [2^30] bytes, however large the
    buffer is. *)
Definition maxRW : Z := 2 ^ 30.

(** [f.Read(b)] with [len(b) = n]: the buffer after the call, the error and
    the file. A read into an empty buffer returns at once without error; at
    the end of the file a read returns [io.EOF]; otherwise it returns the
    bytes that are there, fewer than [n] when the file ends first or when
    [n] is more than [maxRW], and the rest of the buffer keeps its zeroes.
    The offset moves by the number of bytes read. *)
Definition file_Read (w : World) (f : option OsFile) (n : Z)
  : list byte * option error * option OsFile :=
  match f with
  | None => (make n, Some ErrInvalid, f)
  | Some h =>
      if fclosed h then (make n, Some ErrClosed, f)
      else if n =? 0 then ([], None, f)
      else
        let got := take (Z.to_nat (Z.min n maxRW))
                        (drop (Z.to_nat (fpos h)) (contents w (fname h))) in
        if len got =? 0 then (make n, Some EOF, f)
        else (got ++ make (n - len got), None,
              Some (mkOsFile (fname h) (fpos h + len got) false))
  end.

(** [f.Seek(off, io.SeekStart)]. *)
Definition file_Seek (f : option OsFile) (off : Z) : option error * option OsFile :=
  match f with
  | None => (Some ErrInvalid, f)
  | Some h =>
      if fclosed h then (Some ErrClosed, f)
      else if off <? 0 then (Some ErrInvalid, f)
      else (None, Some (mkOsFile (fname h) off false))
  end.

(** [f.Write(data)] on a file opened with [O_APPEND]: the bytes go to the end
    of the file whatever the offset is. When the disk has less free space
    than [len(data)], the bytes that fit are written and the write fails. *)
Definition file_Write (w : World) (f : option OsFile) (data : list byte)
  : option error * option OsFile * World :=
  match f with
  | None => (Some ErrInvalid, f, w)
  | Some h =>
      if fclosed h then (Some ErrClosed, f, w)
      else
        let old := contents w (fname h) in
        if len data <=? free w then
          (None, Some (mkOsFile (fname h) (len old + len data) false),
           mkWorld (<[fname h := old ++ data]> (disk w)) (free w - len data) (denied w))
        else
          let part := take (Z.to_nat (free w)) data in
          (Some ErrNoSpace, Some (mkOsFile (fname h) (len old + len part) false),
           mkWorld (<[fname h := old ++ part]> (disk w)) (free w - len part) (denied w))
  end.

(** [f.Close()]. *)
Definition file_Close (f : option OsFile) : option error * option OsFile :=
  match f with
  | None => (Some ErrInvalid, f)
  | Some h =>
      if fclosed h then (Some ErrClosed, f)
      else (None, Some (mkOsFile (fname h) (fpos h) true))
  end.

(** ** The disk store *)

(** How a call ends: it returns, the process exits ([os.Exit]), the Go
    run-time panics, or the model of a loop ran out of fuel. *)
Inductive outcome (A : Type) : Type :=
  | Done (a : A)
  | Exit (code : Z)
  | Panic
  | OutOfFuel.
Arguments Done {A} a.
Arguments Exit {A} code.
Arguments Panic {A}.
Arguments OutOfFuel {A}.

Record DiskStore : Type := mkDiskStore {
  file : option OsFile;
  writePos : Z;
  KeyDir : gmap string KeyEntry
}.

Section Store.

Variable order : ByteOrder.

(** [isFileExists]: [os.Stat] returns no error (it never returns
    [fs.ErrExist]). *)
Definition isFileExists (w : World) (fileName : string) : bool :=
  match os_Stat w fileName with
  | None => true
  | Some _ => false
  end.

(** One iteration of the [for] loop of [LoadKeys]: [None] when it breaks out
    of the loop, which it does at [io.EOF] and at any other error of a read
    alike; the file and the store at the end of the loop body otherwise. *)
Definition loadStep (w : World) (f : option OsFile) (d : DiskStore)
  : option (option OsFile * DiskStore) :=
  let '(buffer, err, f) := file_Read w f headerSize in
  match err with
  | Some _ => None
  | None =>
      let '(timestamp, keySize, valueSize) := decodeHeader order buffer in
      let '(key, err, f) := file_Read w f keySize in
      match err with
      | Some _ => None
      | None =>
          let '(value, err, f) := file_Read w f valueSize in
          match err with
          | Some _ => None
          | None =>
              let totalSize := uint32 (headerSize + keySize + valueSize) in
              let entry := mkKeyEntry timestamp (writePos d) totalSize in
              Some (f, mkDiskStore (file d)
                                   (uint32 (writePos d + totalSize))
                                   (<[string_of_list_byte key := entry]> (KeyDir d)))
          end
      end
  end.

(** The loop, one iteration per unit of fuel. *)
Fixpoint loadLoop (fuel : nat) (w : World) (f : option OsFile) (d : DiskStore)
  : outcome DiskStore :=
  match fuel with
  | O => OutOfFuel
  | S fuel' =>
      match loadStep w f d with
      | None => Done d
      | Some (f, d) => loadLoop fuel' w f d
      end
  end.

(** [LoadKeys] exits when the file cannot be opened and returns nothing
    otherwise, whichever way its loop ends. Every iteration that goes round
    the loop has read at least one byte, so one more unit of fuel than the
    file has bytes is enough ([LoadKeys_total]). *)
Definition LoadKeys (fileName : string) (d : DiskStore) (w : World) : outcome DiskStore :=
  match os_Open w fileName with
  | inr _ => Exit 1
  | inl f => loadLoop (S (length (contents w fileName))) w (Some f) d
  end.

(** [NewDiskStore]: the store that [LoadKeys] has filled, if the file
    exists, with the file that [os.OpenFile] returns; the only error it
    returns is that of [os.OpenFile], with an empty [DiskStore]. *)
Definition NewDiskStore (fileName : string) (w : World)
  : outcome (DiskStore * option error) * World :=
  let ds := mkDiskStore None 0 ∅ in
  let loaded := if isFileExists w fileName then LoadKeys fileName ds w else Done ds in
  match loaded with
  | Done ds =>
      match os_OpenFile w fileName with
      | (inr err, w) => (Done (mkDiskStore None 0 ∅, Some err), w)
      | (inl file, w) => (Done (mkDiskStore (Some file) (writePos ds) (KeyDir ds), None), w)
      end
  | Exit code => (Exit code, w)
  | Panic => (Panic, w)
  | OutOfFuel => (OutOfFuel, w)
  end.

(** [Get]: the empty string for a key that is not in [KeyDir]; otherwise the
    value that [decodeKV] finds in the [totalSize] bytes read at
    [writeOffSet]. An error of [Seek] or [Read] ends the process. *)
Definition Get (key : string) (d : DiskStore) (w : World) : outcome string * DiskStore :=
  match KeyDir d !! key with
  | None => (Done EmptyString, d)
  | Some keyEntry =>
      let writeOffset := writeOffSet keyEntry in
      let totalSize := totalSize keyEntry in
      let '(err, file) := file_Seek (file d) writeOffset in
      let d := mkDiskStore file (writePos d) (KeyDir d) in
      match err with
      | Some _ => (Exit 1, d)
      | None =>
          let '(buffer, err, file) := file_Read w file totalSize in
          let d := mkDiskStore file (writePos d) (KeyDir d) in
          match err with
          | Some _ => (Exit 1, d)
          | None =>
              match decodeKV order buffer with
              | None => (Panic, d)
              | Some (_, _, value) => (Done value, d)
              end
          end
      end
  end.

(** [Set] (a reserved word here, hence the name [Set_]); [now] is the
    reading of [time.Now().Unix()]. An error of [Write] ends the process
    before the index is touched. *)
Definition Set_ (now : Z) (key value : string) (d : DiskStore) (w : World)
  : outcome unit * DiskStore * World :=
  let timestamp := uint32 now in
  let '(totalSize, data) := encodeKV order timestamp key value in
  let '(err, file, w) := file_Write w (file d) data in
  let d := mkDiskStore file (writePos d) (KeyDir d) in
  match err with
  | Some _ => (Exit 1, d, w)
  | None =>
      let entry := mkKeyEntry timestamp (writePos d) (uint32 totalSize) in
      (Done tt,
       mkDiskStore file (uint32 (writePos d + uint32 totalSize)) (<[key := entry]> (KeyDir d)),
       w)
  end.

(** [Close]. *)
Definition Close (d : DiskStore) : outcome unit * DiskStore :=
  let '(err, file) := file_Close (file d) in
  let d := mkDiskStore file (writePos d) (KeyDir d) in
  match err with
  | Some _ => (Exit 1, d)
  | None => (Done tt, d)
  end.

End Store.

(** ** Logs, indexes and client programs *)

(** A record of the log: timestamp, key and value. *)
Definition record : Type := Z * string * string.

(** [headerSize + keySize + valueSize], the size of a record on disk. *)
Definition recordSize (r : record) : Z :=
  let '(_, key, value) := r in headerSize + slen key + slen value.

(** The fields of a record fit the header's 32-bit integers. *)
Definition fits_header (r : record) : Prop :=
  let '(ts, key, value) := r in
  0 <= ts < 2 ^ 32 /\ slen key < 2 ^ 32 /\ slen value < 2 ^ 32.

(** The timestamp of a record fits its 32-bit integer, and one call of
    [Read] returns the record whole: it has at most [maxRW] bytes. *)
Definition valid_record (r : record) : Prop :=
  let '(ts, key, value) := r in
  0 <= ts < 2 ^ 32 /\ headerSize + slen key + slen value <= maxRW.

(** The file that holds the records [rs], densely packed. *)
Definition encodeLog (order : ByteOrder) (rs : list record) : list byte :=
  concat (map (fun r : record => let '(ts, key, value) := r in
                                 snd (encodeKV order ts key value)) rs).

(** The update of [writePos] and [KeyDir] for one record at the end of the
    log, as [Set] makes it after its write and [LoadKeys] in every iteration
    that reaches the end of the loop body. *)
Definition upsert (r : record) (d : DiskStore) : DiskStore :=
  let '(ts, key, _) := r in
  let total := uint32 (recordSize r) in
  mkDiskStore (file d)
              (uint32 (writePos d + total))
              (<[key := mkKeyEntry ts (writePos d) total]> (KeyDir d)).

Definition replay (rs : list record) (d : DiskStore) : DiskStore :=
  fold_left (fun d r => upsert r d) rs d.

(** The store [&DiskStore{KeyDir: make(map[string]KeyEntry)}] that
    [NewDiskStore] starts from. *)
Definition newStore : DiskStore := mkDiskStore None 0 ∅.

(** The store [d] is open on the file [path], which holds the log [rs], and
    its index is the one the records of the log produce in order. *)
Definition tracks (order : ByteOrder) (path : string) (rs : list record)
    (d : DiskStore) (w : World) : Prop :=
  (exists p, file d = Some (mkOsFile path p false)) /\
  (path ∉ denied w) /\
  disk w !! path = Some (encodeLog order rs) /\
  writePos d = writePos (replay rs newStore) /\
  KeyDir d = KeyDir (replay rs newStore).

(** Every entry of the key directory ends at or before [writePos]. *)
Definition index_bounds (d : DiskStore) : Prop :=
  forall key e, KeyDir d !! key = Some e -> writeOffSet e + totalSize e <= writePos d.

(** The file at [path] is absent, or it is a log of records of at most
    [maxRW] bytes each. *)
Definition absent_or_log (order : ByteOrder) (w : World) (path : string) : Prop :=
  disk w !! path = None \/
  exists rs, disk w !! path = Some (encodeLog order rs) /\ Forall valid_record rs.

(** Every record in the file at [path] has at most [maxRW] bytes: the file
    is a log of such records. *)
Definition small_records (order : ByteOrder) (w : World) (path : string) : Prop :=
  exists rs, disk w !! path = Some (encodeLog order rs) /\ Forall valid_record rs.

(** The states of a store: [NewDiskStore] on an absent file or on a log of
    records of at most [maxRW] bytes each, then calls of [Set] and [Get]
    that return. *)
Inductive reachable (order : ByteOrder) (path : string) : DiskStore -> World -> Prop :=
  | reach_open w d w' :
      absent_or_log order w path ->
      NewDiskStore order path w = (Done (d, None), w') ->
      reachable order path d w'
  | reach_Set d w now key value d' w' :
      reachable order path d w ->
      Set_ order now key value d w = (Done tt, d', w') ->
      reachable order path d' w'
  | reach_Get d w key value d' :
      reachable order path d w ->
      Get order key d w = (Done value, d') ->
      reachable order path d' w.

(** A client that calls [Set] for each [(now, key, value)] of a list, where
    [now] is what the clock reads at the call. *)
Fixpoint run_sets (order : ByteOrder) (ops : list (Z * string * string))
    (d : DiskStore) (w : World) : outcome unit * DiskStore * World :=
  match ops with
  | [] => (Done tt, d, w)
  | (now, key, value) :: ops =>
      match Set_ order now key value d w with
      | (Done _, d, w) => run_sets order ops d w
      | r => r
      end
  end.

(** The records that the calls of [ops] append. *)
Definition records_of (ops : list (Z * string * string)) : list record :=
  map (fun op : Z * string * string => let '(now, key, value) := op in
                                        (uint32 now, key, value)) ops.

(** Two values of a [*os.File] are the same open (or closed, or nil) file,
    whatever their offsets are. *)
Definition same_file (f f' : option OsFile) : Prop :=
  match f, f' with
  | None, None => True
  | Some h, Some h' => fname h = fname h' /\ fclosed h = fclosed h'
  | _, _ => False
  end.

(** Two stores with the same index on the same file. *)
Definition same_store (d d' : DiskStore) : Prop :=
  same_file (file d) (file d') /\ writePos d = writePos d' /\ KeyDir d = KeyDir d'.

(** The sum of [headerSize + keySize + valueSize] over the records. *)
Definition logSize (rs : list record) : Z := foldr (fun r n => recordSize r + n) 0 rs.

(** ** Scenarios *)

(** A disk with a thousand free bytes and no file, and the store and the
    world after [NewDiskStore "books.db"] on it. *)
Definition smallWorld : World := mkWorld ∅ 1000 ∅.
Definition freshStore : DiskStore := mkDiskStore (Some (mkOsFile "books.db" 0 false)) 0 ∅.
Definition freshWorld : World := mkWorld {[ "books.db"%string := [] ]} 1000 ∅.

(** The store and the world after [Set "othello" "shakespeare"] on them, at a
    time when the clock reads 1700000000. *)
Definition othelloStore : DiskStore :=
  mkDiskStore (Some (mkOsFile "books.db" 30 false)) 30
              {[ "othello"%string := mkKeyEntry 1700000000 0 30 ]}.
Definition othelloWorld : World :=
  mkWorld {[ "books.db"%string
             := snd (encodeKV LittleEndian 1700000000 "othello" "shakespeare") ]}
          970 ∅.

(** A disk with three free bytes and an empty file. *)
Definition fullWorld : World := mkWorld {[ "books.db"%string := [] ]} 3 ∅.

(** A disk with room for records of four gigabytes, and a string of [n]
    zero bytes. *)
Definition bigWorld : World := mkWorld ∅ (2 ^ 33) ∅.
Definition zeros (n : Z) : string := string_of_list_byte (make n).

(** A log of two records, of 14 and 15 bytes, cut after [n] bytes. *)
Definition cutLog (order : ByteOrder) (n : nat) : list byte :=
  take n (encodeLog order [(1, "a", "x"); (2, "b", "yz")]%string).
Definition cutWorld (order : ByteOrder) (n : nat) : World :=
  mkWorld {[ "books.db"%string := cutLog order n ]} 1000 ∅.

(** The store that [NewDiskStore] returns for the log cut after 28 bytes. *)
Definition cutStore : DiskStore :=
  mkDiskStore (Some (mkOsFile "books.db" 0 false)) 29
              (<[ "b"%string := mkKeyEntry 2 14 15 ]> {[ "a"%string := mkKeyEntry 1 0 14 ]}).

(** [Set] on a store opened on a disk with three free bytes: the process
    exits with status 1, the index is as before and three bytes of the
    record are in the file. *)
Definition write_failure_scenario (order : ByteOrder) : Prop :=
  NewDiskStore order "books.db" fullWorld = (Done (freshStore, None), fullWorld) /\
  Set_ order 0 "k" "v" freshStore fullWorld
  = (Exit 1,
     mkDiskStore (Some (mkOsFile "books.db" 3 false)) 0 ∅,
     mkWorld {[ "books.db"%string := take 3 (snd (encodeKV order 0 "k" "v")) ]} 0 ∅).

(** A value of [2^32 - 13] bytes under a key of one byte makes a record of
    [2^32] bytes, whose [totalSize] is 0 as a [uint32], and [writePos] stays
    0: the second [Set] of the key appends its record at offset [2^32] and
    indexes it at offset 0, so [Get] reads the first 14 bytes of the first
    record, and the slice for the value its header describes is out of
    range. *)
Definition lost_update_scenario (order : ByteOrder) : Prop :=
  exists d0 w0 d1 w1 d2 w2 d3,
    NewDiskStore order "books.db" bigWorld = (Done (d0, None), w0) /\
    Set_ order 0 "k" (zeros (2 ^ 32 - 13)) d0 w0 = (Done tt, d1, w1) /\
    len (contents w1 "books.db") = 2 ^ 32 /\
    Set_ order 1 "k" "x" d1 w1 = (Done tt, d2, w2) /\
    KeyDir d2 !! "k"%string = Some (mkKeyEntry 1 0 14) /\
    Get order "k" d2 w2 = (Panic, d3).

(** A value of [n] zero bytes and the byte of the letter x. *)
Definition tailed (n : Z) : string := string_of_list_byte (make n ++ [x78]).

(** A value of [2^30 + 1] bytes, in a file far shorter than [2^32] bytes:
    [Get] reads the record with one [Read], which returns its first [2^30]
    bytes; the rest of the buffer stays zero, and [Get] returns the value
    with a zero byte where its last byte was. *)
Definition truncated_read_scenario (order : ByteOrder) : Prop :=
  exists d0 w0 d1 w1 d2 w2 d3,
    NewDiskStore order "books.db" bigWorld = (Done (d0, None), w0) /\
    Set_ order 0 "k" "a" d0 w0 = (Done tt, d1, w1) /\
    Set_ order 1 "k" (tailed (2 ^ 30)) d1 w1 = (Done tt, d2, w2) /\
    len (contents w2 "books.db") = 2 ^ 30 + 28 /\
    Get order "k" d2 w2 = (Done (zeros (2 ^ 30 + 1)), d3) /\
    zeros (2 ^ 30 + 1) <> tailed (2 ^ 30).

(** The record of twelve zero bytes, with an empty key and an empty value,
    that [LoadKeys] reads from a run of zero bytes. *)
Definition zero_record : record := (0, EmptyString, EmptyString).

(** What one [Read] leaves in a fresh buffer of the size of [data] when the
    file holds [data] at the file position: the first [maxRW] bytes, and
    zeroes in the rest of the buffer. *)
Definition capped (data : list byte) : list byte :=
  take (Z.to_nat (Z.min (len data) maxRW)) data ++ make (len data - maxRW).

(** The same record, then the store is closed and opened again. Recovery
    reads the first [2^30] bytes of the value, all that one [Read] returns,
    indexes the key with [totalSize] 0 and takes the rest of the value,
    [3 * 2^30 - 13] zero bytes, for 268435455 records of the empty key:
    [writePos] is 3221225460, the empty key is in the key directory, and
    [Get] of the key has nothing to decode. *)
Definition lost_after_reopen_scenario (order : ByteOrder) : Prop :=
  exists d0 w0 d1 w1 d2 d3 d4,
    NewDiskStore order "books.db" bigWorld = (Done (d0, None), w0) /\
    Set_ order 0 "k" (zeros (2 ^ 32 - 13)) d0 w0 = (Done tt, d1, w1) /\
    Close d1 = (Done tt, d2) /\
    NewDiskStore order "books.db" w1 = (Done (d3, None), w1) /\
    KeyDir d3 !! "k"%string = Some (mkKeyEntry 0 0 0) /\
    KeyDir d3 !! EmptyString = Some (mkKeyEntry 0 3221225448 12) /\
    writePos d3 = 3221225460 /\
    Get order "k" d3 w1 = (Panic, d4).

(** A value of [2^30 + 100] zero bytes, in a file of [2^30 + 113] bytes:
    after [Close] and [NewDiskStore], recovery has read [2^30] bytes of the
    value and taken the last 100 for nine records of the empty key, which
    is in the key directory now, at an offset past the end of the file, and
    [writePos] is 108 more than it was. *)
Definition short_read_reopen_scenario (order : ByteOrder) : Prop :=
  exists d0 w0 d1 w1 d2 d3,
    NewDiskStore order "books.db" bigWorld = (Done (d0, None), w0) /\
    Set_ order 0 "k" (zeros (2 ^ 30 + 100)) d0 w0 = (Done tt, d1, w1) /\
    len (contents w1 "books.db") = 2 ^ 30 + 113 /\
    writePos d1 = 2 ^ 30 + 113 /\
    KeyDir d1 !! EmptyString = None /\
    Close d1 = (Done tt, d2) /\
    NewDiskStore order "books.db" w1 = (Done (d3, None), w1) /\
    KeyDir d3 !! "k"%string = Some (mkKeyEntry 0 0 (2 ^ 30 + 113)) /\
    KeyDir d3 !! EmptyString = Some (mkKeyEntry 0 (2 ^ 30 + 209) 12) /\
    writePos d3 = 2 ^ 30 + 221.

(** The store of [short_read_reopen_scenario], then [Set] of the empty
    string: the record is appended at the end of the file, at offset
    [2^30 + 113], and indexed at [writePos], 108 bytes further, past the end
    of the file; [Get] of the key reads there, gets [io.EOF] and ends the
    process. *)
Definition empty_value_after_short_read_scenario (order : ByteOrder) : Prop :=
  exists d0 w0 d1 w1 d2 d3 d4 w4 d5,
    NewDiskStore order "books.db" bigWorld = (Done (d0, None), w0) /\
    Set_ order 0 "k" (zeros (2 ^ 30 + 100)) d0 w0 = (Done tt, d1, w1) /\
    Close d1 = (Done tt, d2) /\
    NewDiskStore order "books.db" w1 = (Done (d3, None), w1) /\
    len (contents w1 "books.db") = 2 ^ 30 + 113 /\
    writePos d3 = 2 ^ 30 + 221 /\
    Set_ order 1 "h" EmptyString d3 w1 = (Done tt, d4, w4) /\
    KeyDir d4 !! "h"%string = Some (mkKeyEntry 1 (2 ^ 30 + 221) 13) /\
    len (contents w4 "books.db") = 2 ^ 30 + 126 /\
    Get order "h" d4 w4 = (Exit 1, d5).

(** The same store, then two [Set]s of a key: both records are indexed 108
    bytes after where they are, the second one past the end of the file, and
    [Get] of the key ends the process. *)
Definition update_after_short_read_scenario (order : ByteOrder) : Prop :=
  exists d0 w0 d1 w1 d2 d3 d4 w4 d5 w5 d6,
    NewDiskStore order "books.db" bigWorld = (Done (d0, None), w0) /\
    Set_ order 0 "k" (zeros (2 ^ 30 + 100)) d0 w0 = (Done tt, d1, w1) /\
    Close d1 = (Done tt, d2) /\
    NewDiskStore order "books.db" w1 = (Done (d3, None), w1) /\
    len (contents w1 "books.db") = 2 ^ 30 + 113 /\
    writePos d3 = 2 ^ 30 + 221 /\
    Set_ order 1 "h" "v1" d3 w1 = (Done tt, d4, w4) /\
    Set_ order 2 "h" "v2" d4 w4 = (Done tt, d5, w5) /\
    KeyDir d5 !! "h"%string = Some (mkKeyEntry 2 (2 ^ 30 + 236) 15) /\
    len (contents w5 "books.db") = 2 ^ 30 + 143 /\
    Get order "h" d5 w5 = (Exit 1, d6).

(** The store of [short_read_reopen_scenario]: the entry of the empty key
    ends at [writePos] and starts past the end of the file. *)
Definition entry_past_the_file_scenario (order : ByteOrder) : Prop :=
  exists d0 w0 d1 w1 d2 d3 e,
    NewDiskStore order "books.db" bigWorld = (Done (d0, None), w0) /\
    Set_ order 0 "k" (zeros (2 ^ 30 + 100)) d0 w0 = (Done tt, d1, w1) /\
    Close d1 = (Done tt, d2) /\
    NewDiskStore order "books.db" w1 = (Done (d3, None), w1) /\
    KeyDir d3 !! EmptyString = Some e /\
    writeOffSet e + totalSize e <= writePos d3 /\
    len (contents w1 "books.db") < writeOffSet e /\
    len (contents w1 "books.db") < writePos d3.

(** After one [Set] of a record of [2^32] bytes the file has [2^32] bytes
    and [writePos] is 0. *)
Definition writePos_wraps_scenario (order : ByteOrder) : Prop :=
  exists d0 w0 d w,
    NewDiskStore order "books.db" bigWorld = (Done (d0, None), w0) /\
    run_sets order [(0, "k"%string, zeros (2 ^ 32 - 13))] d0 w0 = (Done tt, d, w) /\
    len (contents w "books.db") = 2 ^ 32 /\
    writePos d = 0.

(** An empty value stored after a record of [2^32] bytes: its record is at
    offset [2^32] and its entry at offset 0, [Get] reads the first 13 bytes
    of the first record and does not return the empty string. *)
Definition lost_empty_value_scenario (order : ByteOrder) : Prop :=
  exists d0 w0 d1 w1 d2 w2 d3,
    NewDiskStore order "books.db" bigWorld = (Done (d0, None), w0) /\
    Set_ order 0 "a" (zeros (2 ^ 32 - 13)) d0 w0 = (Done tt, d1, w1) /\
    len (contents w1 "books.db") = 2 ^ 32 /\
    Set_ order 1 "k" EmptyString d1 w1 = (Done tt, d2, w2) /\
    KeyDir d2 !! "k"%string = Some (mkKeyEntry 1 0 13) /\
    Get order "k" d2 w2 = (Panic, d3).

(** A store opened on the log cut after 27 bytes has [writePos] 14 in a file
    of 27 bytes: [Set] appends its records from offset 27 on and indexes
    them from offset 14 on, and [Get] of the key decodes what it finds at the
    offset of the entry. *)
Definition misplaced_update_scenario (order : ByteOrder) : Prop :=
  exists d0 w0 d1 w1 d2 w2 d3,
    NewDiskStore order "books.db" (cutWorld order 27) = (Done (d0, None), w0) /\
    writePos d0 = 14 /\ len (contents w0 "books.db") = 27 /\
    Set_ order 3 "k" "v1" d0 w0 = (Done tt, d1, w1) /\
    Set_ order 4 "k" "v2" d1 w1 = (Done tt, d2, w2) /\
    KeyDir d2 !! "k"%string = Some (mkKeyEntry 4 29 15) /\
    len (contents w1 "books.db") = 42 /\
    Get order "k" d2 w2 = (Panic, d3).

(** The same store, with one [Set] of the empty string. *)
Definition misplaced_empty_value_scenario (order : ByteOrder) : Prop :=
  exists d0 w0 d1 w1 d2,
    NewDiskStore order "books.db" (cutWorld order 27) = (Done (d0, None), w0) /\
    writePos d0 = 14 /\ len (contents w0 "books.db") = 27 /\
    Set_ order 3 "k" EmptyString d0 w0 = (Done tt, d1, w1) /\
    KeyDir d1 !! "k"%string = Some (mkKeyEntry 3 14 13) /\
    Get order "k" d1 w1 = (Panic, d2).

(** The same store, closed after one [Set] and opened again: recovery stops
    in the middle of the record that [Set] wrote, the key is not in the key
    directory any more and [Get] reports a miss. *)
Definition misplaced_after_reopen_scenario (order : ByteOrder) : Prop :=
  exists d0 w0 d1 w1 d2 d3,
    NewDiskStore order "books.db" (cutWorld order 27) = (Done (d0, None), w0) /\
    Set_ order 3 "k" "v" d0 w0 = (Done tt, d1, w1) /\
    KeyDir d1 !! "k"%string = Some (mkKeyEntry 3 14 14) /\
    Close d1 = (Done tt, d2) /\
    NewDiskStore order "books.db" w1 = (Done (d3, None), w1) /\
    KeyDir d3 !! "k"%string = None /\
    Get order "k" d3 w1 = (Done EmptyString, d3).

(** A record of 14 bytes, then one of [2^32 - 14] bytes: [writePos] is 0
    again and the first entry ends after it. *)
Definition index_out_of_bounds_scenario (order : ByteOrder) : Prop :=
  exists d0 w0 d1 w1 d2 w2,
    NewDiskStore order "books.db" bigWorld = (Done (d0, None), w0) /\
    Set_ order 0 "a" "x" d0 w0 = (Done tt, d1, w1) /\
    Set_ order 1 "b" (zeros (2 ^ 32 - 27)) d1 w1 = (Done tt, d2, w2) /\
    reachable order "books.db" d2 w2 /\
    KeyDir d2 !! "a"%string = Some (mkKeyEntry 0 0 14) /\
    writePos d2 = 0 /\
    ~ index_bounds d2.

(** ** The store as a map *)

(** The map from keys to values that the records of a log describe: a later
    record of a key replaces an earlier one. *)
Definition as_map (rs : list record) : gmap string string :=
  fold_left (fun (m : gmap string string) (r : record) =>
               let '(_, key, value) := r in <[key := value]> m) rs ∅.

(** The keys of the records of a log. *)
Definition keys_of (rs : list record) : gset string :=
  list_to_set (map (fun r : record => let '(_, key, _) := r in key) rs).

(** The file at [path] holds the log [rs]: there is no file and no record,
    or the file is the encoding of [rs], records of at most [maxRW] bytes
    each. *)
Definition holds_log (order : ByteOrder) (w : World) (path : string) (rs : list record)
  : Prop :=
  (disk w !! path = None /\ rs = []) \/
  (disk w !! path = Some (encodeLog order rs) /\ Forall valid_record rs).

(** ** The programs and what they print *)

(** The lines on the standard output: one constructor for each call of
    [fmt.Println] and [fmt.Printf] in the store and in the programs, with
    the values that it prints. *)
Inductive line : Type :=
  | value_read (value : string)          (* main: "value read %s\n" *)
  | error_loading_keys (err : error)     (* LoadKeys: "error in loading keys from the file db" *)
  | done_reading                         (* LoadKeys: "done reading from the file. exiting..." *)
  | unknown_error_reading (err : error)  (* LoadKeys: "unkown error while reading the file" *)
  | error_reading_keys (err : error)     (* LoadKeys: "error in reading keys" *)
  | error_reading_values (err : error)   (* LoadKeys: "error in reading values" *)
  | loaded_key (key value : string)      (* LoadKeys: "loaded key=%s and value=%s\n" *)
  | error_seeking (err : error)          (* Get: "error in seeking to the correct offset" *)
  | error_reading_kv (err : error)       (* Get: "error in reading the kv" *)
  | error_writing_kv (err : error)       (* Set: "error while writing kv to disk" *)
  | error_closing (err : error).         (* Close: "error in closing the file" *)

(** The lines that [LoadKeys] prints for the records of a log. *)
Definition loaded_lines (rs : list record) : list line :=
  map (fun r : record => let '(_, key, value) := r in loaded_key key value) rs.

Section Prints.

Variable order : ByteOrder.

(** The line that one iteration of the loop of [LoadKeys] prints: the
    message of the read that failed, or the key and the value it loaded. *)
Definition loadStep_prints (w : World) (f : option OsFile) : line :=
  let '(buffer, err, f) := file_Read w f headerSize in
  match err with
  | Some EOF => done_reading
  | Some err => unknown_error_reading err
  | None =>
      let '(timestamp, keySize, valueSize) := decodeHeader order buffer in
      let '(key, err, f) := file_Read w f keySize in
      match err with
      | Some err => error_reading_keys err
      | None =>
          let '(value, err, f) := file_Read w f valueSize in
          match err with
          | Some err => error_reading_values err
          | None => loaded_key (string_of_list_byte key) (string_of_list_byte value)
          end
      end
  end.

(** The lines of the loop, with the fuel of [loadLoop]. *)
Fixpoint loadLoop_prints (fuel : nat) (w : World) (f : option OsFile) (d : DiskStore)
  : list line :=
  match fuel with
  | O => []
  | S fuel' =>
      loadStep_prints w f ::
      match loadStep order w f d with
      | None => []
      | Some (f, d) => loadLoop_prints fuel' w f d
      end
  end.

(** What [LoadKeys], [NewDiskStore], [Get], [Set] and [Close] print. *)
Definition LoadKeys_prints (fileName : string) (d : DiskStore) (w : World) : list line :=
  match os_Open w fileName with
  | inr err => [error_loading_keys err]
  | inl f => loadLoop_prints (S (length (contents w fileName))) w (Some f) d
  end.

Definition NewDiskStore_prints (fileName : string) (w : World) : list line :=
  if isFileExists w fileName then LoadKeys_prints fileName (mkDiskStore None 0 ∅) w else [].

Definition Get_prints (key : string) (d : DiskStore) (w : World) : list line :=
  match KeyDir d !! key with
  | None => []
  | Some keyEntry =>
      let '(err, file) := file_Seek (file d) (writeOffSet keyEntry) in
      match err with
      | Some err => [error_seeking err]
      | None =>
          let '(_, err, _) := file_Read w file (totalSize keyEntry) in
          match err with
          | Some err => [error_reading_kv err]
          | None => []
          end
      end
  end.

Definition Set_prints (now : Z) (key value : string) (d : DiskStore) (w : World)
  : list line :=
  let '(_, data) := encodeKV order (uint32 now) key value in
  let '(err, _, _) := file_Write w (file d) data in
  match err with
  | Some err => [error_writing_kv err]
  | None => []
  end.

Definition Close_prints (d : DiskStore) : list line :=
  let '(err, _) := file_Close (file d) in
  match err with
  | Some err => [error_closing err]
  | None => []
  end.

End Prints.

(** The next statement of a program after a call that ended in [r]: the
    program goes on when the call has returned, and it ends as the call
    ended otherwise, with the lines printed and the disk [s] as they are
    then. *)
Definition and_then {A B S : Type} (r : outcome A) (s : S) (k : A -> outcome B * S)
  : outcome B * S :=
  match r with
  | Done a => k a
  | Exit code => (Exit code, s)
  | Panic => (Panic, s)
  | OutOfFuel => (OutOfFuel, s)
  end.

Module MainGo.

(** [main] of main.go: how it ends, the lines on the standard output, those
    of the calls it makes and its own, and the disk. It drops the error of
    [NewDiskStore] and goes on with the store it got; [now1] and [now2] are
    the readings of the clock in the two calls of [Set]. *)
Definition main (order : ByteOrder) (now1 now2 : Z) (w : World)
  : outcome unit * (list line * World) :=
  let out := NewDiskStore_prints order "books.db" w in
  let '(r, w) := NewDiskStore order "books.db" w in
  and_then r (out, w) (fun '(store, _) =>
  let out := out ++ Set_prints order now1 "othello" "shakespeare" store w in
  let '(r, store, w) := Set_ order now1 "othello" "shakespeare" store w in
  and_then r (out, w) (fun _ =>
  let out := out ++ Get_prints "othello" store w in
  let '(r, store) := Get order "othello" store w in
  and_then r (out, w) (fun author1 =>
  let out := out ++ [value_read author1] in
  let out := out ++ Set_prints order now2 "war and peace" "tolstoy" store w in
  let '(r, store, w) := Set_ order now2 "war and peace" "tolstoy" store w in
  and_then r (out, w) (fun _ =>
  let out := out ++ Get_prints "war and peace" store w in
  let '(r, store) := Get order "war and peace" store w in
  and_then r (out, w) (fun author2 =>
  let out := out ++ [value_read author2] in
  let out := out ++ Close_prints store in
  let '(r, store) := Close store in
  and_then r (out, w) (fun _ => (Done tt, (out, w)))))))).

End MainGo.

Module Part000.

(** [main] of the second program: two calls of [Set] of one key, then
    [Get] of it. *)
Definition main (order : ByteOrder) (now1 now2 : Z) (w : World)
  : outcome unit * (list line * World) :=
  let out := NewDiskStore_prints order "books.db" w in
  let '(r, w) := NewDiskStore order "books.db" w in
  and_then r (out, w) (fun '(store, _) =>
  let out := out ++ Set_prints order now1 "othello" "shakespeare1" store w in
  let '(r, store, w) := Set_ order now1 "othello" "shakespeare1" store w in
  and_then r (out, w) (fun _ =>
  let out := out ++ Set_prints order now2 "othello" "shakespeare2" store w in
  let '(r, store, w) := Set_ order now2 "othello" "shakespeare2" store w in
  and_then r (out, w) (fun _ =>
  let out := out ++ Get_prints "othello" store w in
  let '(r, store) := Get order "othello" store w in
  and_then r (out, w) (fun author2 =>
  let out := out ++ [value_read author2] in
  let out := out ++ Close_prints store in
  let '(r, store) := Close store in
  and_then r (out, w) (fun _ => (Done tt, (out, w))))))).

End Part000.

(** ** Further scenarios *)

(** A disk on which books.db cannot be opened or created. *)
Definition lockedWorld : World := mkWorld ∅ 1000 {[ "books.db"%string ]}.

(** Two calls of [Set], and the log of [othelloWorld]. *)
Definition twoSets : list (Z * string * string) :=
  [(1700000001, "war and peace", "tolstoy"); (1700000002, "othello", "shakespeare2")]%string.
Definition othelloLog : list record := [(1700000000, "othello", "shakespeare")]%string.

(** The store and the world after [Set "war and peace" "tolstoy"] on
    [othelloStore] and [othelloWorld]. *)
Definition tolstoyStore : DiskStore :=
  snd (fst (Set_ LittleEndian 1700000001 "war and peace" "tolstoy" othelloStore othelloWorld)).
Definition tolstoyWorld : World :=
  snd (Set_ LittleEndian 1700000001 "war and peace" "tolstoy" othelloStore othelloWorld).

(** [othelloStore] after [Close]. *)
Definition closedStore : DiskStore :=
  mkDiskStore (Some (mkOsFile "books.db" 30 true)) 30
              {[ "othello"%string := mkKeyEntry 1700000000 0 30 ]}.

(** * Properties *)

(** ** Bytes and the codec *)

Lemma Z_of_byte_range (b : byte) : 0 <= Z_of_byte b < 256.
Proof.
  unfold Z_of_byte. pose proof (Byte.to_N_bounded b). lia.
Qed.

Lemma Z_of_byte_of_Z (x : Z) : Z_of_byte (byte_of_Z x) = x mod 256.
Proof.
  unfold Z_of_byte, byte_of_Z.
  assert (Hr : 0 <= x mod 256 < 256) by (apply Z.mod_pos_bound; lia).
  destruct (Byte.of_N (Z.to_N (x mod 256))) as [b|] eqn:E.
  - apply Byte.to_of_N in E. rewrite E. lia.
  - apply Byte.of_N_None_iff in E. lia.
Qed.

Lemma byte_of_Z_of_byte (b : byte) : byte_of_Z (Z_of_byte b) = b.
Proof.
  unfold byte_of_Z. pose proof (Z_of_byte_range b) as Hr.
  rewrite Z.mod_small by lia. unfold Z_of_byte. rewrite N2Z.id.
  now rewrite Byte.of_to_N.
Qed.

Lemma uint32_range (x : Z) : 0 <= uint32 x < 2 ^ 32.
Proof. unfold uint32. apply Z.mod_pos_bound. lia. Qed.

Lemma uint32_small (x : Z) : 0 <= x < 2 ^ 32 -> uint32 x = x.
Proof. intros H. unfold uint32. now apply Z.mod_small. Qed.

Lemma uint32_idemp (x : Z) : uint32 (uint32 x) = uint32 x.
Proof. apply uint32_small, uint32_range. Qed.

Lemma length_PutUint32 (o : ByteOrder) (v : Z) : length (PutUint32 o v) = 4%nat.
Proof. now destruct o. Qed.

Lemma Uint32_PutUint32 (o : ByteOrder) (v : Z) : Uint32 o (PutUint32 o v) = uint32 v.
Proof.
  unfold uint32.
  destruct o; unfold Uint32, PutUint32; cbn [nth]; rewrite !Z_of_byte_of_Z;
    change (2 ^ 8) with 256; change (2 ^ 16) with 65536;
    change (2 ^ 24) with 16777216; change (2 ^ 32) with 4294967296;
    Z.div_mod_to_equations; lia.
Qed.

Lemma len_nonneg {A} (l : list A) : 0 <= len l.
Proof. unfold len. lia. Qed.

Lemma len_app {A} (l k : list A) : len (l ++ k) = len l + len k.
Proof. unfold len. rewrite length_app. lia. Qed.

Lemma len_list_byte_of_string (s : string) : len (list_byte_of_string s) = slen s.
Proof.
  unfold len, slen, list_byte_of_string. rewrite length_map. f_equal.
  induction s as [|a s IH]; simpl; congruence.
Qed.

Lemma slen_string_of_list_byte (l : list byte) : slen (string_of_list_byte l) = len l.
Proof.
  rewrite <- (list_byte_of_string_of_list_byte l) at 2.
  symmetry. apply len_list_byte_of_string.
Qed.

Lemma slice_app_l (a b : list byte) (lo n : Z) :
  lo = 0 -> n = len a -> slice (a ++ b) lo n = a.
Proof.
  intros -> ->. unfold slice, len. rewrite Z.sub_0_r, Nat2Z.id. simpl.
  apply take_app_length.
Qed.

Lemma slice_all (a : list byte) (lo n : Z) :
  lo = 0 -> n = len a -> slice a lo n = a.
Proof.
  intros -> ->. unfold slice, len. rewrite Z.sub_0_r, Nat2Z.id. simpl.
  apply take_ge. lia.
Qed.

Lemma len_PutUint32 (o : ByteOrder) (v : Z) : len (PutUint32 o v) = 4.
Proof. unfold len. now rewrite length_PutUint32. Qed.

Lemma len_encodeHeader (o : ByteOrder) (t k v : Z) : len (encodeHeader o t k v) = headerSize.
Proof. unfold encodeHeader. now rewrite !len_app, !len_PutUint32. Qed.

Lemma slice_app_r' (a b : list byte) (lo hi : Z) :
  len a <= lo -> slice (a ++ b) lo hi = slice b (lo - len a) (hi - len a).
Proof.
  intros H. unfold slice, len in *. rewrite drop_app_ge by lia.
  f_equal; [f_equal; lia | f_equal; lia].
Qed.

Lemma decodeHeader_encodeHeader (o : ByteOrder) (t k v : Z) :
  decodeHeader o (encodeHeader o t k v) = (uint32 t, uint32 k, uint32 v).
Proof.
  unfold decodeHeader, encodeHeader.
  rewrite slice_app_l by (rewrite ?len_PutUint32; lia).
  rewrite !(slice_app_r' (PutUint32 o t)) by (rewrite ?len_PutUint32; lia).
  rewrite (slice_app_r' (PutUint32 o k) _ (8 - _)) by (rewrite ?len_PutUint32; lia).
  rewrite slice_app_l by (rewrite ?len_PutUint32; lia).
  rewrite slice_all by (rewrite ?len_PutUint32; lia).
  now rewrite !Uint32_PutUint32.
Qed.

Lemma fst_encodeKV (o : ByteOrder) (t : Z) (k v : string) :
  fst (encodeKV o t k v) = headerSize + slen k + slen v.
Proof.
  unfold encodeKV. cbn [fst]. rewrite len_app, !len_list_byte_of_string. lia.
Qed.

Lemma len_encodeKV (o : ByteOrder) (t : Z) (k v : string) :
  len (snd (encodeKV o t k v)) = headerSize + slen k + slen v.
Proof.
  unfold encodeKV. cbn [snd].
  rewrite !len_app, len_encodeHeader, !len_list_byte_of_string. lia.
Qed.

Lemma decodeKV_encodeKV (o : ByteOrder) (t : Z) (k v : string) :
  slen k < 2 ^ 32 -> slen v < 2 ^ 32 ->
  decodeKV o (snd (encodeKV o t k v)) = Some (uint32 t, k, v).
Proof.
  intros Hk Hv.
  assert (0 <= slen k) by (unfold slen; lia).
  assert (0 <= slen v) by (unfold slen; lia).
  unfold decodeKV. rewrite len_encodeKV.
  destruct (Z.ltb_spec (headerSize + slen k + slen v) headerSize) as [Hlt|_];
    [lia|].
  unfold encodeKV at 1. cbn [snd].
  rewrite slice_app_l by (rewrite ?len_encodeHeader; reflexivity).
  rewrite decodeHeader_encodeHeader, !uint32_idemp.
  rewrite (uint32_small (slen k)), (uint32_small (slen v)) by lia.
  destruct (Z.ltb_spec (headerSize + slen k + slen v) (headerSize + slen k + slen v));
    [lia|].
  unfold encodeKV. cbn [snd].
  rewrite !(slice_app_r' (encodeHeader _ _ _ _)) by (rewrite len_encodeHeader; lia).
  rewrite len_encodeHeader.
  rewrite slice_app_l by (rewrite ?len_list_byte_of_string; lia).
  rewrite slice_app_r' by (rewrite ?len_list_byte_of_string; lia).
  rewrite slice_all by (rewrite ?len_list_byte_of_string; lia).
  now rewrite !string_of_list_byte_of_string.
Qed.

(** ** File operations *)

Lemma app_make_0 (l : list byte) (n : Z) : n <= 0 -> l ++ make n = l.
Proof.
  intros H. unfold make. replace (Z.to_nat n) with 0%nat by lia. apply app_nil_r.
Qed.

Lemma file_Read_exact (w : World) (name : string) (pre data rest : list byte) :
  contents w name = pre ++ data ++ rest -> len data <= maxRW ->
  file_Read w (Some (mkOsFile name (len pre) false)) (len data)
  = (data, None, Some (mkOsFile name (len pre + len data) false)).
Proof.
  intros Hc Hmax. unfold file_Read. cbn [fclosed fname fpos].
  destruct (Z.eqb_spec (len data) 0) as [H0|Hn].
  - assert (data = []) as -> by (destruct data; [easy|unfold len in H0; simpl in H0; lia]).
    now rewrite Z.add_0_r.
  - rewrite Hc, Z.min_l by assumption.
    assert (take (Z.to_nat (len data)) (drop (Z.to_nat (len pre)) (pre ++ data ++ rest))
            = data) as ->.
    { unfold len. now rewrite !Nat2Z.id, drop_app_length, take_app_length. }
    destruct (Z.eqb_spec (len data) 0); [lia|].
    now rewrite Z.sub_diag, app_make_0 by lia.
Qed.

Lemma file_Read_EOF (w : World) (name : string) (n p : Z) :
  n <> 0 -> len (contents w name) <= p ->
  file_Read w (Some (mkOsFile name p false)) n = (make n, Some EOF, Some (mkOsFile name p false)).
Proof.
  intros Hn Hp. unfold file_Read. cbn [fclosed fname fpos].
  destruct (Z.eqb_spec n 0); [lia|].
  rewrite drop_ge by (unfold len in Hp; lia). now rewrite take_nil.
Qed.

Lemma file_Write_ok (w : World) (name : string) (p : Z) (data : list byte) :
  len data <= free w ->
  file_Write w (Some (mkOsFile name p false)) data
  = (None, Some (mkOsFile name (len (contents w name) + len data) false),
     mkWorld (<[name := contents w name ++ data]> (disk w)) (free w - len data) (denied w)).
Proof.
  intros H. unfold file_Write. cbn [fclosed fname].
  destruct (Z.leb_spec (len data) (free w)); [reflexivity|lia].
Qed.

Lemma file_Read_exact' (w : World) (name : string) (pre data rest : list byte) (p n : Z) :
  contents w name = pre ++ data ++ rest -> p = len pre -> n = len data -> n <= maxRW ->
  file_Read w (Some (mkOsFile name p false)) n
  = (data, None, Some (mkOsFile name (p + n) false)).
Proof. intros Hc -> -> Hmax. now apply (file_Read_exact w name pre data rest). Qed.

(** ** Logs *)

Lemma slen_nonneg (s : string) : 0 <= slen s.
Proof. unfold slen. lia. Qed.

Lemma encodeLog_cons (o : ByteOrder) (ts : Z) (k v : string) (rs : list record) :
  encodeLog o ((ts, k, v) :: rs) = snd (encodeKV o ts k v) ++ encodeLog o rs.
Proof. reflexivity. Qed.

Lemma encodeLog_app (o : ByteOrder) (rs1 rs2 : list record) :
  encodeLog o (rs1 ++ rs2) = encodeLog o rs1 ++ encodeLog o rs2.
Proof. unfold encodeLog. now rewrite map_app, concat_app. Qed.

Lemma encodeLog_snoc (o : ByteOrder) (rs : list record) (ts : Z) (k v : string) :
  encodeLog o (rs ++ [(ts, k, v)]) = encodeLog o rs ++ snd (encodeKV o ts k v).
Proof. rewrite encodeLog_app. unfold encodeLog at 2. simpl. now rewrite app_nil_r. Qed.

Lemma replay_snoc (rs : list record) (r : record) (d : DiskStore) :
  replay (rs ++ [r]) d = upsert r (replay rs d).
Proof. unfold replay. now rewrite fold_left_app. Qed.

(** ** Recovery of a log *)

Section Recovery.
Variable o : ByteOrder.

Lemma loadLoop_log (rs : list record) :
  forall fuel w name pre d,
    contents w name = pre ++ encodeLog o rs ->
    Forall valid_record rs ->
    (length (encodeLog o rs) < fuel)%nat ->
    loadLoop o fuel w (Some (mkOsFile name (len pre) false)) d
    = Done (replay rs d).
Proof.
  induction rs as [|[[ts k] v] rs IH]; intros fuel w name pre d Hc Hv Hfuel.
  - destruct fuel as [|fuel]; [lia|]. cbn [loadLoop]. unfold loadStep.
    rewrite file_Read_EOF; [|easy|].
    + reflexivity.
    + rewrite Hc. unfold encodeLog. simpl. rewrite app_nil_r. lia.
  - destruct fuel as [|fuel]; [lia|].
    apply Forall_cons_1 in Hv as [(Hts & Hmax) Hv].
    pose proof (slen_nonneg k). pose proof (slen_nonneg v).
    unfold headerSize, maxRW in Hmax.
    assert (Hk : slen k < 2 ^ 32) by lia. assert (Hvl : slen v < 2 ^ 32) by lia.
    rewrite encodeLog_cons in Hc, Hfuel. unfold encodeKV in Hc. cbn [snd] in Hc.
    cbn [loadLoop]. unfold loadStep.
    rewrite (file_Read_exact' w name pre
               (encodeHeader o ts (uint32 (slen k)) (uint32 (slen v)))
               (list_byte_of_string k ++ list_byte_of_string v ++ encodeLog o rs)).
    2:{ rewrite Hc. now rewrite <- !app_assoc. }
    2:{ reflexivity. }
    2:{ now rewrite len_encodeHeader. }
    2:{ unfold headerSize, maxRW. lia. }
    rewrite decodeHeader_encodeHeader, !uint32_idemp.
    rewrite (uint32_small ts), (uint32_small (slen k)), (uint32_small (slen v)) by lia.
    rewrite (file_Read_exact' w name
               (pre ++ encodeHeader o ts (slen k) (slen v))
               (list_byte_of_string k)
               (list_byte_of_string v ++ encodeLog o rs)).
    2:{ rewrite Hc. rewrite (uint32_small (slen k)), (uint32_small (slen v)) by lia.
        now rewrite <- !app_assoc. }
    2:{ now rewrite len_app, len_encodeHeader. }
    2:{ now rewrite len_list_byte_of_string. }
    2:{ unfold maxRW. lia. }
    rewrite (file_Read_exact' w name
               (pre ++ encodeHeader o ts (slen k) (slen v) ++ list_byte_of_string k)
               (list_byte_of_string v)
               (encodeLog o rs)).
    2:{ rewrite Hc. rewrite (uint32_small (slen k)), (uint32_small (slen v)) by lia.
        now rewrite <- !app_assoc. }
    2:{ rewrite !len_app, len_encodeHeader, len_list_byte_of_string. lia. }
    2:{ now rewrite len_list_byte_of_string. }
    2:{ unfold maxRW. lia. }
    rewrite string_of_list_byte_of_string.
    replace (len pre + headerSize + slen k + slen v)
      with (len (pre ++ snd (encodeKV o ts k v)))
      by (rewrite len_app, len_encodeKV; lia).
    rewrite (IH fuel w name (pre ++ snd (encodeKV o ts k v))); [reflexivity| |assumption|].
    + rewrite Hc. unfold encodeKV. cbn [snd].
      rewrite (uint32_small (slen k)), (uint32_small (slen v)) by lia.
      now rewrite <- !app_assoc.
    + rewrite length_app in Hfuel.
      pose proof (len_encodeKV o ts k v) as Hl. unfold len, headerSize in Hl. lia.
Qed.
End Recovery.

(** ** The operations on a store in good order *)

Section Operations.
Variable o : ByteOrder.

Lemma NewDiskStore_absent (path : string) (w : World) :
  disk w !! path = None -> path ∉ denied w ->
  NewDiskStore o path w
  = (Done (mkDiskStore (Some (mkOsFile path 0 false)) 0 ∅, None),
     mkWorld (<[path := []]> (disk w)) (free w) (denied w)).
Proof.
  intros Hd Hperm. unfold NewDiskStore, isFileExists, os_Stat, os_OpenFile.
  rewrite Hd. now destruct (decide (path ∈ denied w)).
Qed.

Lemma NewDiskStore_log (path : string) (w : World) (rs : list record) :
  disk w !! path = Some (encodeLog o rs) -> Forall valid_record rs ->
  path ∉ denied w ->
  NewDiskStore o path w
  = (Done (mkDiskStore (Some (mkOsFile path 0 false))
                       (writePos (replay rs newStore)) (KeyDir (replay rs newStore)),
           None), w).
Proof.
  intros Hd Hv Hperm.
  unfold NewDiskStore, isFileExists, os_Stat, os_OpenFile, LoadKeys, os_Open.
  rewrite Hd. destruct (decide (path ∈ denied w)) as [|_]; [contradiction|].
  assert (Hc : contents w path = [] ++ encodeLog o rs)
    by (unfold contents; now rewrite Hd).
  rewrite Hc at 1. cbn [app].
  change 0 with (len (@nil byte)) at 1.
  rewrite (loadLoop_log o rs _ w path [] _ Hc Hv) by lia.
  reflexivity.
Qed.

Lemma Set_ok (now : Z) (key value : string) (d : DiskStore) (w : World)
    (path : string) (p : Z) :
  file d = Some (mkOsFile path p false) ->
  headerSize + slen key + slen value <= free w ->
  Set_ o now key value d w
  = (Done tt,
     mkDiskStore
       (Some (mkOsFile path (len (contents w path) + (headerSize + slen key + slen value))
                       false))
       (writePos (upsert (uint32 now, key, value) d))
       (KeyDir (upsert (uint32 now, key, value) d)),
     mkWorld (<[path := contents w path ++ snd (encodeKV o (uint32 now) key value)]> (disk w))
             (free w - (headerSize + slen key + slen value)) (denied w)).
Proof.
  intros Hf Hfree. unfold Set_.
  pose proof (len_encodeKV o (uint32 now) key value) as Hlen.
  pose proof (fst_encodeKV o (uint32 now) key value) as Hfst.
  destruct (encodeKV o (uint32 now) key value) as [total data].
  cbn [fst snd] in *. subst total.
  rewrite Hf, file_Write_ok by lia. rewrite Hlen. reflexivity.
Qed.

Lemma Get_hit (key : string) (d : DiskStore) (w : World) (path : string) (p : Z)
    (e : KeyEntry) (pre post : list byte) (ts : Z) (k v : string) :
  file d = Some (mkOsFile path p false) ->
  KeyDir d !! key = Some e ->
  contents w path = pre ++ snd (encodeKV o ts k v) ++ post ->
  writeOffSet e = len pre ->
  totalSize e = headerSize + slen k + slen v ->
  headerSize + slen k + slen v <= maxRW ->
  Get o key d w
  = (Done v,
     mkDiskStore (Some (mkOsFile path (len pre + (headerSize + slen k + slen v)) false))
                 (writePos d) (KeyDir d)).
Proof.
  intros Hf He Hc Hoff Htot Hmax. unfold Get. rewrite He, Hf, Hoff, Htot.
  pose proof (slen_nonneg k). pose proof (slen_nonneg v).
  assert (Hk : slen k < 2 ^ 32) by (unfold headerSize, maxRW in Hmax; lia).
  assert (Hv : slen v < 2 ^ 32) by (unfold headerSize, maxRW in Hmax; lia).
  unfold file_Seek. cbn [fclosed fname].
  destruct (Z.ltb_spec (len pre) 0) as [Hneg|_]; [pose proof (len_nonneg pre); lia|].
  rewrite (file_Read_exact' w path pre (snd (encodeKV o ts k v)) post)
    by (try assumption; try reflexivity; now rewrite len_encodeKV).
  cbn [writePos KeyDir]. now rewrite decodeKV_encodeKV.
Qed.

Lemma Get_miss (key : string) (d : DiskStore) (w : World) :
  KeyDir d !! key = None -> Get o key d w = (Done EmptyString, d).
Proof. intros H. unfold Get. now rewrite H. Qed.

End Operations.

(** ** A read longer than one [Read] transfers *)

Section Capped.
Variable o : ByteOrder.

Lemma maxRW_eq : maxRW = 2 ^ 30.
Proof. reflexivity. Qed.

Lemma len_capped (data : list byte) : len (capped data) = len data.
Proof.
  pose proof maxRW_eq. pose proof (len_nonneg data).
  unfold capped, len, make in *. rewrite length_app, length_take, length_replicate. lia.
Qed.

Lemma capped_small (data : list byte) : len data <= maxRW -> capped data = data.
Proof.
  intros H. unfold capped. rewrite take_ge by (unfold len in *; lia).
  apply app_make_0. lia.
Qed.

(** The first bytes of a buffer, fewer than [maxRW], are those of the file. *)
Lemma capped_app (a b : list byte) :
  len a <= maxRW -> capped (a ++ b) = a ++ drop (length a) (capped (a ++ b)).
Proof.
  intros H. rewrite <- (take_drop (length a) (capped (a ++ b))) at 1. f_equal.
  unfold capped, len in *.
  rewrite take_app_le by (rewrite length_take, length_app; lia).
  rewrite take_take, Nat.min_l by (rewrite length_app; lia). now rewrite take_app_length.
Qed.

(** [Read] into a buffer of the size of [data], where the file holds
    [data]. *)
Lemma file_Read_capped_data (w : World) (name : string) (pre data rest : list byte) (p n : Z) :
  contents w name = pre ++ data ++ rest -> p = len pre -> n = len data ->
  file_Read w (Some (mkOsFile name p false)) n
  = (capped data, None, Some (mkOsFile name (p + Z.min n maxRW) false)).
Proof.
  intros Hc -> ->. pose proof maxRW_eq as Hmax. pose proof (len_nonneg data) as Hnn.
  unfold file_Read. cbn [fclosed fname fpos].
  destruct (Z.eqb_spec (len data) 0) as [H0|Hn].
  - assert (data = []) as -> by (destruct data; [easy|unfold len in H0; cbn in H0; lia]).
    unfold capped. rewrite take_nil. cbn [app]. change (len (@nil byte)) with 0.
    rewrite Z.min_l by lia. rewrite Z.add_0_r. unfold make.
    now replace (Z.to_nat (0 - maxRW)) with 0%nat by lia.
  - cbv zeta. rewrite Hc.
    assert (Hgot : take (Z.to_nat (Z.min (len data) maxRW))
                        (drop (Z.to_nat (len pre)) (pre ++ data ++ rest))
                   = take (Z.to_nat (Z.min (len data) maxRW)) data).
    { unfold len at 2. rewrite Nat2Z.id, drop_app_length.
      apply take_app_le. unfold len. lia. }
    rewrite Hgot.
    assert (Hlen : len (take (Z.to_nat (Z.min (len data) maxRW)) data)
                   = Z.min (len data) maxRW).
    { unfold len in *. rewrite length_take. lia. }
    rewrite Hlen. destruct (Z.eqb_spec (Z.min (len data) maxRW) 0); [lia|].
    assert (make (len data - Z.min (len data) maxRW) = make (len data - maxRW)) as ->
      by (unfold make; f_equal; lia).
    unfold capped. reflexivity.
Qed.

(** A buffer whose first part is all that one [Read] transfers. *)
Lemma capped_at (a b : list byte) : len a = maxRW -> capped (a ++ b) = a ++ make (len b).
Proof.
  intros Ha. pose proof (len_nonneg b) as Hb. unfold capped.
  rewrite len_app, Ha, Z.min_r, <- Ha by lia.
  unfold len at 1. rewrite Nat2Z.id, take_app_length. f_equal.
  unfold make. f_equal. lia.
Qed.

(** What [decodeKV] finds in a buffer that starts with a header. *)
Lemma decodeKV_parts (t ks vs : Z) (body : list byte) :
  0 <= ks < 2 ^ 32 -> 0 <= vs < 2 ^ 32 -> len body = ks + vs ->
  decodeKV o (encodeHeader o t ks vs ++ body)
  = Some (uint32 t, string_of_list_byte (take (Z.to_nat ks) body),
          string_of_list_byte (drop (Z.to_nat ks) body)).
Proof.
  intros Hk Hv Hlen. unfold decodeKV. rewrite len_app, len_encodeHeader, Hlen.
  destruct (Z.ltb_spec (headerSize + (ks + vs)) headerSize); [lia|].
  rewrite slice_app_l by (rewrite ?len_encodeHeader; reflexivity).
  rewrite decodeHeader_encodeHeader, (uint32_small ks), (uint32_small vs) by assumption.
  destruct (Z.ltb_spec (headerSize + (ks + vs)) (headerSize + ks + vs)); [lia|].
  rewrite !(slice_app_r' (encodeHeader _ _ _ _)) by (rewrite len_encodeHeader; lia).
  rewrite len_encodeHeader. unfold slice.
  replace (Z.to_nat (headerSize + ks - headerSize - (headerSize - headerSize)))
    with (Z.to_nat ks) by lia.
  replace (Z.to_nat (headerSize - headerSize)) with 0%nat by lia.
  replace (Z.to_nat (headerSize + ks - headerSize)) with (Z.to_nat ks) by lia.
  replace (Z.to_nat (headerSize + ks + vs - headerSize - (headerSize + ks - headerSize)))
    with (Z.to_nat vs) by lia.
  rewrite drop_0. do 3 f_equal. apply take_ge.
  rewrite length_drop. unfold len in Hlen. lia.
Qed.

(** [Get] of a key whose entry points at a record of the file, whatever the
    size of the record: [decodeKV] gets the record as one [Read] returns
    it, with zeroes after the first [maxRW] bytes. *)
Lemma Get_record (key : string) (d : DiskStore) (w : World) (path : string) (p : Z)
    (e : KeyEntry) (pre post : list byte) (ts : Z) (k v : string) :
  file d = Some (mkOsFile path p false) ->
  KeyDir d !! key = Some e ->
  contents w path = pre ++ snd (encodeKV o ts k v) ++ post ->
  writeOffSet e = len pre ->
  totalSize e = headerSize + slen k + slen v ->
  slen k < 2 ^ 32 -> slen v < 2 ^ 32 ->
  fst (Get o key d w)
  = Done (string_of_list_byte
            (drop (Z.to_nat (headerSize + slen k)) (capped (snd (encodeKV o ts k v))))).
Proof.
  intros Hf He Hc Hoff Htot Hk Hv. pose proof maxRW_eq as Hmax.
  pose proof (slen_nonneg k). pose proof (slen_nonneg v).
  unfold Get. rewrite He, Hf, Hoff, Htot.
  unfold file_Seek. cbn [fclosed fname].
  destruct (Z.ltb_spec (len pre) 0) as [Hneg|_]; [pose proof (len_nonneg pre); lia|].
  rewrite (file_Read_capped_data w path pre (snd (encodeKV o ts k v)) post)
    by (try assumption; try reflexivity; now rewrite len_encodeKV).
  cbn [writePos KeyDir].
  set (R := snd (encodeKV o ts k v)).
  assert (HR : capped R = encodeHeader o ts (slen k) (slen v)
                          ++ drop (Z.to_nat headerSize) (capped R)).
  { unfold R, encodeKV. cbn [snd].
    rewrite (uint32_small (slen k)), (uint32_small (slen v)) by lia.
    pose proof (len_encodeHeader o ts (slen k) (slen v)) as Hh.
    replace (Z.to_nat headerSize) with (length (encodeHeader o ts (slen k) (slen v)))
      by (unfold len in Hh; lia).
    apply capped_app. rewrite Hh. unfold headerSize. lia. }
  rewrite HR at 1.
  rewrite decodeKV_parts; [| lia | lia |].
  - cbn [fst]. rewrite drop_drop. do 3 f_equal. unfold headerSize. lia.
  - pose proof (len_capped R) as HL. unfold R at 2 in HL. rewrite len_encodeKV in HL.
    unfold len in *. rewrite length_drop. unfold headerSize in *. lia.
Qed.

(** A record of the empty string is read back as the empty string, whatever
    the size of its key. *)
Lemma Get_empty_value (key : string) (d : DiskStore) (w : World) (path : string) (p : Z)
    (e : KeyEntry) (pre post : list byte) (ts : Z) (k : string) :
  file d = Some (mkOsFile path p false) ->
  KeyDir d !! key = Some e ->
  contents w path = pre ++ snd (encodeKV o ts k EmptyString) ++ post ->
  writeOffSet e = len pre ->
  totalSize e = headerSize + slen k ->
  slen k < 2 ^ 32 ->
  fst (Get o key d w) = Done EmptyString.
Proof.
  intros Hf He Hc Hoff Htot Hk.
  rewrite (Get_record key d w path p e pre post ts k EmptyString Hf He Hc Hoff);
    [|now rewrite Htot, Z.add_0_r|assumption|reflexivity].
  rewrite drop_ge; [reflexivity|].
  pose proof (len_capped (snd (encodeKV o ts k EmptyString))) as HL.
  rewrite len_encodeKV in HL. change (slen EmptyString) with 0 in HL.
  pose proof (slen_nonneg k). unfold len, headerSize in *. lia.
Qed.

(** [Set] on a store whose [writePos] is past the end of the file, and
    [Get] of the key. *)
Lemma Set_then_Get_past_end (now : Z) (key value : string) (d : DiskStore) (w : World)
    (path : string) (p : Z) :
  file d = Some (mkOsFile path p false) ->
  headerSize + slen key + slen value <= free w ->
  headerSize + slen key + slen value < 2 ^ 32 ->
  len (contents w path) + (headerSize + slen key + slen value) <= writePos d ->
  exists d1 w1 d2,
    Set_ o now key value d w = (Done tt, d1, w1) /\
    file d1 = Some (mkOsFile path (len (contents w path) + (headerSize + slen key + slen value))
                             false) /\
    writePos d1 = uint32 (writePos d + (headerSize + slen key + slen value)) /\
    KeyDir d1 !! key
    = Some (mkKeyEntry (uint32 now) (writePos d) (headerSize + slen key + slen value)) /\
    len (contents w1 path) = len (contents w path) + (headerSize + slen key + slen value) /\
    free w1 = free w - (headerSize + slen key + slen value) /\
    Get o key d1 w1 = (Exit 1, d2).
Proof.
  intros Hf Hfree Hlt Hend.
  pose proof (slen_nonneg key). pose proof (slen_nonneg value).
  pose proof (len_nonneg (contents w path)) as Hc0.
  assert (Hu : uint32 (headerSize + slen key + slen value) = headerSize + slen key + slen value)
    by (apply uint32_small; unfold headerSize in *; lia).
  rewrite (Set_ok o now key value d w path p Hf Hfree).
  eexists _, _, _. split; [reflexivity|]. cbn [file writePos KeyDir free].
  unfold upsert. cbn [file writePos KeyDir recordSize]. rewrite Hu.
  split; [reflexivity|]. split; [reflexivity|].
  split; [apply lookup_insert_eq|].
  assert (Hc1 : len (contents
                       (mkWorld (<[path := contents w path
                                           ++ snd (encodeKV o (uint32 now) key value)]>
                                   (disk w))
                                (free w - (headerSize + slen key + slen value)) (denied w))
                       path)
                = len (contents w path) + (headerSize + slen key + slen value)).
  { unfold contents at 1. cbn [disk]. rewrite lookup_insert_eq. cbn [default from_option id].
    now rewrite len_app, len_encodeKV. }
  split; [exact Hc1|]. split; [reflexivity|].
  unfold Get. cbn [KeyDir file writePos]. rewrite lookup_insert_eq.
  cbn [writeOffSet totalSize]. unfold file_Seek. cbn [fclosed fname].
  destruct (Z.ltb_spec (writePos d) 0); [unfold headerSize in *; lia|].
  rewrite file_Read_EOF; [reflexivity|unfold headerSize; lia|].
  rewrite Hc1. unfold headerSize in *. lia.
Qed.

End Capped.

(** ** The index of a log *)

Lemma uint32_add_l (a b : Z) : uint32 (uint32 a + b) = uint32 (a + b).
Proof. unfold uint32. now rewrite Zplus_mod_idemp_l. Qed.

Lemma uint32_add_r (a b : Z) : uint32 (a + uint32 b) = uint32 (a + b).
Proof. unfold uint32. now rewrite Zplus_mod_idemp_r. Qed.

Lemma logSize_nonneg (rs : list record) : 0 <= logSize rs.
Proof.
  induction rs as [|[[ts k] v] rs IH]; simpl; [lia|].
  pose proof (slen_nonneg k). pose proof (slen_nonneg v). unfold headerSize. lia.
Qed.

Lemma logSize_app (rs1 rs2 : list record) : logSize (rs1 ++ rs2) = logSize rs1 + logSize rs2.
Proof. induction rs1 as [|r rs1 IH]; simpl; [lia|]. unfold logSize in *. lia. Qed.

Lemma len_encodeLog (o : ByteOrder) (rs : list record) : len (encodeLog o rs) = logSize rs.
Proof.
  induction rs as [|[[ts k] v] rs IH]; [reflexivity|].
  rewrite encodeLog_cons, len_app, len_encodeKV, IH. reflexivity.
Qed.

Lemma recordSize_pos (r : record) : headerSize <= recordSize r.
Proof.
  destruct r as [[ts k] v]. simpl.
  pose proof (slen_nonneg k). pose proof (slen_nonneg v). lia.
Qed.

Lemma writePos_upsert (r : record) (d : DiskStore) :
  writePos (upsert r d) = uint32 (writePos d + recordSize r).
Proof. destruct r as [[ts k] v]. unfold upsert. cbn [writePos]. apply uint32_add_r. Qed.

Lemma writePos_replay_from (rs : list record) :
  forall d, 0 <= writePos d < 2 ^ 32 ->
            writePos (replay rs d) = uint32 (writePos d + logSize rs).
Proof.
  induction rs as [|r rs IH] using rev_ind; intros d Hd.
  - simpl. now rewrite Z.add_0_r, uint32_small.
  - rewrite replay_snoc, writePos_upsert, IH, logSize_app by assumption.
    change (logSize [r]) with (recordSize r + 0).
    rewrite !uint32_add_l. f_equal. lia.
Qed.

Lemma writePos_replay (rs : list record) :
  writePos (replay rs newStore) = uint32 (logSize rs).
Proof. rewrite writePos_replay_from; [reflexivity|simpl; lia]. Qed.

Lemma index_bounds_replay (rs : list record) :
  logSize rs < 2 ^ 32 -> index_bounds (replay rs newStore).
Proof.
  induction rs as [|r rs IH] using rev_ind; intros Hsz key e.
  - simpl. now rewrite lookup_empty.
  - rewrite logSize_app in Hsz. change (logSize [r]) with (recordSize r + 0) in Hsz.
    pose proof (logSize_nonneg rs) as Hnn. pose proof (recordSize_pos r) as Hpos.
    unfold headerSize in Hpos.
    assert (Hlt : logSize rs < 2 ^ 32) by lia.
    specialize (IH Hlt key e).
    assert (Hwp : writePos (replay rs newStore) = logSize rs)
      by (rewrite writePos_replay; apply uint32_small; lia).
    rewrite replay_snoc, writePos_upsert, Hwp.
    rewrite (uint32_small (logSize rs + recordSize r)) by lia.
    destruct r as [[ts k] v]. unfold upsert. cbn [KeyDir]. rewrite Hwp.
    destruct (decide (k = key)) as [->|Hne].
    + rewrite lookup_insert_eq. intros [= <-]. cbn [writeOffSet totalSize].
      cbn [recordSize] in *. rewrite uint32_small by lia. lia.
    + rewrite lookup_insert_ne by assumption. intros He.
      specialize (IH He). lia.
Qed.

(** ** Stores that track their log *)

Section Tracking.
Variable o : ByteOrder.

Lemma contents_insert (w : World) (path : string) (c : list byte) (fr : Z) (dn : gset string) :
  contents (mkWorld (<[path := c]> (disk w)) fr dn) path = c.
Proof. unfold contents. cbn [disk]. now rewrite lookup_insert_eq. Qed.

Lemma tracks_contents path rs d w :
  tracks o path rs d w -> contents w path = encodeLog o rs.
Proof. intros (_ & _ & Hd & _). unfold contents. now rewrite Hd. Qed.

Lemma tracks_open_absent (path : string) (w : World) :
  disk w !! path = None -> path ∉ denied w ->
  exists d w', NewDiskStore o path w = (Done (d, None), w') /\
               tracks o path [] d w' /\ free w' = free w.
Proof.
  intros Hd Hperm. eexists _, _. split; [exact (NewDiskStore_absent o path w Hd Hperm)|].
  split; [|reflexivity]. repeat split; cbn; try assumption.
  - now eexists.
  - now rewrite lookup_insert_eq.
Qed.

Lemma tracks_open_log (path : string) (w : World) (rs : list record) :
  disk w !! path = Some (encodeLog o rs) -> Forall valid_record rs ->
  path ∉ denied w ->
  exists d, NewDiskStore o path w = (Done (d, None), w) /\ tracks o path rs d w.
Proof.
  intros Hd Hv Hperm. eexists. split; [exact (NewDiskStore_log o path w rs Hd Hv Hperm)|].
  repeat split; cbn; try assumption. now eexists.
Qed.

Lemma tracks_Set_ok (path : string) (rs : list record) (d : DiskStore) (w : World)
    (now : Z) (key value : string) :
  tracks o path rs d w ->
  headerSize + slen key + slen value <= free w ->
  exists d' w',
    Set_ o now key value d w = (Done tt, d', w') /\
    tracks o path (rs ++ [(uint32 now, key, value)]) d' w' /\
    free w' = free w - (headerSize + slen key + slen value) /\
    contents w' path = contents w path ++ snd (encodeKV o (uint32 now) key value).
Proof.
  intros Ht Hfree. pose proof (tracks_contents _ _ _ _ Ht) as Hc.
  destruct Ht as ([p Hf] & Hperm & Hd & Hwp & Hkd).
  eexists _, _. split; [exact (Set_ok o now key value d w path p Hf Hfree)|].
  split; [|split; [reflexivity|now rewrite contents_insert]].
  repeat split; cbn [file denied disk writePos KeyDir].
  - now eexists.
  - assumption.
  - now rewrite lookup_insert_eq, Hc, encodeLog_snoc.
  - rewrite replay_snoc. unfold upsert. cbn [writePos]. now rewrite Hwp.
  - rewrite replay_snoc. unfold upsert. cbn [KeyDir]. now rewrite Hwp, Hkd.
Qed.

(** A write that fails makes [Set] exit before it touches the index. *)
Lemma Set_write_error (now : Z) (key value : string) (d : DiskStore) (w : World)
    (err : error) (f' : option OsFile) (w' : World) :
  file_Write w (file d) (snd (encodeKV o (uint32 now) key value)) = (Some err, f', w') ->
  Set_ o now key value d w = (Exit 1, mkDiskStore f' (writePos d) (KeyDir d), w').
Proof.
  intros Hw. unfold Set_.
  destruct (encodeKV o (uint32 now) key value) as [total data]. cbn [snd] in Hw.
  now rewrite Hw.
Qed.

Lemma file_Write_full (w : World) (name : string) (p : Z) (data : list byte) :
  free w < len data ->
  exists f' w', file_Write w (Some (mkOsFile name p false)) data = (Some ErrNoSpace, f', w').
Proof.
  intros H. unfold file_Write. cbn [fclosed fname].
  destruct (Z.leb_spec (len data) (free w)); [lia|]. now eexists _, _.
Qed.

Lemma tracks_Set (path : string) (rs : list record) (d : DiskStore) (w : World)
    (now : Z) (key value : string) (d' : DiskStore) (w' : World) :
  tracks o path rs d w ->
  Set_ o now key value d w = (Done tt, d', w') ->
  tracks o path (rs ++ [(uint32 now, key, value)]) d' w' /\
  contents w' path = contents w path ++ snd (encodeKV o (uint32 now) key value).
Proof.
  intros Ht HS.
  destruct (Z.leb_spec (headerSize + slen key + slen value) (free w)) as [Hle|Hgt].
  - destruct (tracks_Set_ok path rs d w now key value Ht Hle)
      as (d1 & w1 & HS1 & Ht1 & _ & Hc1).
    rewrite HS1 in HS. now inversion HS; subst.
  - destruct Ht as ([p Hf] & _).
    destruct (file_Write_full w path p (snd (encodeKV o (uint32 now) key value)))
      as (f' & w1 & Hw); [now rewrite len_encodeKV|].
    rewrite <- Hf in Hw. rewrite (Set_write_error _ _ _ _ _ _ _ _ Hw) in HS.
    discriminate.
Qed.

End Tracking.

(** ** What [Get] leaves as it is *)

Section Frames.
Variable o : ByteOrder.

Lemma same_file_refl f : same_file f f.
Proof. now destruct f. Qed.

Lemma same_file_trans f g h : same_file f g -> same_file g h -> same_file f h.
Proof.
  destruct f, g, h; simpl; try tauto. intros [-> ->] [-> ->]. split; reflexivity.
Qed.

Lemma file_Seek_same f off : same_file f (snd (file_Seek f off)).
Proof.
  destruct f as [h|]; [|exact I]. unfold file_Seek.
  destruct (fclosed h) eqn:Hc; [now simpl|].
  destruct (off <? 0); simpl; [tauto|]. now rewrite Hc.
Qed.

Lemma file_Read_same w f n : same_file f (snd (file_Read w f n)).
Proof.
  destruct f as [h|]; [|exact I]. unfold file_Read.
  destruct (fclosed h) eqn:Hc; [now simpl|].
  destruct (n =? 0); [now simpl|].
  match goal with |- context [len ?g =? 0] => destruct (len g =? 0) end; simpl;
    [tauto|]. now rewrite Hc.
Qed.

Lemma file_Write_same w f f' data :
  same_file f f' ->
  fst (fst (file_Write w f' data)) = fst (fst (file_Write w f data)) /\
  snd (file_Write w f' data) = snd (file_Write w f data) /\
  same_file (snd (fst (file_Write w f data))) (snd (fst (file_Write w f' data))).
Proof.
  destruct f as [[n p c]|], f' as [[n' p' c']|]; cbn [same_file]; try tauto.
  cbn [fname fclosed]. intros [<- <-]. unfold file_Write. cbn [fname fclosed].
  destruct c; [now cbn|].
  destruct (len data <=? free w); now cbn.
Qed.

Lemma Get_frame (key : string) (d : DiskStore) (w : World) :
  same_store d (snd (Get o key d w)).
Proof.
  unfold same_store, Get.
  destruct (KeyDir d !! key) as [e|]; [|now auto using same_file_refl].
  pose proof (file_Seek_same (file d) (writeOffSet e)) as H1.
  destruct (file_Seek (file d) (writeOffSet e)) as [err f1]. cbn [snd] in H1.
  destruct err; [now auto|].
  pose proof (file_Read_same w f1 (totalSize e)) as H2.
  destruct (file_Read w f1 (totalSize e)) as [[buffer err] f2]. cbn [snd] in H2.
  assert (same_file (file d) f2) by eauto using same_file_trans.
  destruct err; [now auto|].
  destruct (decodeKV o buffer) as [[[? ?] ?]|]; now auto.
Qed.

Lemma Set_same (now : Z) (key value : string) (d d' : DiskStore) (w : World) :
  same_store d d' ->
  fst (fst (Set_ o now key value d' w)) = fst (fst (Set_ o now key value d w)) /\
  snd (Set_ o now key value d' w) = snd (Set_ o now key value d w) /\
  same_store (snd (fst (Set_ o now key value d w))) (snd (fst (Set_ o now key value d' w))).
Proof.
  intros (Hf & Hw & Hk). unfold Set_.
  destruct (encodeKV o (uint32 now) key value) as [total data].
  destruct (file_Write_same w _ _ data Hf) as (H1 & H2 & H3).
  destruct (file_Write w (file d) data) as [[err f1] w1].
  destruct (file_Write w (file d') data) as [[err' f1'] w1'].
  cbn [fst snd] in *. subst err' w1'. rewrite <- Hw, <- Hk.
  destruct err; cbn; unfold same_store; cbn; auto.
Qed.

Lemma same_file_open f path p :
  same_file (Some (mkOsFile path p false)) f -> exists p', f = Some (mkOsFile path p' false).
Proof.
  destruct f as [[n q c]|]; simpl; [|tauto]. intros [-> <-]. now eexists.
Qed.

Lemma tracks_Get path rs d w key :
  tracks o path rs d w -> tracks o path rs (snd (Get o key d w)) w.
Proof.
  intros ([p Hf] & Hperm & Hd & Hwp & Hkd).
  destruct (Get_frame key d w) as (Hs & Hw' & Hk'). rewrite Hf in Hs.
  repeat split; try assumption.
  - now apply same_file_open in Hs.
  - now rewrite <- Hw'.
  - now rewrite <- Hk'.
Qed.

Lemma NewDiskStore_denied path w r w' :
  path ∈ denied w -> NewDiskStore o path w = (Done r, w') -> snd r <> None.
Proof.
  intros Hden. unfold NewDiskStore, isFileExists, os_Stat, os_OpenFile, LoadKeys, os_Open.
  destruct (decide (path ∈ denied w)) as [_|]; [|contradiction].
  destruct (disk w !! path); [discriminate|]. now intros [= <- <-].
Qed.

Lemma valid_fits (r : record) : valid_record r -> fits_header r.
Proof.
  destruct r as [[ts k] v]. unfold valid_record, fits_header, headerSize, maxRW.
  pose proof (slen_nonneg k). pose proof (slen_nonneg v). lia.
Qed.

Lemma reachable_tracks path d w :
  reachable o path d w ->
  exists rs, tracks o path rs d w /\ (logSize rs < 2 ^ 32 -> Forall fits_header rs).
Proof.
  induction 1 as [w d w' Hlog Hopen|d w now key value d' w' Hr IH HS|d w key value d' Hr IH HG].
  - destruct (decide (path ∈ denied w)) as [Hden|Hperm].
    { now destruct (NewDiskStore_denied path w _ _ Hden Hopen). }
    destruct Hlog as [Habs|(rs & Hd & Hv)].
    + destruct (tracks_open_absent o path w Habs Hperm) as (d1 & w1 & Hopen1 & Ht & _).
      rewrite Hopen1 in Hopen. inversion Hopen; subst. exists []. now split.
    + destruct (tracks_open_log o path w rs Hd Hv Hperm) as (d1 & Hopen1 & Ht).
      rewrite Hopen1 in Hopen. inversion Hopen; subst. exists rs. split; [assumption|].
      intros _. eapply Forall_impl; [exact Hv|apply valid_fits].
  - destruct IH as (rs & Ht & Hv).
    exists (rs ++ [(uint32 now, key, value)]).
    split; [now apply (tracks_Set o path rs d w now key value d' w' Ht HS)|].
    rewrite logSize_app. change (logSize [(uint32 now, key, value)])
      with (headerSize + slen key + slen value + 0).
    intros Hsz. pose proof (logSize_nonneg rs). pose proof (slen_nonneg key).
    pose proof (slen_nonneg value). unfold headerSize in Hsz.
    apply Forall_app. split; [apply Hv; lia|].
    constructor; [|constructor]. pose proof (uint32_range now).
    unfold fits_header. lia.
  - destruct IH as (rs & Ht & Hv). exists rs. split; [|assumption].
    pose proof (tracks_Get path rs d w key Ht) as Ht'. now rewrite HG in Ht'.
Qed.

End Frames.

Lemma slen_zeros (n : Z) : 0 <= n -> slen (zeros n) = n.
Proof.
  intros H. unfold zeros, make. rewrite slen_string_of_list_byte.
  unfold len. rewrite length_replicate. lia.
Qed.

(** ** Reachable stores *)

Section Invariants.
Variable o : ByteOrder.

Lemma reachable_facts path d w :
  reachable o path d w -> len (contents w path) < 2 ^ 32 ->
  exists rs p,
    tracks o path rs d w /\ Forall fits_header rs /\
    file d = Some (mkOsFile path p false) /\
    contents w path = encodeLog o rs /\
    writePos d = len (contents w path) /\
    logSize rs = len (contents w path).
Proof.
  intros Hr Hlt. destruct (reachable_tracks o path d w Hr) as (rs & Ht & Hv).
  pose proof (tracks_contents o path rs d w Ht) as Hc.
  pose proof Ht as ([p Hf] & _ & _ & Hwp & _).
  assert (Hsz : logSize rs = len (contents w path)) by now rewrite Hc, len_encodeLog.
  exists rs, p. split; [exact Ht|]. split; [apply Hv; lia|].
  split; [exact Hf|]. split; [exact Hc|]. split; [|exact Hsz].
  rewrite Hwp, writePos_replay, Hsz. apply uint32_small.
  pose proof (len_nonneg (contents w path)). lia.
Qed.

(** A log determines its records. *)
Lemma encodeKV_app_inj (r r' : record) (l l' : list byte) :
  fits_header r -> fits_header r' ->
  encodeLog o [r] ++ l = encodeLog o [r'] ++ l' -> r = r' /\ l = l'.
Proof.
  destruct r as [[ts k] v], r' as [[ts' k'] v']. intros (Hts & Hk & Hv) (Hts' & Hk' & Hv').
  pose proof (slen_nonneg k). pose proof (slen_nonneg v).
  pose proof (slen_nonneg k'). pose proof (slen_nonneg v').
  rewrite !encodeLog_cons. unfold encodeLog, encodeKV. cbn [map concat snd].
  rewrite !app_nil_r, <- !app_assoc. intros Heq.
  apply app_inj_1 in Heq as [Hh Heq].
  2:{ pose proof (len_encodeHeader o ts (uint32 (slen k)) (uint32 (slen v))) as Hx1.
      pose proof (len_encodeHeader o ts' (uint32 (slen k')) (uint32 (slen v'))) as Hx2.
      unfold len in *. lia. }
  apply (f_equal (decodeHeader o)) in Hh.
  rewrite !decodeHeader_encodeHeader, !uint32_idemp in Hh.
  rewrite (uint32_small ts), (uint32_small ts'), (uint32_small (slen k)),
    (uint32_small (slen k')), (uint32_small (slen v)), (uint32_small (slen v')) in Hh by lia.
  injection Hh as -> Hlk Hlv.
  apply app_inj_1 in Heq as [Hkk Heq].
  2:{ pose proof (len_list_byte_of_string k) as Hx1.
      pose proof (len_list_byte_of_string k') as Hx2. unfold len in *. lia. }
  apply app_inj_1 in Heq as [Hvv Heq].
  2:{ pose proof (len_list_byte_of_string v) as Hx1.
      pose proof (len_list_byte_of_string v') as Hx2. unfold len in *. lia. }
  apply (f_equal string_of_list_byte) in Hkk, Hvv.
  rewrite !string_of_list_byte_of_string in Hkk, Hvv. now subst.
Qed.

Lemma encodeLog_nil_inv (rs : list record) : encodeLog o rs = [] -> rs = [].
Proof.
  destruct rs as [|[[ts k] v] rs]; [reflexivity|]. intros H.
  apply (f_equal len) in H. rewrite len_encodeLog in H.
  change (logSize ((ts, k, v) :: rs)) with (recordSize (ts, k, v) + logSize rs) in H.
  pose proof (recordSize_pos (ts, k, v)). pose proof (logSize_nonneg rs).
  unfold headerSize in *. change (len (@nil byte)) with 0 in H. lia.
Qed.

Lemma encodeLog_inj (rs : list record) :
  forall rs', Forall fits_header rs -> Forall fits_header rs' ->
              encodeLog o rs = encodeLog o rs' -> rs = rs'.
Proof.
  induction rs as [|r rs IH]; intros rs' Hf Hf' Heq.
  - symmetry. apply encodeLog_nil_inv. now rewrite <- Heq.
  - destruct rs' as [|r' rs']; [now apply encodeLog_nil_inv in Heq|].
    apply Forall_cons_1 in Hf as [Hr Hf]. apply Forall_cons_1 in Hf' as [Hr' Hf'].
    change (r :: rs) with ([r] ++ rs) in Heq. change (r' :: rs') with ([r'] ++ rs') in Heq.
    rewrite !encodeLog_app in Heq.
    apply encodeKV_app_inj in Heq as [-> Heq]; [|assumption|assumption].
    f_equal. now apply IH.
Qed.

(** On a reachable store whose file is shorter than [2^32] bytes and holds
    records of at most [maxRW] bytes only, the log that the store tracks is
    the one of those records. *)
Lemma reachable_small path d w :
  reachable o path d w -> len (contents w path) < 2 ^ 32 -> small_records o w path ->
  exists rs p,
    tracks o path rs d w /\ Forall valid_record rs /\
    file d = Some (mkOsFile path p false) /\
    contents w path = encodeLog o rs /\
    writePos d = len (contents w path) /\
    logSize rs = len (contents w path).
Proof.
  intros Hr Hlt (rs' & Hd' & Hv').
  destruct (reachable_facts path d w Hr Hlt) as (rs & p & Ht & Hf & Hfile & Hc & Hwp & Hsz).
  assert (rs = rs') as ->.
  { apply encodeLog_inj; [assumption| |].
    - eapply Forall_impl; [exact Hv'|apply valid_fits].
    - rewrite <- Hc. unfold contents. now rewrite Hd'. }
  exists rs', p. split; [exact Ht|]. split; [exact Hv'|]. split; [exact Hfile|].
  split; [exact Hc|]. now split.
Qed.

(** An addition to [writePos] that does not make it smaller has not wrapped
    around. *)
Lemma uint32_no_wrap (a b : Z) :
  0 <= a -> 0 <= b < 2 ^ 32 -> a <= uint32 (a + b) -> uint32 (a + b) = a + b.
Proof.
  intros Ha Hb Hle. pose proof (uint32_range (a + b)) as Hr. unfold uint32 in *.
  destruct (Z_lt_ge_dec (a + b) (2 ^ 32)) as [Hlt|Hge]; [apply Z.mod_small; lia|].
  assert (Hmod : (a + b) mod 2 ^ 32 = a + b - 2 ^ 32).
  { symmetry. apply (Z.mod_unique (a + b) (2 ^ 32) 1); lia. }
  lia.
Qed.

(** The update that [Set] and an iteration of [LoadKeys] make keeps every
    entry within [writePos] whenever [writePos] does not wrap around,
    whatever the file holds. *)
Lemma index_bounds_insert (d : DiskStore) (f : option OsFile) (key : string) (ts total : Z) :
  index_bounds d -> 0 <= writePos d -> 0 <= total < 2 ^ 32 ->
  writePos d <= uint32 (writePos d + total) ->
  index_bounds (mkDiskStore f (uint32 (writePos d + total))
                            (<[key := mkKeyEntry ts (writePos d) total]> (KeyDir d))).
Proof.
  intros Hb Hwp Htot Hle key' e. cbn [KeyDir writePos].
  rewrite (uint32_no_wrap _ _ Hwp Htot Hle).
  destruct (decide (key = key')) as [->|Hne].
  - rewrite lookup_insert_eq. intros [= <-]. cbn [writeOffSet totalSize]. lia.
  - rewrite lookup_insert_ne by assumption. intros He. specialize (Hb _ _ He). lia.
Qed.

Lemma Set_index_bounds now key value d w d' w' :
  Set_ o now key value d w = (Done tt, d', w') ->
  index_bounds d -> 0 <= writePos d -> writePos d <= writePos d' ->
  index_bounds d'.
Proof.
  unfold Set_. destruct (encodeKV o (uint32 now) key value) as [total data].
  destruct (file_Write w (file d) data) as [[[err|] f'] w1]; [discriminate|].
  intros [= <- <-]. cbn [writePos KeyDir]. intros Hb Hwp Hle.
  apply index_bounds_insert; [assumption|assumption|apply uint32_range|assumption].
Qed.

Lemma loadStep_index_bounds w f d f' d' :
  loadStep o w f d = Some (f', d') ->
  index_bounds d -> 0 <= writePos d -> writePos d <= writePos d' ->
  index_bounds d'.
Proof.
  unfold loadStep.
  destruct (file_Read w f headerSize) as [[buffer [err|]] f1]; [discriminate|].
  destruct (decodeHeader o buffer) as [[ts ks] vs].
  destruct (file_Read w f1 ks) as [[key [err|]] f2]; [discriminate|].
  destruct (file_Read w f2 vs) as [[value [err|]] f3]; [discriminate|].
  intros [= <- <-]. cbn [writePos KeyDir]. intros Hb Hwp Hle.
  apply index_bounds_insert; [assumption|assumption|apply uint32_range|assumption].
Qed.

Lemma index_bounds_newStore : index_bounds newStore.
Proof. intros key e. cbn. now rewrite lookup_empty. Qed.

(** C9, for files shorter than [2^32] bytes. In every state of a store
    reached by [NewDiskStore] on an absent file or on a log of records of
    at most [2^30] bytes each, followed by calls of [Set] (and of [Get])
    that return, and as long as the file is shorter than [2^32] bytes,
    every entry [e] of the key directory has
    [writeOffSet e + totalSize e <= writePos] and [writePos] is the length
    of the file: every indexed record lies within the part of the file
    already written. The invariant holds of the empty index that
    [NewDiskStore] starts from, and each [Set] that returns and each
    iteration of [LoadKeys] that goes round the loop preserves it, on any
    store and whatever the file holds, whenever [writePos] has not become
    smaller, that is, has not wrapped around. *)
Theorem index_within_written_region path d w :
  reachable o path d w -> len (contents w path) < 2 ^ 32 ->
  (index_bounds d /\ writePos d = len (contents w path)) /\
  index_bounds newStore /\
  (forall now key value d0 w0 d1 w1,
      Set_ o now key value d0 w0 = (Done tt, d1, w1) ->
      index_bounds d0 -> 0 <= writePos d0 -> writePos d0 <= writePos d1 ->
      index_bounds d1) /\
  (forall w0 f d0 f1 d1,
      loadStep o w0 f d0 = Some (f1, d1) ->
      index_bounds d0 -> 0 <= writePos d0 -> writePos d0 <= writePos d1 ->
      index_bounds d1).
Proof.
  intros Hr Hlt. split; [|split; [exact index_bounds_newStore|split]].
  - destruct (reachable_facts path d w Hr Hlt) as (rs & p & Ht & _ & _ & _ & Hwp & Hsz).
    split; [|assumption].
    destruct Ht as (_ & _ & _ & Hwp' & Hkd). intros key e. rewrite Hwp', Hkd.
    apply index_bounds_replay. lia.
  - intros now key value d0 w0 d1 w1. apply Set_index_bounds.
  - intros w0 f d0 f1 d1. apply loadStep_index_bounds.
Qed.

(** C1, for files shorter than [2^32] bytes and a last record of at most
    [2^30] bytes. Last write wins: on a reachable store, when the file with
    the two new records stays shorter than [2^32] bytes, the record of the
    second value has at most [2^30] bytes, the most that one [Read]
    returns, and the disk has room for both records, [Set key v1] and then
    [Set key v2] return, [Get key] returns [v2], and the file is the old
    file followed by the two encoded records: it grows by both appends and
    none of its bytes is changed. *)
Theorem last_write_wins path d w now1 now2 key v1 v2 :
  reachable o path d w ->
  len (contents w path) + (headerSize + slen key + slen v1)
    + (headerSize + slen key + slen v2) < 2 ^ 32 ->
  headerSize + slen key + slen v2 <= maxRW ->
  (headerSize + slen key + slen v1) + (headerSize + slen key + slen v2) <= free w ->
  exists d1 w1 d2 w2 d3,
    Set_ o now1 key v1 d w = (Done tt, d1, w1) /\
    Set_ o now2 key v2 d1 w1 = (Done tt, d2, w2) /\
    Get o key d2 w2 = (Done v2, d3) /\
    contents w2 path
    = contents w path ++ snd (encodeKV o (uint32 now1) key v1)
                      ++ snd (encodeKV o (uint32 now2) key v2).
Proof.
  intros Hr Hlt Hmax Hfree.
  pose proof (slen_nonneg key). pose proof (slen_nonneg v1). pose proof (slen_nonneg v2).
  pose proof (len_nonneg (contents w path)) as Hc0. unfold headerSize in *.
  destruct (reachable_tracks o path d w Hr) as (rs & Ht & _).
  destruct (tracks_Set_ok o path rs d w now1 key v1 Ht) as (d1 & w1 & HS1 & Ht1 & Hf1 & Hc1);
    [unfold headerSize; lia|].
  destruct (tracks_Set_ok o path _ d1 w1 now2 key v2 Ht1) as (d2 & w2 & HS2 & Ht2 & Hf2 & Hc2);
    [unfold headerSize in *; lia|].
  assert (Hr1 : reachable o path d1 w1) by (eapply reach_Set; eassumption).
  destruct (reachable_facts path d1 w1 Hr1) as (rs1 & p1 & _ & _ & _ & _ & Hwp1 & _).
  { rewrite Hc1, len_app, len_encodeKV. unfold headerSize. lia. }
  pose proof Ht2 as ([p2 Hfile2] & _).
  exists d1, w1, d2, w2. eexists. split; [exact HS1|]. split; [exact HS2|]. split.
  - apply (Get_hit o key d2 w2 path p2
             (mkKeyEntry (uint32 now2) (writePos d1) (uint32 (headerSize + slen key + slen v2)))
             (contents w1 path) [] (uint32 now2) key v2); try assumption.
    + destruct Ht2 as (_ & _ & _ & _ & Hkd2). rewrite Hkd2, replay_snoc.
      destruct Ht1 as (_ & _ & _ & Hwp1' & _).
      unfold upsert. cbn [KeyDir recordSize]. now rewrite lookup_insert_eq, <- Hwp1'.
    + now rewrite Hc2, app_nil_r.
    + cbn [totalSize]. apply uint32_small. unfold headerSize. lia.
  - now rewrite Hc2, Hc1, <- app_assoc.
Qed.
End Invariants.

(** ** Closing, reopening and sequences of calls *)

Section Reopening.
Variable o : ByteOrder.

Lemma Close_open (d : DiskStore) (path : string) (p : Z) :
  file d = Some (mkOsFile path p false) ->
  Close d = (Done tt, mkDiskStore (Some (mkOsFile path p true)) (writePos d) (KeyDir d)).
Proof. intros Hf. unfold Close. now rewrite Hf. Qed.

(** C2, for files shorter than [2^32] bytes that hold records of at most
    [2^30] bytes. Persistence across reopen: on a reachable store, when every
    record in the file and the new record have at most [2^30] bytes, the
    most that one [Read] returns, the file with the new record stays
    shorter than [2^32] bytes and the disk has room for it, [Set key value]
    returns, [Close] returns, [NewDiskStore] on the same path returns a
    store without error whose [KeyDir] and [writePos] are those of the
    store before [Close], and [Get key] returns [value]. *)
Theorem persistence_across_reopen path d w now key value :
  reachable o path d w ->
  small_records o w path ->
  len (contents w path) + (headerSize + slen key + slen value) < 2 ^ 32 ->
  headerSize + slen key + slen value <= maxRW ->
  headerSize + slen key + slen value <= free w ->
  exists d1 w1 d2 d3 d4,
    Set_ o now key value d w = (Done tt, d1, w1) /\
    Close d1 = (Done tt, d2) /\
    NewDiskStore o path w1 = (Done (d3, None), w1) /\
    KeyDir d3 = KeyDir d1 /\ writePos d3 = writePos d1 /\
    Get o key d3 w1 = (Done value, d4).
Proof.
  intros Hr Hsmall Hlt Hmax Hfree.
  pose proof (slen_nonneg key). pose proof (slen_nonneg value).
  pose proof (len_nonneg (contents w path)) as Hc0.
  destruct (reachable_small o path d w Hr) as (rs & p & Ht & Hv & _ & _ & Hwp0 & _);
    [unfold headerSize in *; lia|exact Hsmall|].
  destruct (tracks_Set_ok o path rs d w now key value Ht Hfree)
    as (d1 & w1 & HS1 & Ht1 & _ & Hc1).
  assert (Hvalid : Forall valid_record (rs ++ [(uint32 now, key, value)])).
  { apply Forall_app. split; [exact Hv|]. constructor; [|constructor].
    pose proof (uint32_range now). unfold valid_record. split; [lia|exact Hmax]. }
  pose proof Ht1 as ([p1 Hf1] & Hperm & Hd1 & Hwp1 & Hkd1).
  destruct (tracks_open_log o path w1 _ Hd1 Hvalid Hperm) as (d3 & Hopen & Ht3).
  pose proof Ht3 as ([p3 Hf3] & _ & _ & Hwp3 & Hkd3).
  exists d1, w1. eexists. exists d3. eexists.
  split; [exact HS1|]. split; [exact (Close_open d1 path p1 Hf1)|].
  split; [exact Hopen|]. split; [congruence|]. split; [congruence|].
  apply (Get_hit o key d3 w1 path p3
           (mkKeyEntry (uint32 now) (writePos d) (uint32 (headerSize + slen key + slen value)))
           (contents w path) [] (uint32 now) key value); try assumption.
  - rewrite Hkd3, replay_snoc. destruct Ht as (_ & _ & _ & Hwp & _).
    unfold upsert. cbn [KeyDir recordSize]. now rewrite lookup_insert_eq, <- Hwp.
  - now rewrite Hc1, app_nil_r.
  - cbn [totalSize]. apply uint32_small. unfold headerSize in *. lia.
Qed.

Lemma contents_nil (w : World) (path : string) :
  contents w path = [] -> disk w !! path = None \/ disk w !! path = Some (encodeLog o []).
Proof.
  unfold contents. destruct (disk w !! path) as [c|]; [|now left].
  simpl. intros ->. now right.
Qed.

Lemma tracks_open_fresh (path : string) (w : World) :
  contents w path = [] -> path ∉ denied w ->
  exists d w', NewDiskStore o path w = (Done (d, None), w') /\
               tracks o path [] d w' /\ free w' = free w.
Proof.
  intros Hc Hperm. destruct (contents_nil w path Hc) as [Habs|Hemp].
  - now apply tracks_open_absent.
  - destruct (tracks_open_log o path w [] Hemp (List.Forall_nil _) Hperm) as (d & Hopen & Ht).
    now exists d, w.
Qed.

Lemma run_sets_tracks (ops : list (Z * string * string)) :
  forall path rs d w,
    tracks o path rs d w -> logSize (records_of ops) <= free w ->
    exists d' w',
      run_sets o ops d w = (Done tt, d', w') /\
      tracks o path (rs ++ records_of ops) d' w'.
Proof.
  induction ops as [|[[now key] value] ops IH]; intros path rs d w Ht Hfree.
  - exists d, w. split; [reflexivity|]. simpl. now rewrite app_nil_r.
  - cbn [records_of map] in Hfree. fold (records_of ops) in Hfree.
    change (logSize ((uint32 now, key, value) :: records_of ops))
      with (headerSize + slen key + slen value + logSize (records_of ops)) in Hfree.
    pose proof (logSize_nonneg (records_of ops)).
    destruct (tracks_Set_ok o path rs d w now key value Ht) as (d1 & w1 & HS & Ht1 & Hf1 & _);
      [lia|].
    destruct (IH path _ d1 w1 Ht1) as (d' & w' & Hrun & Ht'); [lia|].
    exists d', w'. cbn [run_sets]. rewrite HS. split; [exact Hrun|].
    cbn [records_of map]. fold (records_of ops).
    now rewrite <- app_assoc in Ht'.
Qed.

Lemma records_of_take (n : nat) ops : records_of (take n ops) = take n (records_of ops).
Proof. unfold records_of. now rewrite <- fmap_take. Qed.

Lemma logSize_take (n : nat) (rs : list record) : logSize (take n rs) <= logSize rs.
Proof.
  rewrite <- (take_drop n rs) at 2. rewrite logSize_app.
  pose proof (logSize_nonneg (drop n rs)). lia.
Qed.

(** C7, with [writePos] modulo [2^32]. Append-only growth: after
    [NewDiskStore] on an absent or empty file and any list of calls of [Set]
    that the disk has room for, the file is the concatenation of the encoded
    records, its size is the sum of their [headerSize + keySize +
    valueSize], the file after any number of the calls is a prefix of the
    file after all of them, and [writePos] is the length of the file modulo
    [2^32], hence the length of the file as long as that is less than
    [2^32]. *)
Theorem append_only_growth path w ops :
  contents w path = [] -> path ∉ denied w ->
  logSize (records_of ops) <= free w ->
  exists d0 w0 d' w',
    NewDiskStore o path w = (Done (d0, None), w0) /\
    run_sets o ops d0 w0 = (Done tt, d', w') /\
    contents w' path = encodeLog o (records_of ops) /\
    len (contents w' path) = logSize (records_of ops) /\
    writePos d' = uint32 (len (contents w' path)) /\
    (len (contents w' path) < 2 ^ 32 -> writePos d' = len (contents w' path)) /\
    (forall n : nat, exists d1 w1,
        run_sets o (take n ops) d0 w0 = (Done tt, d1, w1) /\
        contents w1 path `prefix_of` contents w' path).
Proof.
  intros Hc Hperm Hfree.
  destruct (tracks_open_fresh path w Hc Hperm) as (d0 & w0 & Hopen & Ht0 & Hf0).
  destruct (run_sets_tracks ops path [] d0 w0 Ht0) as (d' & w' & Hrun & Ht'); [lia|].
  cbn [app] in Ht'. pose proof (tracks_contents o path _ d' w' Ht') as Hc'.
  exists d0, w0, d', w'. split; [exact Hopen|]. split; [exact Hrun|].
  split; [exact Hc'|]. split; [now rewrite Hc', len_encodeLog|].
  assert (Hwp : writePos d' = uint32 (len (contents w' path))).
  { destruct Ht' as (_ & _ & _ & Hwp & _).
    now rewrite Hwp, writePos_replay, Hc', len_encodeLog. }
  split; [exact Hwp|]. split.
  - intros Hlt. rewrite Hwp. apply uint32_small.
    pose proof (len_nonneg (contents w' path)). lia.
  - intros n.
    destruct (run_sets_tracks (take n ops) path [] d0 w0 Ht0) as (d1 & w1 & Hrun1 & Ht1).
    { rewrite records_of_take. pose proof (logSize_take n (records_of ops)). lia. }
    exists d1, w1. split; [exact Hrun1|]. cbn [app] in Ht1.
    rewrite (tracks_contents o path _ d1 w1 Ht1), Hc', records_of_take.
    exists (encodeLog o (drop n (records_of ops))).
    now rewrite <- encodeLog_app, take_drop.
Qed.
End Reopening.

(** ** Misses, empty values, failed writes and the codec *)

Section Reading.
Variable o : ByteOrder.

(** [Set] and then [Get] of the key: [Get] decodes the new record as one
    [Read] returns it. *)
Lemma Set_then_Get path d w now key value :
  reachable o path d w ->
  len (contents w path) + (headerSize + slen key + slen value) < 2 ^ 32 ->
  headerSize + slen key + slen value <= free w ->
  exists d1 w1 d2,
    Set_ o now key value d w = (Done tt, d1, w1) /\
    is_Some (KeyDir d1 !! key) /\
    contents w1 path = contents w path ++ snd (encodeKV o (uint32 now) key value) /\
    Get o key d1 w1
    = (Done (string_of_list_byte
               (drop (Z.to_nat (headerSize + slen key))
                     (capped (snd (encodeKV o (uint32 now) key value))))), d2).
Proof.
  intros Hr Hlt Hfree.
  pose proof (slen_nonneg key). pose proof (slen_nonneg value).
  pose proof (len_nonneg (contents w path)) as Hc0.
  destruct (reachable_facts o path d w Hr) as (rs & p & Ht & _ & _ & _ & Hwp & _);
    [unfold headerSize in *; lia|].
  destruct (tracks_Set_ok o path rs d w now key value Ht Hfree)
    as (d1 & w1 & HS1 & Ht1 & _ & Hc1).
  pose proof Ht1 as ([p1 Hf1] & _ & _ & _ & Hkd1).
  assert (Hk : KeyDir d1 !! key
               = Some (mkKeyEntry (uint32 now) (writePos d)
                                  (uint32 (headerSize + slen key + slen value)))).
  { destruct Ht as (_ & _ & _ & Hwp' & _).
    rewrite Hkd1, replay_snoc. unfold upsert. cbn [KeyDir recordSize].
    now rewrite lookup_insert_eq, <- Hwp'. }
  exists d1, w1, (snd (Get o key d1 w1)).
  split; [exact HS1|]. split; [now rewrite Hk|]. split; [exact Hc1|].
  rewrite (surjective_pairing (Get o key d1 w1)) at 1. f_equal.
  apply (Get_record o key d1 w1 path p1 _ (contents w path) [] (uint32 now) key value Hf1 Hk).
  - now rewrite Hc1, app_nil_r.
  - exact Hwp.
  - cbn [totalSize]. apply uint32_small. unfold headerSize in *. lia.
  - unfold headerSize in *. lia.
  - unfold headerSize in *. lia.
Qed.

(** C8, for files shorter than [2^32] bytes. Empty-string sentinel
    collision: on a reachable store, one that [NewDiskStore] opened on an
    absent file or on a log of records of at most [2^30] bytes each and
    that [Set] and [Get] have used since, when the file with the new record
    stays shorter than [2^32] bytes and the disk has room for the record,
    [Set] of a key with the empty string returns, the key is in the key
    directory, and [Get] of the key returns the empty string, which is what
    [Get] returns for every key that is not in the key directory. The key
    can be longer than the [2^30] bytes that one [Read] returns: the value
    is decoded from the end of the buffer and is empty whatever was read. *)
Theorem empty_value_reads_as_miss path d w now key :
  reachable o path d w ->
  len (contents w path) + (headerSize + slen key) < 2 ^ 32 ->
  headerSize + slen key <= free w ->
  exists d1 w1 d2,
    Set_ o now key EmptyString d w = (Done tt, d1, w1) /\
    is_Some (KeyDir d1 !! key) /\
    Get o key d1 w1 = (Done EmptyString, d2) /\
    forall key' d' w', KeyDir d' !! key' = None -> Get o key' d' w' = (Done EmptyString, d').
Proof.
  intros Hr Hlt Hfree.
  pose proof (slen_nonneg key) as Hk0.
  pose proof (len_nonneg (contents w path)) as Hc0.
  assert (Hfree' : headerSize + slen key + slen EmptyString <= free w)
    by (change (slen EmptyString) with 0; lia).
  destruct (reachable_facts o path d w Hr) as (rs & p & Ht & _ & _ & _ & Hwp & _);
    [unfold headerSize in *; lia|].
  destruct (tracks_Set_ok o path rs d w now key EmptyString Ht Hfree')
    as (d1 & w1 & HS1 & Ht1 & _ & Hc1).
  pose proof Ht1 as ([p1 Hf1] & _ & _ & _ & Hkd1).
  assert (Hk : KeyDir d1 !! key
               = Some (mkKeyEntry (uint32 now) (writePos d) (uint32 (headerSize + slen key)))).
  { destruct Ht as (_ & _ & _ & Hwp' & _).
    rewrite Hkd1, replay_snoc. unfold upsert. cbn [KeyDir recordSize].
    change (slen EmptyString) with 0. rewrite Z.add_0_r.
    now rewrite lookup_insert_eq, <- Hwp'. }
  exists d1, w1, (snd (Get o key d1 w1)).
  split; [exact HS1|]. split; [now rewrite Hk|]. split.
  - rewrite (surjective_pairing (Get o key d1 w1)) at 1. f_equal.
    apply (Get_empty_value o key d1 w1 path p1 _ (contents w path) [] (uint32 now) key Hf1 Hk).
    + now rewrite Hc1, app_nil_r.
    + exact Hwp.
    + cbn [totalSize]. apply uint32_small. unfold headerSize in *. lia.
    + unfold headerSize in *. lia.
  - intros key' d' w'. apply Get_miss.
Qed.

(** C6. Miss behaviour: for a key that is not in the key directory, [Get]
    returns the empty string, the sentinel for an absent key; it does not
    exit or panic, and the store is as before. *)
Theorem Get_miss_is_not_an_error key d w :
  KeyDir d !! key = None -> Get o key d w = (Done EmptyString, d).
Proof.
  intros Hmiss. unfold Get. rewrite Hmiss. reflexivity.
Qed.

Lemma Get_fresh_store path w :
  contents w path = [] -> path ∉ denied w ->
  exists d w', NewDiskStore o path w = (Done (d, None), w') /\
               forall key, Get o key d w' = (Done EmptyString, d).
Proof.
  intros Hc Hperm.
  destruct (tracks_open_fresh o path w Hc Hperm) as (d & w' & Hopen & Ht & _).
  exists d, w'. split; [exact Hopen|]. intros key. apply Get_miss.
  destruct Ht as (_ & _ & _ & _ & Hkd). rewrite Hkd. apply lookup_empty.
Qed.

(** C10. [Get] is read-only on the engine's state: whatever the key and
    however the call ends, the key directory and [writePos] are as before,
    and a following [Set] ends the same way, leaves the same files and
    produces the same key directory and [writePos] as it would have without
    the [Get]. *)
Theorem Get_is_read_only key d w :
  KeyDir (snd (Get o key d w)) = KeyDir d /\
  writePos (snd (Get o key d w)) = writePos d /\
  forall now k v,
    let after := Set_ o now k v (snd (Get o key d w)) w in
    let direct := Set_ o now k v d w in
    fst (fst after) = fst (fst direct) /\
    snd after = snd direct /\
    KeyDir (snd (fst after)) = KeyDir (snd (fst direct)) /\
    writePos (snd (fst after)) = writePos (snd (fst direct)).
Proof.
  pose proof (Get_frame o key d w) as Hs. pose proof Hs as (_ & Hw & Hk).
  split; [now rewrite Hk|]. split; [now rewrite Hw|]. intros now k v after direct.
  destruct (Set_same o now k v d _ w Hs) as (H1 & H2 & (_ & H3 & H4)).
  subst after direct. repeat split; congruence.
Qed.

(** C4, as the code ends the call. When the write of [Set] fails, [Set] ends
    the process with exit status 1: [writePos] and the key directory are as
    before the call, nothing is returned to the caller, and the file holds
    whatever part of the record the failed write left in it. *)
Theorem Set_write_failure_exits now key value d w err f' w' :
  file_Write w (file d) (snd (encodeKV o (uint32 now) key value)) = (Some err, f', w') ->
  Set_ o now key value d w = (Exit 1, mkDiskStore f' (writePos d) (KeyDir d), w').
Proof.
  intros Hwrite. unfold Set_.
  destruct (encodeKV o (uint32 now) key value) as [total data]. cbn [snd] in Hwrite.
  rewrite Hwrite. reflexivity.
Qed.

(** C5. Codec round trip: for a timestamp of 32 bits and a non-empty key and
    value whose lengths fit in 32 bits, decoding the encoded record gives
    back the timestamp, the key and the value. *)
Theorem codec_round_trip ts key value :
  0 <= ts < 2 ^ 32 -> key <> EmptyString -> value <> EmptyString ->
  slen key < 2 ^ 32 -> slen value < 2 ^ 32 ->
  decodeKV o (snd (encodeKV o ts key value)) = Some (ts, key, value).
Proof.
  intros Hts _ _ Hk Hv. rewrite decodeKV_encodeKV by assumption.
  now rewrite uint32_small.
Qed.
End Reading.

(** ** Recovery always returns *)

Section Totality.
Variable o : ByteOrder.

Lemma file_Read_open (w : World) (name : string) (p n : Z) :
  0 <= p ->
  exists buf err p',
    file_Read w (Some (mkOsFile name p false)) n = (buf, err, Some (mkOsFile name p' false)) /\
    p <= p' /\ (err = None -> n <> 0 -> p < p' <= len (contents w name)).
Proof.
  intros Hp. unfold file_Read. cbn [fclosed fname fpos].
  destruct (Z.eqb_spec n 0) as [->|Hn].
  - exists [], None, p. repeat split; [lia|congruence|congruence].
  - cbv zeta.
    match goal with |- context [len ?g =? 0] => set (got := g) end.
    destruct (Z.eqb_spec (len got) 0) as [H0|Hpos].
    + exists (make n), (Some EOF), p. repeat split; [lia|discriminate|discriminate].
    + pose proof (len_nonneg got).
      assert (len got <= len (contents w name) - p).
      { unfold got, len in *. rewrite length_take, length_drop in *. lia. }
      exists (got ++ make (n - len got)), None, (p + len got).
      repeat split; lia.
Qed.

Lemma loadLoop_total (fuel : nat) :
  forall w name p d,
    0 <= p -> (length (contents w name) - Z.to_nat p < fuel)%nat ->
    exists d', loadLoop o fuel w (Some (mkOsFile name p false)) d = Done d'.
Proof.
  induction fuel as [|fuel IH]; intros w name p d Hp Hfuel; [lia|].
  cbn [loadLoop]. unfold loadStep.
  destruct (file_Read_open w name p headerSize Hp) as (buf & err & p1 & -> & Hle1 & Hlt1).
  destruct err as [e|]; [now eexists|].
  specialize (Hlt1 eq_refl ltac:(discriminate)).
  destruct (decodeHeader o buf) as [[ts ks] vs].
  destruct (file_Read_open w name p1 ks ltac:(lia)) as (kb & err & p2 & -> & Hle2 & _).
  destruct err as [e|]; [now eexists|].
  destruct (file_Read_open w name p2 vs ltac:(lia)) as (vb & err & p3 & -> & Hle3 & _).
  destruct err as [e|]; [now eexists|].
  apply IH; [lia|]. unfold len in Hlt1. lia.
Qed.

Lemma LoadKeys_total (path : string) (d : DiskStore) (w : World) :
  path ∉ denied w -> is_Some (disk w !! path) ->
  exists d', LoadKeys o path d w = Done d'.
Proof.
  intros Hperm [c Hc]. unfold LoadKeys, os_Open. rewrite Hc.
  destruct (decide (path ∈ denied w)); [contradiction|].
  apply loadLoop_total; lia.
Qed.

(** Whatever the file holds, [NewDiskStore] opens the store and returns no
    error: recovery cannot fail. *)
Lemma NewDiskStore_never_rejects_a_file (path : string) (w : World) :
  path ∉ denied w ->
  exists d w', NewDiskStore o path w = (Done (d, None), w').
Proof.
  intros Hperm. unfold NewDiskStore, isFileExists, os_Stat.
  destruct (disk w !! path) as [c|] eqn:Hc.
  - destruct (LoadKeys_total path (mkDiskStore None 0 ∅) w Hperm) as [d' ->];
      [now rewrite Hc|].
    unfold os_OpenFile. rewrite Hc.
    destruct (decide (path ∈ denied w)); [contradiction|]. now eexists _, _.
  - unfold os_OpenFile. rewrite Hc.
    destruct (decide (path ∈ denied w)); [contradiction|]. now eexists _, _.
Qed.
End Totality.

(** ** Entries that do not cover their record *)

Section Overruns.
Variable o : ByteOrder.

Lemma decodeKV_overrun (t ks vs : Z) (rest : list byte) :
  0 <= ks < 2 ^ 32 -> 0 <= vs < 2 ^ 32 -> len rest < ks + vs ->
  decodeKV o (encodeHeader o t ks vs ++ rest) = None.
Proof.
  intros Hk Hv Hlen. unfold decodeKV. rewrite len_app, len_encodeHeader.
  pose proof (len_nonneg rest).
  destruct (Z.ltb_spec (headerSize + len rest) headerSize); [reflexivity|].
  rewrite slice_app_l by (rewrite ?len_encodeHeader; reflexivity).
  rewrite decodeHeader_encodeHeader, (uint32_small ks), (uint32_small vs) by assumption.
  destruct (Z.ltb_spec (headerSize + len rest) (headerSize + ks + vs)); [reflexivity|lia].
Qed.

Lemma Get_overrun key d w path p e ts ks vs body :
  file d = Some (mkOsFile path p false) -> KeyDir d !! key = Some e ->
  writeOffSet e = 0 -> headerSize <= totalSize e ->
  contents w path = encodeHeader o ts ks vs ++ body ->
  totalSize e <= len (contents w path) -> totalSize e <= maxRW ->
  0 <= ks < 2 ^ 32 -> 0 <= vs < 2 ^ 32 -> totalSize e < headerSize + ks + vs ->
  exists d', Get o key d w = (Panic, d').
Proof.
  intros Hf He Hoff Hmin Hc Hlen Hmax Hk Hv Hover. unfold Get. rewrite He, Hf, Hoff.
  unfold file_Seek. cbn [fclosed fname]. change (0 <? 0) with false. cbv iota.
  set (n := totalSize e) in *. unfold headerSize in *.
  rewrite (file_Read_exact' w path [] (take (Z.to_nat n) (contents w path))
             (drop (Z.to_nat n) (contents w path)) 0 n).
  - cbv beta iota zeta. rewrite Hc.
    pose proof (len_encodeHeader o ts ks vs) as Hh. unfold len, headerSize in Hh.
    rewrite take_app_ge by lia.
    rewrite decodeKV_overrun; [now eexists|assumption|assumption|].
    unfold len. rewrite length_take. lia.
  - cbn [app]. now rewrite take_drop.
  - reflexivity.
  - unfold len in *. rewrite length_take. lia.
  - exact Hmax.
Qed.

Lemma Get_empty_entry key d w path p e :
  file d = Some (mkOsFile path p false) -> KeyDir d !! key = Some e ->
  0 <= writeOffSet e -> totalSize e = 0 ->
  exists d', Get o key d w = (Panic, d').
Proof.
  intros Hf He Hoff Htot. unfold Get. rewrite He, Hf, Htot.
  unfold file_Seek. cbn [fclosed fname].
  destruct (Z.ltb_spec (writeOffSet e) 0); [lia|].
  unfold file_Read. cbn [fclosed]. change (0 =? 0) with true. cbv iota.
  now eexists.
Qed.

End Overruns.

(** ** Reads that [Read] cuts short *)

Section ShortReads.
Variable o : ByteOrder.

Lemma make_add (a b : Z) : 0 <= a -> 0 <= b -> make (a + b) = make a ++ make b.
Proof. intros Ha Hb. unfold make. now rewrite Z2Nat.inj_add, replicate_add by lia. Qed.

Lemma len_make (n : Z) : 0 <= n -> len (make n) = n.
Proof. intros H. unfold len, make. rewrite length_replicate. lia. Qed.

Lemma list_byte_of_zeros (n : Z) : list_byte_of_string (zeros n) = make n.
Proof. unfold zeros. apply list_byte_of_string_of_list_byte. Qed.

(** A read of more than [maxRW] bytes returns [maxRW] of them. *)
Lemma file_Read_capped (w : World) (name : string) (pre data rest : list byte) (p n : Z) :
  contents w name = pre ++ data ++ rest -> p = len pre ->
  len data = maxRW -> maxRW <= n ->
  file_Read w (Some (mkOsFile name p false)) n
  = (data ++ make (n - maxRW), None, Some (mkOsFile name (p + maxRW) false)).
Proof.
  intros Hc -> Hlen Hn. unfold file_Read. cbn [fclosed fname fpos].
  assert (Hpos : 0 < maxRW) by (unfold maxRW; lia).
  destruct (Z.eqb_spec n 0); [lia|]. rewrite Hc, Z.min_r by assumption.
  assert (take (Z.to_nat maxRW) (drop (Z.to_nat (len pre)) (pre ++ data ++ rest)) = data)
    as ->.
  { unfold len in *. rewrite Nat2Z.id, drop_app_length, <- Hlen, Nat2Z.id.
    apply take_app_length. }
  destruct (Z.eqb_spec (len data) 0); [lia|]. now rewrite Hlen.
Qed.

Lemma decodeHeader_zeros : decodeHeader o (make headerSize) = (0, 0, 0).
Proof. destruct o; reflexivity. Qed.

(** [LoadKeys] on a run of [m] zero bytes up to the end of the file: every
    twelve bytes, and what is left of them at the end, make a record of
    the empty key. *)
Lemma loadLoop_zeros (k : nat) :
  forall fuel w name p d m,
    0 <= p -> drop (Z.to_nat p) (contents w name) = make m ->
    0 <= m <= 12 * Z.of_nat k -> 12 * (Z.of_nat k - 1) < m ->
    (k < fuel)%nat ->
    loadLoop o fuel w (Some (mkOsFile name p false)) d
    = Done (replay (replicate k zero_record) d).
Proof.
  induction k as [|k IH]; intros fuel w name p d m Hp Hdrop Hm Hk Hfuel.
  - destruct fuel as [|fuel]; [lia|]. assert (m = 0) as -> by lia.
    cbn [loadLoop]. unfold loadStep. rewrite file_Read_EOF; [reflexivity|easy|].
    apply (f_equal length) in Hdrop. unfold make in Hdrop.
    rewrite length_drop, length_replicate in Hdrop. unfold len. lia.
  - destruct fuel as [|fuel]; [lia|]. cbn [loadLoop]. unfold loadStep.
    set (g := Z.min m 12).
    assert (Hread : file_Read w (Some (mkOsFile name p false)) headerSize
                    = (make headerSize, None, Some (mkOsFile name (p + g) false))).
    { assert (Htake : take (Z.to_nat (Z.min headerSize maxRW)) (make m) = make g).
      { unfold make. rewrite take_replicate. f_equal.
        change (Z.min headerSize maxRW) with 12. unfold g. lia. }
      unfold file_Read. cbn [fclosed fname fpos]. change (headerSize =? 0) with false.
      cbv iota zeta. rewrite Hdrop, Htake, len_make by (unfold g; lia).
      destruct (Z.eqb_spec g 0); [unfold g in *; lia|].
      rewrite <- make_add by (unfold g, headerSize in *; lia).
      do 2 f_equal. f_equal. lia. }
    rewrite Hread, decodeHeader_zeros.
    unfold file_Read. cbn [fclosed Z.eqb]. cbv iota beta zeta.
    change (uint32 (headerSize + 0 + 0)) with 12.
    change (string_of_list_byte []) with EmptyString.
    rewrite (IH fuel w name (p + g) _ (m - g)).
    + reflexivity.
    + unfold g. lia.
    + replace (Z.to_nat (p + g)) with (Z.to_nat p + Z.to_nat g)%nat by (unfold g; lia).
      rewrite <- drop_drop, Hdrop. unfold make. rewrite drop_replicate. f_equal.
      unfold g. lia.
    + unfold g. lia.
    + unfold g. lia.
    + lia.
Qed.

Lemma logSize_zero_records (k : nat) : logSize (replicate k zero_record) = 12 * Z.of_nat k.
Proof.
  induction k as [|k IH]; [reflexivity|]. cbn [replicate].
  change (logSize (zero_record :: replicate k zero_record))
    with (12 + logSize (replicate k zero_record)). lia.
Qed.

Lemma writePos_zero_records (k : nat) (d : DiskStore) :
  0 <= writePos d < 2 ^ 32 ->
  writePos (replay (replicate k zero_record) d) = uint32 (writePos d + 12 * Z.of_nat k).
Proof. intros H. now rewrite writePos_replay_from, logSize_zero_records. Qed.

Lemma lookup_zero_records (k : nat) (d : DiskStore) (key : string) :
  key <> EmptyString ->
  KeyDir (replay (replicate k zero_record) d) !! key = KeyDir d !! key.
Proof.
  intros Hne. revert d. induction k as [|k IH]; intros d; [reflexivity|].
  cbn [replicate]. change (replay (zero_record :: replicate k zero_record) d)
    with (replay (replicate k zero_record) (upsert zero_record d)).
  rewrite IH. unfold upsert, zero_record. cbn [KeyDir].
  now rewrite lookup_insert_ne by (intros <-; now apply Hne).
Qed.

Lemma last_zero_record (k : nat) (d : DiskStore) :
  0 <= writePos d < 2 ^ 32 ->
  KeyDir (replay (replicate (S k) zero_record) d) !! EmptyString
  = Some (mkKeyEntry 0 (uint32 (writePos d + 12 * Z.of_nat k)) 12).
Proof.
  intros H. cbn [replicate]. rewrite replicate_cons_app, replay_snoc.
  unfold upsert at 1. unfold zero_record at 1 2. cbn [KeyDir].
  rewrite lookup_insert_eq, writePos_zero_records by assumption. reflexivity.
Qed.

Lemma loadLoop_big_value_at (M : Z) (fuel : nat) (w : World) (name : string) (ts : Z)
    (key : string) (n : Z) (d : DiskStore) (k : nat) :
  M = maxRW ->
  contents w name
  = encodeHeader o ts (slen key) n ++ list_byte_of_string key ++ make M ++ make (n - M) ->
  0 <= ts < 2 ^ 32 -> slen key <= M -> M < n < 2 ^ 32 ->
  n - M <= 12 * Z.of_nat k -> 12 * (Z.of_nat k - 1) < n - M ->
  (S k < fuel)%nat ->
  loadLoop o fuel w (Some (mkOsFile name 0 false)) d
  = Done (replay (replicate k zero_record)
                 (mkDiskStore (file d) (uint32 (writePos d + uint32 (headerSize + slen key + n)))
                              (<[key := mkKeyEntry ts (writePos d)
                                                   (uint32 (headerSize + slen key + n))]>
                                 (KeyDir d)))).
Proof.
  intros HM Hc Hts Hkey Hn Hk1 Hk2 Hfuel.
  assert (Hmax : M = 2 ^ 30) by (rewrite HM; reflexivity).
  pose proof (slen_nonneg key) as Hk0.
  destruct fuel as [|fuel]; [lia|]. cbn [loadLoop]. unfold loadStep.
  rewrite (file_Read_exact' w name [] (encodeHeader o ts (slen key) n)
             (list_byte_of_string key ++ make M ++ make (n - M))).
  2:{ exact Hc. }
  2:{ reflexivity. }
  2:{ now rewrite len_encodeHeader. }
  2:{ unfold headerSize, maxRW. lia. }
  rewrite decodeHeader_encodeHeader.
  rewrite (uint32_small ts), (uint32_small (slen key)), (uint32_small n) by lia.
  rewrite (file_Read_exact' w name (encodeHeader o ts (slen key) n)
             (list_byte_of_string key) (make M ++ make (n - M))).
  2:{ exact Hc. }
  2:{ now rewrite len_encodeHeader. }
  2:{ now rewrite len_list_byte_of_string. }
  2:{ rewrite <- HM. exact Hkey. }
  rewrite (file_Read_capped w name (encodeHeader o ts (slen key) n ++ list_byte_of_string key)
             (make M) (make (n - M))).
  2:{ rewrite Hc. rewrite <- app_assoc. reflexivity. }
  2:{ rewrite len_app, len_encodeHeader, len_list_byte_of_string. reflexivity. }
  2:{ rewrite <- HM. apply len_make. lia. }
  2:{ lia. }
  rewrite <- ?HM, string_of_list_byte_of_string.
  rewrite (loadLoop_zeros k fuel w name _ _ (n - M)); try lia.
  - reflexivity.
  - unfold headerSize. lia.
  - rewrite Hc.
    replace (Z.to_nat (0 + headerSize + slen key + M))
      with (length ((encodeHeader o ts (slen key) n ++ list_byte_of_string key)
                    ++ make M)).
    + rewrite !app_assoc. apply drop_app_length.
    + pose proof (len_encodeHeader o ts (slen key) n) as H1.
      pose proof (len_list_byte_of_string key) as H2.
      pose proof (len_make M ltac:(lia)) as H3.
      rewrite !length_app. unfold len in *. lia.
Qed.

(** [LoadKeys] on the record of a value of [n] zero bytes, more than one
    [Read] returns: the read of the value stops after [maxRW] bytes, the
    record is indexed with its whole size, and the loop goes on in the
    middle of the value, whose zero bytes it takes for records of the empty
    key. *)
Lemma loadLoop_big_value (fuel : nat) (w : World) (name : string) (ts : Z) (key : string)
    (n : Z) (d : DiskStore) (k : nat) :
  contents w name = snd (encodeKV o ts key (zeros n)) ->
  0 <= ts < 2 ^ 32 -> slen key <= maxRW -> maxRW < n < 2 ^ 32 ->
  n - maxRW <= 12 * Z.of_nat k -> 12 * (Z.of_nat k - 1) < n - maxRW ->
  (S k < fuel)%nat ->
  loadLoop o fuel w (Some (mkOsFile name 0 false)) d
  = Done (replay (replicate k zero_record) (upsert (ts, key, zeros n) d)).
Proof.
  intros Hc Hts Hkey Hn Hk1 Hk2 Hfuel.
  assert (Hmax : maxRW = 2 ^ 30) by reflexivity.
  pose proof (slen_nonneg key) as Hk0.
  assert (Hz : slen (zeros n) = n) by (apply slen_zeros; lia).
  unfold upsert. cbn [recordSize]. rewrite Hz.
  apply (loadLoop_big_value_at maxRW fuel w name ts key n d k eq_refl); [|assumption..].
  rewrite Hc. unfold encodeKV. cbn [snd].
  rewrite Hz, list_byte_of_zeros, (uint32_small (slen key)), (uint32_small n) by lia.
  rewrite <- make_add by lia. do 3 f_equal. lia.
Qed.

Lemma NewDiskStore_big_value (path : string) (w : World) (ts : Z) (key : string)
    (n : Z) (k : nat) :
  disk w !! path = Some (encodeLog o [(ts, key, zeros n)]) -> path ∉ denied w ->
  0 <= ts < 2 ^ 32 -> slen key <= maxRW -> maxRW < n < 2 ^ 32 ->
  n - maxRW <= 12 * Z.of_nat k -> 12 * (Z.of_nat k - 1) < n - maxRW ->
  NewDiskStore o path w
  = (Done (mkDiskStore
             (Some (mkOsFile path 0 false))
             (writePos (replay (replicate k zero_record) (upsert (ts, key, zeros n) newStore)))
             (KeyDir (replay (replicate k zero_record) (upsert (ts, key, zeros n) newStore))),
           None), w).
Proof.
  intros Hd Hperm Hts Hkey Hn Hk1 Hk2.
  assert (Hc : contents w path = snd (encodeKV o ts key (zeros n))).
  { unfold contents. rewrite Hd, encodeLog_cons. cbn. apply app_nil_r. }
  unfold NewDiskStore, isFileExists, os_Stat, os_OpenFile, LoadKeys, os_Open.
  rewrite Hd. destruct (decide (path ∈ denied w)) as [|_]; [contradiction|].
  rewrite (loadLoop_big_value _ w path ts key n _ k Hc); try assumption; [reflexivity|].
  assert (Hmax : maxRW = 2 ^ 30) by reflexivity.
  pose proof (len_encodeKV o ts key (zeros n)) as Hl. rewrite slen_zeros in Hl by lia.
  pose proof (slen_nonneg key). rewrite Hc. unfold len, headerSize in *. lia.
Qed.

End ShortReads.

(** ** Records that wrap the 32-bit offsets *)

Section Overflow32.
Variable o : ByteOrder.

Lemma open_big :
  exists d0 w0,
    NewDiskStore o "books.db" bigWorld = (Done (d0, None), w0) /\
    tracks o "books.db" [] d0 w0 /\ free w0 = 2 ^ 33.
Proof.
  destruct (tracks_open_absent o "books.db" bigWorld) as (d0 & w0 & Hopen & Ht0 & Hfree).
  { apply lookup_empty. }
  { apply not_elem_of_empty. }
  now exists d0, w0.
Qed.

(** One record of exactly [2^32] bytes: the store's [writePos] and the
    record's [totalSize] wrap to [0]. *)
Lemma wrap_one_record (key big : string) :
  slen key = 1 -> slen big = 2 ^ 32 - 13 ->
  exists d0 w0 d1 w1,
    NewDiskStore o "books.db" bigWorld = (Done (d0, None), w0) /\
    Set_ o 0 key big d0 w0 = (Done tt, d1, w1) /\
    tracks o "books.db" [(0, key, big)] d1 w1 /\
    free w1 = 2 ^ 32 /\
    len (contents w1 "books.db") = 2 ^ 32 /\
    writePos d1 = 0 /\
    KeyDir d1 !! key = Some (mkKeyEntry 0 0 0).
Proof.
  intros Hk Hbig. destruct open_big as (d0 & w0 & Hopen & Ht0 & Hfree0).
  destruct (tracks_Set_ok o "books.db" [] d0 w0 0 key big Ht0)
    as (d1 & w1 & HS & Ht1 & Hfree1 & Hc1).
  { rewrite Hfree0, Hk, Hbig. unfold headerSize. lia. }
  cbn [app] in Ht1. change (uint32 0) with 0 in Ht1.
  exists d0, w0, d1, w1. split; [exact Hopen|]. split; [exact HS|]. split; [exact Ht1|].
  split; [rewrite Hfree1, Hfree0, Hk, Hbig; unfold headerSize; lia|].
  pose proof Ht1 as (_ & _ & _ & Hwp & Hkd).
  assert (Hsz : headerSize + slen key + slen big = 2 ^ 32)
    by (rewrite Hk, Hbig; unfold headerSize; lia).
  split; [|split].
  - rewrite (tracks_contents o _ _ _ _ Ht1), len_encodeLog.
    change (logSize [(0, key, big)]) with (headerSize + slen key + slen big + 0). lia.
  - rewrite Hwp, writePos_replay.
    change (logSize [(0, key, big)]) with (headerSize + slen key + slen big + 0).
    rewrite Z.add_0_r, Hsz. reflexivity.
  - rewrite Hkd. change (replay [(0, key, big)] newStore) with (upsert (0, key, big) newStore).
    unfold upsert. cbn [KeyDir writePos newStore recordSize].
    rewrite lookup_insert_eq, Hsz. reflexivity.
Qed.

Lemma contents_one_record (w : World) (d : DiskStore) (ts : Z) (key value : string)
    (rs : list record) :
  tracks o "books.db" ((ts, key, value) :: rs) d w ->
  contents w "books.db"
  = encodeHeader o ts (uint32 (slen key)) (uint32 (slen value))
    ++ ((list_byte_of_string key ++ list_byte_of_string value) ++ encodeLog o rs).
Proof.
  intros Ht. rewrite (tracks_contents o _ _ _ _ Ht), encodeLog_cons.
  unfold encodeKV. cbn [snd]. now rewrite <- app_assoc.
Qed.

Lemma last_write_lost (big : string) :
  slen big = 2 ^ 32 - 13 ->
  exists d0 w0 d1 w1 d2 w2 d3,
    NewDiskStore o "books.db" bigWorld = (Done (d0, None), w0) /\
    Set_ o 0 "k" big d0 w0 = (Done tt, d1, w1) /\
    len (contents w1 "books.db") = 2 ^ 32 /\
    Set_ o 1 "k" "x" d1 w1 = (Done tt, d2, w2) /\
    KeyDir d2 !! "k"%string = Some (mkKeyEntry 1 0 14) /\
    Get o "k" d2 w2 = (Panic, d3).
Proof.
  intros Hbig.
  destruct (wrap_one_record "k" big eq_refl Hbig)
    as (d0 & w0 & d1 & w1 & Hopen & HS1 & Ht1 & Hfree1 & Hlen1 & Hwp1 & _).
  destruct (tracks_Set_ok o "books.db" _ d1 w1 1 "k" "x" Ht1)
    as (d2 & w2 & HS2 & Ht2 & _ & Hc2).
  { rewrite Hfree1. vm_compute. discriminate. }
  pose proof Ht2 as ([p2 Hf2] & _ & _ & _ & Hkd2).
  assert (Hk2 : KeyDir d2 !! "k"%string = Some (mkKeyEntry 1 0 14)).
  { rewrite Hkd2, replay_snoc. destruct Ht1 as (_ & _ & _ & Hwp1' & _).
    unfold upsert. cbn [KeyDir recordSize]. rewrite lookup_insert_eq, <- Hwp1', Hwp1.
    reflexivity. }
  destruct (Get_overrun o "k" d2 w2 "books.db" p2 (mkKeyEntry 1 0 14)
              0 (uint32 (slen "k")) (uint32 (slen big))
              ((list_byte_of_string "k" ++ list_byte_of_string big)
               ++ encodeLog o [(uint32 1, "k", "x")]) Hf2 Hk2) as [d3 HG].
  - reflexivity.
  - vm_compute. discriminate.
  - exact (contents_one_record w2 d2 0 "k" big _ Ht2).
  - rewrite Hc2, len_app, Hlen1. pose proof (len_nonneg (snd (encodeKV o (uint32 1) "k" "x"))).
    cbn [totalSize]. lia.
  - vm_compute. discriminate.
  - apply uint32_range.
  - apply uint32_range.
  - rewrite Hbig. vm_compute. reflexivity.
  - exists d0, w0, d1, w1, d2, w2, d3. repeat split; assumption.
Qed.

Lemma empty_value_lost (big : string) :
  slen big = 2 ^ 32 - 13 ->
  exists d0 w0 d1 w1 d2 w2 d3,
    NewDiskStore o "books.db" bigWorld = (Done (d0, None), w0) /\
    Set_ o 0 "a" big d0 w0 = (Done tt, d1, w1) /\
    len (contents w1 "books.db") = 2 ^ 32 /\
    Set_ o 1 "k" EmptyString d1 w1 = (Done tt, d2, w2) /\
    KeyDir d2 !! "k"%string = Some (mkKeyEntry 1 0 13) /\
    Get o "k" d2 w2 = (Panic, d3).
Proof.
  intros Hbig.
  destruct (wrap_one_record "a" big eq_refl Hbig)
    as (d0 & w0 & d1 & w1 & Hopen & HS1 & Ht1 & Hfree1 & Hlen1 & Hwp1 & _).
  destruct (tracks_Set_ok o "books.db" _ d1 w1 1 "k" EmptyString Ht1)
    as (d2 & w2 & HS2 & Ht2 & _ & Hc2).
  { rewrite Hfree1. vm_compute. discriminate. }
  pose proof Ht2 as ([p2 Hf2] & _ & _ & _ & Hkd2).
  assert (Hk2 : KeyDir d2 !! "k"%string = Some (mkKeyEntry 1 0 13)).
  { rewrite Hkd2, replay_snoc. destruct Ht1 as (_ & _ & _ & Hwp1' & _).
    unfold upsert. cbn [KeyDir recordSize]. rewrite lookup_insert_eq, <- Hwp1', Hwp1.
    reflexivity. }
  destruct (Get_overrun o "k" d2 w2 "books.db" p2 (mkKeyEntry 1 0 13)
              0 (uint32 (slen "a")) (uint32 (slen big))
              ((list_byte_of_string "a" ++ list_byte_of_string big)
               ++ encodeLog o [(uint32 1, "k", EmptyString)]) Hf2 Hk2) as [d3 HG].
  - reflexivity.
  - vm_compute. discriminate.
  - exact (contents_one_record w2 d2 0 "a" big _ Ht2).
  - rewrite Hc2, len_app, Hlen1.
    pose proof (len_nonneg (snd (encodeKV o (uint32 1) "k" EmptyString))).
    cbn [totalSize]. lia.
  - vm_compute. discriminate.
  - apply uint32_range.
  - apply uint32_range.
  - rewrite Hbig. vm_compute. reflexivity.
  - exists d0, w0, d1, w1, d2, w2, d3. repeat split; assumption.
Qed.

Lemma index_bounds_broken (big : string) :
  slen big = 2 ^ 32 - 27 ->
  exists d0 w0 d1 w1 d2 w2,
    NewDiskStore o "books.db" bigWorld = (Done (d0, None), w0) /\
    Set_ o 0 "a" "x" d0 w0 = (Done tt, d1, w1) /\
    Set_ o 1 "b" big d1 w1 = (Done tt, d2, w2) /\
    reachable o "books.db" d2 w2 /\
    KeyDir d2 !! "a"%string = Some (mkKeyEntry 0 0 14) /\
    writePos d2 = 0 /\
    ~ index_bounds d2.
Proof.
  intros Hbig. destruct open_big as (d0 & w0 & Hopen & Ht0 & Hfree0).
  destruct (tracks_Set_ok o "books.db" [] d0 w0 0 "a" "x" Ht0)
    as (d1 & w1 & HS1 & Ht1 & Hfree1 & _).
  { rewrite Hfree0. vm_compute. discriminate. }
  destruct (tracks_Set_ok o "books.db" _ d1 w1 1 "b" big Ht1)
    as (d2 & w2 & HS2 & Ht2 & _ & _).
  { rewrite Hfree1, Hfree0, Hbig. vm_compute. discriminate. }
  assert (Ha : KeyDir d2 !! "a"%string = Some (mkKeyEntry 0 0 14)).
  { destruct Ht2 as (_ & _ & _ & _ & Hkd). rewrite Hkd. cbn [app].
    change (replay [(uint32 0, "a", "x"); (uint32 1, "b", big)]%string newStore)
      with (upsert (uint32 1, "b"%string, big) (upsert (uint32 0, "a", "x")%string newStore)).
    unfold upsert. cbn [KeyDir writePos newStore recordSize].
    rewrite lookup_insert_ne by discriminate. now rewrite lookup_insert_eq. }
  assert (Hw : writePos d2 = 0).
  { destruct Ht2 as (_ & _ & _ & Hwp & _). rewrite Hwp, writePos_replay. cbn [app].
    change (logSize [(uint32 0, "a", "x"); (uint32 1, "b", big)]%string)
      with (headerSize + slen "a" + slen "x" + (headerSize + slen "b" + slen big + 0)).
    rewrite Hbig. reflexivity. }
  exists d0, w0, d1, w1, d2, w2.
  split; [exact Hopen|]. split; [exact HS1|]. split; [exact HS2|]. split; [|split; [exact Ha|]].
  - eapply reach_Set; [|exact HS2]. eapply reach_Set; [|exact HS1].
    eapply reach_open; [|exact Hopen]. left. apply lookup_empty.
  - split; [exact Hw|]. intros Hb. specialize (Hb _ _ Ha). rewrite Hw in Hb.
    cbn [writeOffSet totalSize] in Hb. lia.
Qed.
End Overflow32.

(** ** Reopening after a value longer than one [Read] *)

Section Reopen30.
Variable o : ByteOrder.

(** One record with a value of [n] zero bytes, more than one [Read]
    returns, then the store is closed and opened again. *)
Lemma reopen_big_value (n : Z) (k : nat) :
  maxRW < n < 2 ^ 32 ->
  n - maxRW <= 12 * Z.of_nat k -> 12 * (Z.of_nat k - 1) < n - maxRW ->
  exists d0 w0 d1 w1 d2 d3,
    NewDiskStore o "books.db" bigWorld = (Done (d0, None), w0) /\
    Set_ o 0 "k" (zeros n) d0 w0 = (Done tt, d1, w1) /\
    tracks o "books.db" [(0, "k"%string, zeros n)] d1 w1 /\
    free w1 = 2 ^ 33 - (13 + n) /\
    Close d1 = (Done tt, d2) /\
    NewDiskStore o "books.db" w1 = (Done (d3, None), w1) /\
    file d3 = Some (mkOsFile "books.db" 0 false) /\
    writePos d3 = uint32 (uint32 (13 + n) + 12 * Z.of_nat k) /\
    KeyDir d3 !! "k"%string = Some (mkKeyEntry 0 0 (uint32 (13 + n))) /\
    (forall j : nat, k = S j ->
       KeyDir d3 !! EmptyString
       = Some (mkKeyEntry 0 (uint32 (uint32 (13 + n) + 12 * Z.of_nat j)) 12)).
Proof.
  intros Hn Hk1 Hk2. assert (Hmax : maxRW = 2 ^ 30) by reflexivity.
  assert (Hz : slen (zeros n) = n) by (apply slen_zeros; lia).
  destruct (open_big o) as (d0 & w0 & Hopen & Ht0 & Hfree0).
  destruct (tracks_Set_ok o "books.db" [] d0 w0 0 "k" (zeros n) Ht0)
    as (d1 & w1 & HS & Ht1 & Hfree1 & _).
  { rewrite Hfree0, Hz. change (slen "k") with 1. unfold headerSize. lia. }
  cbn [app] in Ht1. change (uint32 0) with 0 in Ht1.
  pose proof Ht1 as ([p1 Hf1] & Hperm & Hd1 & _ & _).
  pose proof (NewDiskStore_big_value o "books.db" w1 0 "k" n k Hd1 Hperm) as Hre.
  set (D := upsert (0, "k"%string, zeros n) newStore) in *.
  assert (HwD : writePos D = uint32 (13 + n)).
  { unfold D, upsert. cbn [writePos newStore recordSize]. rewrite Hz.
    change (slen "k") with 1. unfold headerSize. rewrite uint32_add_r. now f_equal. }
  assert (HkD : KeyDir D !! "k"%string = Some (mkKeyEntry 0 0 (uint32 (13 + n)))).
  { unfold D, upsert. cbn [KeyDir writePos newStore recordSize]. rewrite Hz, lookup_insert_eq.
    change (slen "k") with 1. unfold headerSize. do 3 f_equal. }
  exists d0, w0, d1, w1. eexists. eexists.
  split; [exact Hopen|]. split; [exact HS|]. split; [exact Ht1|].
  split; [rewrite Hfree1, Hfree0, Hz; change (slen "k") with 1; unfold headerSize; lia|].
  split; [exact (Close_open d1 _ _ Hf1)|].
  split; [apply Hre; try assumption; try lia; change (slen "k") with 1; lia|].
  cbn [file writePos KeyDir]. split; [reflexivity|].
  split; [rewrite writePos_zero_records, HwD; [reflexivity|rewrite HwD; apply uint32_range]|].
  split; [rewrite lookup_zero_records by discriminate; exact HkD|].
  intros j ->. rewrite last_zero_record, HwD; [reflexivity|].
  rewrite HwD. apply uint32_range.
Qed.

Lemma reopen_loses_value : lost_after_reopen_scenario o.
Proof.
  destruct (reopen_big_value (2 ^ 32 - 13) (Z.to_nat 268435455))
    as (d0 & w0 & d1 & w1 & d2 & d3 & Hopen & HS & Ht1 & _ & Hcl & Hre & Hf3 & Hwp3 & Hk3 & He3);
    [unfold maxRW; lia..|].
  change (uint32 (13 + (2 ^ 32 - 13))) with 0 in *.
  destruct (Get_empty_entry o "k" d3 w1 "books.db" 0 (mkKeyEntry 0 0 0) Hf3 Hk3) as [d4 HG];
    [reflexivity|reflexivity|].
  exists d0, w0, d1, w1, d2, d3, d4.
  split; [exact Hopen|]. split; [exact HS|]. split; [exact Hcl|]. split; [exact Hre|].
  split; [exact Hk3|]. split; [|split; [|exact HG]].
  - rewrite (He3 (Z.to_nat 268435454)) by lia. rewrite Z2Nat.id by lia. reflexivity.
  - rewrite Hwp3, Z2Nat.id by lia. reflexivity.
Qed.

Lemma reopen_after_short_read : short_read_reopen_scenario o.
Proof.
  destruct (reopen_big_value (2 ^ 30 + 100) (Z.to_nat 9))
    as (d0 & w0 & d1 & w1 & d2 & d3 & Hopen & HS & Ht1 & _ & Hcl & Hre & Hf3 & Hwp3 & Hk3 & He3);
    [unfold maxRW; lia..|].
  change (uint32 (13 + (2 ^ 30 + 100))) with (2 ^ 30 + 113) in *.
  assert (Hz : slen (zeros (2 ^ 30 + 100)) = 2 ^ 30 + 100) by (apply slen_zeros; lia).
  pose proof (tracks_contents o _ _ _ _ Ht1) as Hc1.
  destruct Ht1 as (_ & _ & _ & Hwp1 & Hkd1).
  exists d0, w0, d1, w1, d2, d3.
  split; [exact Hopen|]. split; [exact HS|]. split; [|split; [|split]].
  - rewrite Hc1, len_encodeLog.
    change (logSize [(0, "k"%string, zeros (2 ^ 30 + 100))])
      with (headerSize + slen "k" + slen (zeros (2 ^ 30 + 100)) + 0).
    rewrite Hz. reflexivity.
  - rewrite Hwp1, writePos_replay.
    change (logSize [(0, "k"%string, zeros (2 ^ 30 + 100))])
      with (headerSize + slen "k" + slen (zeros (2 ^ 30 + 100)) + 0).
    rewrite Hz. reflexivity.
  - rewrite Hkd1.
    change (replay [(0, "k"%string, zeros (2 ^ 30 + 100))] newStore)
      with (upsert (0, "k"%string, zeros (2 ^ 30 + 100)) newStore).
    unfold upsert. cbn [KeyDir newStore]. rewrite lookup_insert_ne by discriminate.
    apply lookup_empty.
  - split; [exact Hcl|]. split; [exact Hre|]. split; [exact Hk3|]. split.
    + rewrite (He3 (Z.to_nat 8)) by lia. rewrite Z2Nat.id by lia. reflexivity.
    + rewrite Hwp3, Z2Nat.id by lia. reflexivity.
Qed.

Lemma entry_past_the_file : entry_past_the_file_scenario o.
Proof.
  destruct reopen_after_short_read
    as (d0 & w0 & d1 & w1 & d2 & d3 & Hopen & HS & Hlen & _ & _ & Hcl & Hre & _ & He & Hwp).
  exists d0, w0, d1, w1, d2, d3, (mkKeyEntry 0 (2 ^ 30 + 209) 12).
  split; [exact Hopen|]. split; [exact HS|]. split; [exact Hcl|]. split; [exact Hre|].
  split; [exact He|]. rewrite Hwp, Hlen. cbn [writeOffSet totalSize]. lia.
Qed.

(** The store that recovery makes of a value of [2^30 + 100] bytes. *)
Lemma short_read_store :
  exists d0 w0 d1 w1 d2 d3,
    NewDiskStore o "books.db" bigWorld = (Done (d0, None), w0) /\
    Set_ o 0 "k" (zeros (2 ^ 30 + 100)) d0 w0 = (Done tt, d1, w1) /\
    Close d1 = (Done tt, d2) /\
    NewDiskStore o "books.db" w1 = (Done (d3, None), w1) /\
    len (contents w1 "books.db") = 2 ^ 30 + 113 /\
    writePos d3 = 2 ^ 30 + 221 /\
    file d3 = Some (mkOsFile "books.db" 0 false) /\
    free w1 = 2 ^ 33 - (2 ^ 30 + 113).
Proof.
  destruct (reopen_big_value (2 ^ 30 + 100) (Z.to_nat 9))
    as (d0 & w0 & d1 & w1 & d2 & d3 & Hopen & HS & Ht1 & Hfree1 & Hcl & Hre & Hf3 & Hwp3 & _);
    [unfold maxRW; lia..|].
  assert (Hz : slen (zeros (2 ^ 30 + 100)) = 2 ^ 30 + 100) by (apply slen_zeros; lia).
  pose proof (tracks_contents o _ _ _ _ Ht1) as Hc1.
  exists d0, w0, d1, w1, d2, d3.
  split; [exact Hopen|]. split; [exact HS|]. split; [exact Hcl|]. split; [exact Hre|].
  split; [|split; [|split; [exact Hf3|]]].
  - rewrite Hc1, len_encodeLog.
    change (logSize [(0, "k"%string, zeros (2 ^ 30 + 100))])
      with (headerSize + slen "k" + slen (zeros (2 ^ 30 + 100)) + 0).
    rewrite Hz. reflexivity.
  - rewrite Hwp3, Z2Nat.id by lia. reflexivity.
  - rewrite Hfree1. lia.
Qed.

Lemma empty_value_after_short_read : empty_value_after_short_read_scenario o.
Proof.
  destruct short_read_store
    as (d0 & w0 & d1 & w1 & d2 & d3 & Hopen & HS & Hcl & Hre & Hlen & Hwp3 & Hf3 & Hfree1).
  destruct (Set_then_Get_past_end o 1 "h" EmptyString d3 w1 "books.db" 0 Hf3)
    as (d4 & w4 & d5 & HS4 & _ & _ & Hk4 & Hl4 & _ & HG).
  { rewrite Hfree1. vm_compute. discriminate. }
  { reflexivity. }
  { rewrite Hlen, Hwp3. vm_compute. discriminate. }
  exists d0, w0, d1, w1, d2, d3, d4, w4, d5.
  split; [exact Hopen|]. split; [exact HS|]. split; [exact Hcl|]. split; [exact Hre|].
  split; [exact Hlen|]. split; [exact Hwp3|]. split; [exact HS4|].
  split; [rewrite Hk4, Hwp3; reflexivity|]. split; [rewrite Hl4, Hlen; reflexivity|exact HG].
Qed.

Lemma update_after_short_read : update_after_short_read_scenario o.
Proof.
  destruct short_read_store
    as (d0 & w0 & d1 & w1 & d2 & d3 & Hopen & HS & Hcl & Hre & Hlen & Hwp3 & Hf3 & Hfree1).
  destruct (Set_then_Get_past_end o 1 "h" "v1" d3 w1 "books.db" 0 Hf3)
    as (d4 & w4 & _ & HS4 & Hf4 & Hwp4 & _ & Hl4 & Hfree4 & _).
  { rewrite Hfree1. vm_compute. discriminate. }
  { reflexivity. }
  { rewrite Hlen, Hwp3. vm_compute. discriminate. }
  destruct (Set_then_Get_past_end o 2 "h" "v2" d4 w4 "books.db" _ Hf4)
    as (d5 & w5 & d6 & HS5 & _ & _ & Hk5 & Hl5 & _ & HG).
  { rewrite Hfree4, Hfree1. vm_compute. discriminate. }
  { reflexivity. }
  { rewrite Hl4, Hlen, Hwp4, Hwp3. vm_compute. discriminate. }
  exists d0, w0, d1, w1, d2, d3, d4, w4, d5, w5, d6.
  split; [exact Hopen|]. split; [exact HS|]. split; [exact Hcl|]. split; [exact Hre|].
  split; [exact Hlen|]. split; [exact Hwp3|]. split; [exact HS4|]. split; [exact HS5|].
  split; [rewrite Hk5, Hwp4, Hwp3; reflexivity|].
  split; [rewrite Hl5, Hl4, Hlen; reflexivity|exact HG].
Qed.


Lemma slen_tailed (n : Z) : 0 <= n -> slen (tailed n) = n + 1.
Proof.
  intros Hn. unfold tailed. rewrite slen_string_of_list_byte, len_app, len_make by lia.
  reflexivity.
Qed.

Lemma zeros_tailed (n : Z) : 0 <= n -> zeros (n + 1) <> tailed n.
Proof.
  intros Hn Heq. apply (f_equal list_byte_of_string) in Heq.
  unfold tailed in Heq. rewrite list_byte_of_zeros, list_byte_of_string_of_list_byte in Heq.
  rewrite make_add in Heq by lia. apply app_inv_head in Heq. discriminate Heq.
Qed.

(** What [Get] decodes of a record whose value is [maxRW] zero bytes and
    one more byte: the zero bytes, and a zero byte. *)
Lemma capped_tailed (t : Z) (k : string) (n : Z) :
  n = maxRW -> slen k = 1 ->
  string_of_list_byte
    (drop (Z.to_nat (headerSize + slen k)) (capped (snd (encodeKV o t k (tailed n)))))
  = zeros (n + 1).
Proof.
  intros Hn Hk. pose proof maxRW_eq as Hmax.
  unfold zeros. f_equal. unfold encodeKV. cbn [snd].
  unfold tailed. rewrite list_byte_of_string_of_list_byte.
  set (H := encodeHeader o t (uint32 (slen k))
                         (uint32 (slen (string_of_list_byte (make n ++ [x78]))))).
  assert (HH : len H = headerSize) by apply len_encodeHeader.
  assert (HK : len (list_byte_of_string k) = 1) by now rewrite len_list_byte_of_string.
  replace n with ((n - 13) + 13) at 1 by lia.
  rewrite make_add by lia.
  replace (H ++ list_byte_of_string k ++ (make (n - 13) ++ make 13) ++ [x78])
    with ((H ++ list_byte_of_string k ++ make (n - 13)) ++ (make 13 ++ [x78]))
    by (now rewrite <- !app_assoc).
  rewrite capped_at
    by (rewrite !len_app, HH, HK, len_make by lia; unfold headerSize; lia).
  rewrite len_app, len_make by lia. change (len [x78]) with 1.
  rewrite (app_assoc H), <- (app_assoc (H ++ list_byte_of_string k)).
  replace (Z.to_nat (headerSize + slen k)) with (length (H ++ list_byte_of_string k))
    by (rewrite length_app; unfold len in HH, HK; lia).
  rewrite drop_app_length, <- make_add by lia. f_equal. lia.
Qed.

Lemma Get_tailed (n : Z) :
  n = maxRW ->
  exists d0 w0 d1 w1 d2 w2 d3,
    NewDiskStore o "books.db" bigWorld = (Done (d0, None), w0) /\
    Set_ o 0 "k" "a" d0 w0 = (Done tt, d1, w1) /\
    Set_ o 1 "k" (tailed n) d1 w1 = (Done tt, d2, w2) /\
    len (contents w2 "books.db") = n + 28 /\
    Get o "k" d2 w2 = (Done (zeros (n + 1)), d3) /\
    zeros (n + 1) <> tailed n.
Proof.
  intros Hn. pose proof maxRW_eq as Hmax.
  assert (Hs : slen (tailed n) = n + 1) by (apply slen_tailed; lia).
  destruct (tracks_open_absent o "books.db" bigWorld) as (d0 & w0 & Hopen & Ht0 & Hfree0).
  { apply lookup_empty. }
  { apply not_elem_of_empty. }
  assert (Hr0 : reachable o "books.db" d0 w0).
  { apply (reach_open o "books.db" bigWorld d0 w0); [left; apply lookup_empty|exact Hopen]. }
  destruct (tracks_Set_ok o "books.db" [] d0 w0 0 "k" "a" Ht0)
    as (d1 & w1 & HS1 & Ht1 & Hfree1 & Hc1).
  { rewrite Hfree0. vm_compute. discriminate. }
  assert (Hr1 : reachable o "books.db" d1 w1) by (eapply reach_Set; eassumption).
  assert (Hl1 : len (contents w1 "books.db") = 14).
  { rewrite Hc1, (tracks_contents o _ _ _ _ Ht0), len_app, len_encodeKV. reflexivity. }
  destruct (Set_then_Get o "books.db" d1 w1 1 "k" (tailed n) Hr1)
    as (d2 & w2 & d3 & HS2 & _ & Hc2 & HG).
  { rewrite Hl1, Hs. unfold headerSize. change (slen "k") with 1. lia. }
  { rewrite Hfree1, Hfree0, Hs. unfold headerSize.
    change (slen "k") with 1. change (slen "a") with 1. change (free bigWorld) with (2 ^ 33).
    lia. }
  exists d0, w0, d1, w1, d2, w2, d3.
  split; [exact Hopen|]. split; [exact HS1|]. split; [exact HS2|]. split; [|split].
  - rewrite Hc2, len_app, Hl1, len_encodeKV, Hs. unfold headerSize.
    change (slen "k") with 1. lia.
  - rewrite HG. rewrite capped_tailed by (assumption || reflexivity). reflexivity.
  - apply zeros_tailed. lia.
Qed.

Lemma Get_truncates_value : truncated_read_scenario o.
Proof. exact (Get_tailed (2 ^ 30) eq_refl). Qed.

End Reopen30.

(** ** Recovery of a truncated log *)

(** C3. [NewDiskStore] on a log cut in the middle of its second record
    returns a store and no error. Cut after the key of the record (27 of 29
    bytes), the index has the first key only and a [Get] of the second is a
    miss; cut one byte before the end (28 bytes), the second record is
    indexed with its full size, [writePos] is 29 in a file of 28 bytes, and
    [Get] returns the value with a zero byte in the place of the missing
    one. *)
Theorem NewDiskStore_accepts_truncated_log :
  (forall o,
      NewDiskStore o "books.db" (cutWorld o 27)
      = (Done (mkDiskStore (Some (mkOsFile "books.db" 0 false)) 14
                           {[ "a"%string := mkKeyEntry 1 0 14 ]}, None),
         cutWorld o 27)) /\
  (forall o,
      NewDiskStore o "books.db" (cutWorld o 28) = (Done (cutStore, None), cutWorld o 28) /\
      len (contents (cutWorld o 28) "books.db") = 28 /\
      fst (Get o "b" cutStore (cutWorld o 28)) = Done (String "y" (String zero EmptyString))).
Proof.
  split; intros []; vm_compute; repeat split; reflexivity.
Qed.

(** On the store opened on the log cut after 28 bytes, [Set] writes its
    record at offset 28, the end of the file, and indexes it at 29, the
    store's [writePos]: [Get] of the key finds the header one byte off and
    panics on the slices it describes. *)
Lemma Set_after_truncated_log (o : ByteOrder) :
  fst (fst (Set_ o 3 "k" "v1" cutStore (cutWorld o 28))) = Done tt /\
  KeyDir (snd (fst (Set_ o 3 "k" "v1" cutStore (cutWorld o 28)))) !! "k"%string
  = Some (mkKeyEntry 3 29 15) /\
  len (contents (snd (Set_ o 3 "k" "v1" cutStore (cutWorld o 28))) "books.db") = 28 + 15 /\
  fst (Get o "k" (snd (fst (Set_ o 3 "k" "v1" cutStore (cutWorld o 28))))
                 (snd (Set_ o 3 "k" "v1" cutStore (cutWorld o 28))))
  = Panic.
Proof. destruct o; vm_compute; repeat split; reflexivity. Qed.

(** ** The theorems at concrete inputs *)

Lemma freshStore_reachable : reachable LittleEndian "books.db" freshStore freshWorld.
Proof.
  apply (reach_open LittleEndian "books.db" smallWorld).
  - left. reflexivity.
  - vm_compute. reflexivity.
Defined.

Lemma last_write_wins_witness :
  reachable LittleEndian "books.db" freshStore freshWorld /\
  len (contents freshWorld "books.db")
    + (headerSize + slen "othello" + slen "shakespeare1")
    + (headerSize + slen "othello" + slen "shakespeare2") < 2 ^ 32 /\
  headerSize + slen "othello" + slen "shakespeare2" <= maxRW /\
  (headerSize + slen "othello" + slen "shakespeare1")
    + (headerSize + slen "othello" + slen "shakespeare2") <= free freshWorld /\
  exists d1 w1 d2 w2 d3,
    Set_ LittleEndian 1700000000 "othello" "shakespeare1" freshStore freshWorld
    = (Done tt, d1, w1) /\
    Set_ LittleEndian 1700000001 "othello" "shakespeare2" d1 w1 = (Done tt, d2, w2) /\
    Get LittleEndian "othello" d2 w2 = (Done "shakespeare2"%string, d3) /\
    contents w2 "books.db"
    = contents freshWorld "books.db"
      ++ snd (encodeKV LittleEndian (uint32 1700000000) "othello" "shakespeare1")
      ++ snd (encodeKV LittleEndian (uint32 1700000001) "othello" "shakespeare2").
Proof.
  split; [exact freshStore_reachable|].
  split; [vm_compute; reflexivity|].
  split; [vm_compute; discriminate|].
  split; [vm_compute; discriminate|].
  apply (last_write_wins LittleEndian "books.db" freshStore freshWorld).
  - exact freshStore_reachable.
  - vm_compute. reflexivity.
  - vm_compute. discriminate.
  - vm_compute. discriminate.
Defined.

Lemma othelloStore_reachable : reachable LittleEndian "books.db" othelloStore othelloWorld.
Proof.
  apply (reach_Set LittleEndian "books.db" freshStore freshWorld
           1700000000 "othello" "shakespeare").
  - exact freshStore_reachable.
  - vm_compute. reflexivity.
Defined.

Lemma othelloWorld_small_records : small_records LittleEndian othelloWorld "books.db".
Proof.
  exists othelloLog. split; [vm_compute; reflexivity|].
  constructor; [|constructor]. unfold valid_record. vm_compute. intuition discriminate.
Defined.

Lemma persistence_across_reopen_witness :
  reachable LittleEndian "books.db" othelloStore othelloWorld /\
  small_records LittleEndian othelloWorld "books.db" /\
  len (contents othelloWorld "books.db")
    + (headerSize + slen "war and peace" + slen "tolstoy") < 2 ^ 32 /\
  headerSize + slen "war and peace" + slen "tolstoy" <= maxRW /\
  headerSize + slen "war and peace" + slen "tolstoy" <= free othelloWorld /\
  exists d1 w1 d2 d3 d4,
    Set_ LittleEndian 1700000001 "war and peace" "tolstoy" othelloStore othelloWorld
    = (Done tt, d1, w1) /\
    Close d1 = (Done tt, d2) /\
    NewDiskStore LittleEndian "books.db" w1 = (Done (d3, None), w1) /\
    KeyDir d3 = KeyDir d1 /\ writePos d3 = writePos d1 /\
    Get LittleEndian "war and peace" d3 w1 = (Done "tolstoy"%string, d4).
Proof.
  split; [exact othelloStore_reachable|].
  split; [exact othelloWorld_small_records|].
  split; [vm_compute; reflexivity|].
  split; [vm_compute; discriminate|].
  split; [vm_compute; discriminate|].
  apply (persistence_across_reopen LittleEndian "books.db" othelloStore othelloWorld).
  - exact othelloStore_reachable.
  - exact othelloWorld_small_records.
  - vm_compute. reflexivity.
  - vm_compute. discriminate.
  - vm_compute. discriminate.
Defined.

Lemma Set_write_failure_exits_witness :
  file_Write fullWorld (file freshStore) (snd (encodeKV LittleEndian (uint32 0) "k" "v"))
  = (Some ErrNoSpace, Some (mkOsFile "books.db" 3 false),
     mkWorld {[ "books.db"%string := take 3 (snd (encodeKV LittleEndian 0 "k" "v")) ]} 0 ∅) /\
  Set_ LittleEndian 0 "k" "v" freshStore fullWorld
  = (Exit 1,
     mkDiskStore (Some (mkOsFile "books.db" 3 false)) (writePos freshStore) (KeyDir freshStore),
     mkWorld {[ "books.db"%string := take 3 (snd (encodeKV LittleEndian 0 "k" "v")) ]} 0 ∅).
Proof.
  split; [vm_compute; reflexivity|].
  apply (Set_write_failure_exits LittleEndian 0 "k" "v" freshStore fullWorld ErrNoSpace).
  vm_compute. reflexivity.
Defined.

Lemma codec_round_trip_witness :
  0 <= 1700000000 < 2 ^ 32 /\
  "othello"%string <> EmptyString /\ "shakespeare"%string <> EmptyString /\
  slen "othello" < 2 ^ 32 /\ slen "shakespeare" < 2 ^ 32 /\
  decodeKV BigEndian (snd (encodeKV BigEndian 1700000000 "othello" "shakespeare"))
  = Some (1700000000, "othello"%string, "shakespeare"%string).
Proof.
  split; [lia|]. split; [discriminate|]. split; [discriminate|].
  split; [vm_compute; reflexivity|]. split; [vm_compute; reflexivity|].
  apply (codec_round_trip BigEndian 1700000000 "othello" "shakespeare").
  - lia.
  - discriminate.
  - discriminate.
  - vm_compute. reflexivity.
  - vm_compute. reflexivity.
Defined.

Lemma Get_miss_is_not_an_error_witness :
  KeyDir othelloStore !! "war and peace"%string = None /\
  Get LittleEndian "war and peace" othelloStore othelloWorld = (Done EmptyString, othelloStore).
Proof.
  split; [vm_compute; reflexivity|].
  apply (Get_miss_is_not_an_error LittleEndian "war and peace" othelloStore othelloWorld).
  vm_compute. reflexivity.
Defined.

Lemma append_only_growth_witness :
  contents smallWorld "books.db" = [] /\
  ("books.db"%string ∉ denied smallWorld) /\
  logSize (records_of [(1700000000, "othello", "shakespeare1");
                       (1700000001, "othello", "shakespeare2")]%string)
  <= free smallWorld /\
  exists d0 w0 d' w',
    NewDiskStore BigEndian "books.db" smallWorld = (Done (d0, None), w0) /\
    run_sets BigEndian [(1700000000, "othello", "shakespeare1");
                        (1700000001, "othello", "shakespeare2")]%string d0 w0
    = (Done tt, d', w') /\
    contents w' "books.db"
    = encodeLog BigEndian (records_of [(1700000000, "othello", "shakespeare1");
                                       (1700000001, "othello", "shakespeare2")]%string) /\
    len (contents w' "books.db")
    = logSize (records_of [(1700000000, "othello", "shakespeare1");
                           (1700000001, "othello", "shakespeare2")]%string) /\
    writePos d' = uint32 (len (contents w' "books.db")) /\
    (len (contents w' "books.db") < 2 ^ 32 -> writePos d' = len (contents w' "books.db")) /\
    (forall n : nat, exists d1 w1,
        run_sets BigEndian (take n [(1700000000, "othello", "shakespeare1");
                                    (1700000001, "othello", "shakespeare2")]%string) d0 w0
        = (Done tt, d1, w1) /\
        contents w1 "books.db" `prefix_of` contents w' "books.db").
Proof.
  split; [reflexivity|]. split; [apply not_elem_of_empty|].
  split; [vm_compute; discriminate|].
  apply (append_only_growth BigEndian "books.db" smallWorld).
  - reflexivity.
  - apply not_elem_of_empty.
  - vm_compute. discriminate.
Defined.

Lemma empty_value_reads_as_miss_witness :
  reachable LittleEndian "books.db" othelloStore othelloWorld /\
  len (contents othelloWorld "books.db") + (headerSize + slen "hamlet") < 2 ^ 32 /\
  headerSize + slen "hamlet" <= free othelloWorld /\
  exists d1 w1 d2,
    Set_ LittleEndian 1700000001 "hamlet" EmptyString othelloStore othelloWorld
    = (Done tt, d1, w1) /\
    is_Some (KeyDir d1 !! "hamlet"%string) /\
    Get LittleEndian "hamlet" d1 w1 = (Done EmptyString, d2) /\
    forall key' d' w',
      KeyDir d' !! key' = None -> Get LittleEndian key' d' w' = (Done EmptyString, d').
Proof.
  split; [exact othelloStore_reachable|].
  split; [vm_compute; reflexivity|].
  split; [vm_compute; discriminate|].
  apply (empty_value_reads_as_miss LittleEndian "books.db" othelloStore othelloWorld).
  - exact othelloStore_reachable.
  - vm_compute. reflexivity.
  - vm_compute. discriminate.
Defined.

Lemma index_within_written_region_witness :
  reachable LittleEndian "books.db" othelloStore othelloWorld /\
  len (contents othelloWorld "books.db") < 2 ^ 32 /\
  (index_bounds othelloStore /\
   writePos othelloStore = len (contents othelloWorld "books.db")) /\
  index_bounds newStore /\
  (forall now key value d0 w0 d1 w1,
      Set_ LittleEndian now key value d0 w0 = (Done tt, d1, w1) ->
      index_bounds d0 -> 0 <= writePos d0 -> writePos d0 <= writePos d1 ->
      index_bounds d1) /\
  (forall w0 f d0 f1 d1,
      loadStep LittleEndian w0 f d0 = Some (f1, d1) ->
      index_bounds d0 -> 0 <= writePos d0 -> writePos d0 <= writePos d1 ->
      index_bounds d1).
Proof.
  split; [exact othelloStore_reachable|].
  split; [vm_compute; reflexivity|].
  apply (index_within_written_region LittleEndian "books.db" othelloStore othelloWorld).
  - exact othelloStore_reachable.
  - vm_compute. reflexivity.
Defined.

(** ** Where the claims of the specification fail *)

(** C1 as stated, for every store and all values, fails in either byte
    order: with a value that makes a record of [2^32] bytes, with a value
    of [2^30 + 1] bytes in a file far shorter than [2^32] bytes, on a store
    opened on a log that holds a value of [2^30 + 100] bytes, and on a
    store opened on a truncated log. *)
Lemma last_write_wins_counterexample :
  (lost_update_scenario LittleEndian /\ lost_update_scenario BigEndian) /\
  (truncated_read_scenario LittleEndian /\ truncated_read_scenario BigEndian) /\
  (update_after_short_read_scenario LittleEndian
   /\ update_after_short_read_scenario BigEndian) /\
  (misplaced_update_scenario LittleEndian /\ misplaced_update_scenario BigEndian).
Proof.
  split; [split; apply last_write_lost; apply slen_zeros; lia|].
  split; [split; apply Get_truncates_value|].
  split; [split; apply update_after_short_read|].
  split; do 7 eexists;
    (split; [vm_compute; reflexivity|]);
    repeat (split; [vm_compute; reflexivity|]); vm_compute; reflexivity.
Qed.

(** C2 as stated fails in either byte order: with a value that makes a
    record of [2^32] bytes, with a value of [2^30 + 100] bytes in a file
    far shorter than [2^32] bytes, and on a store opened on a truncated
    log. *)
Lemma persistence_across_reopen_counterexample :
  (lost_after_reopen_scenario LittleEndian /\ lost_after_reopen_scenario BigEndian) /\
  (short_read_reopen_scenario LittleEndian /\ short_read_reopen_scenario BigEndian) /\
  (misplaced_after_reopen_scenario LittleEndian /\ misplaced_after_reopen_scenario BigEndian).
Proof.
  split; [split; apply reopen_loses_value|].
  split; [split; apply reopen_after_short_read|].
  split; do 6 eexists;
    (split; [vm_compute; reflexivity|]);
    repeat (split; [vm_compute; reflexivity|]); vm_compute; reflexivity.
Qed.

(** C4 as stated fails in either byte order: a failed write ends the
    process, and part of the record can be in the file. *)
Lemma Set_write_failure_counterexample :
  write_failure_scenario LittleEndian /\ write_failure_scenario BigEndian.
Proof. split; split; vm_compute; reflexivity. Qed.

(** C7 as stated fails in either byte order: [writePos] is 0 after a [Set]
    that makes the file [2^32] bytes long. *)
Lemma append_only_growth_counterexample :
  writePos_wraps_scenario LittleEndian /\ writePos_wraps_scenario BigEndian.
Proof.
  split.
  - destruct (wrap_one_record LittleEndian "k" (zeros (2 ^ 32 - 13)) eq_refl)
      as (d0 & w0 & d1 & w1 & Hopen & HS & _ & _ & Hlen & Hwp & _);
      [apply slen_zeros; lia|].
    exists d0, w0, d1, w1. split; [exact Hopen|]. split; [|now split].
    cbn [run_sets]. now rewrite HS.
  - destruct (wrap_one_record BigEndian "k" (zeros (2 ^ 32 - 13)) eq_refl)
      as (d0 & w0 & d1 & w1 & Hopen & HS & _ & _ & Hlen & Hwp & _);
      [apply slen_zeros; lia|].
    exists d0, w0, d1, w1. split; [exact Hopen|]. split; [|now split].
    cbn [run_sets]. now rewrite HS.
Qed.

(** C8 as stated, for every store, fails in either byte order: after a
    record of [2^32] bytes, on a store opened on a log that holds a value of
    [2^30 + 100] bytes, and on a store opened on a truncated log. *)
Lemma empty_value_counterexample :
  (lost_empty_value_scenario LittleEndian /\ lost_empty_value_scenario BigEndian) /\
  (empty_value_after_short_read_scenario LittleEndian
   /\ empty_value_after_short_read_scenario BigEndian) /\
  (misplaced_empty_value_scenario LittleEndian /\ misplaced_empty_value_scenario BigEndian).
Proof.
  split; [split; apply empty_value_lost; apply slen_zeros; lia|].
  split; [split; apply empty_value_after_short_read|].
  split; do 5 eexists;
    (split; [vm_compute; reflexivity|]);
    repeat (split; [vm_compute; reflexivity|]); vm_compute; reflexivity.
Qed.

(** C9 as stated fails in either byte order: an entry ends after [writePos]
    once [writePos] has wrapped around; and on a store opened on a log that
    holds a value of [2^30 + 100] bytes, an entry that ends at [writePos]
    lies past the end of the file, not in what has been written. *)
Lemma index_bounds_counterexample :
  (index_out_of_bounds_scenario LittleEndian /\ index_out_of_bounds_scenario BigEndian) /\
  (entry_past_the_file_scenario LittleEndian /\ entry_past_the_file_scenario BigEndian).
Proof.
  split; [split; apply index_bounds_broken; apply slen_zeros; lia|].
  split; apply entry_past_the_file.
Qed.

(** * Further properties *)

(** ** The index of a log, entry by entry *)

Lemma as_map_snoc (rs : list record) (ts : Z) (key value : string) :
  as_map (rs ++ [(ts, key, value)]) = <[key := value]> (as_map rs).
Proof. unfold as_map. now rewrite fold_left_app. Qed.

Lemma keys_of_snoc (rs : list record) (ts : Z) (key value : string) :
  keys_of (rs ++ [(ts, key, value)]) = keys_of rs ∪ {[ key ]}.
Proof.
  unfold keys_of. rewrite map_app, list_to_set_app_L. cbn [map list_to_set].
  now rewrite union_empty_r_L.
Qed.

Lemma keys_of_app (rs1 rs2 : list record) : keys_of (rs1 ++ rs2) = keys_of rs1 ∪ keys_of rs2.
Proof. unfold keys_of. now rewrite map_app, list_to_set_app_L. Qed.

(** Every entry of the index of a log shorter than [2^32] bytes describes
    the last record of its key: the timestamp of the record, the offset at
    which it starts and its size. *)
Lemma replay_entry (rs : list record) :
  logSize rs < 2 ^ 32 ->
  forall key,
    match KeyDir (replay rs newStore) !! key with
    | None => as_map rs !! key = None
    | Some e =>
        exists rs1 ts value rs2,
          rs = rs1 ++ (ts, key, value) :: rs2 /\
          as_map rs !! key = Some value /\
          e = mkKeyEntry ts (logSize rs1) (headerSize + slen key + slen value)
    end.
Proof.
  induction rs as [|r rs IH] using rev_ind; intros Hsz key.
  - cbn. now rewrite lookup_empty.
  - rewrite logSize_app in Hsz. change (logSize [r]) with (recordSize r + 0) in Hsz.
    pose proof (logSize_nonneg rs) as Hnn. pose proof (recordSize_pos r) as Hpos.
    unfold headerSize in Hpos.
    assert (Hlt : logSize rs < 2 ^ 32) by lia.
    specialize (IH Hlt key).
    assert (Hwp : writePos (replay rs newStore) = logSize rs)
      by (rewrite writePos_replay; apply uint32_small; lia).
    rewrite replay_snoc. destruct r as [[ts k] v]. rewrite as_map_snoc.
    unfold upsert. cbn [KeyDir]. rewrite Hwp.
    destruct (decide (k = key)) as [->|Hne].
    + rewrite !lookup_insert_eq. exists rs, ts, v, []. split; [reflexivity|].
      split; [reflexivity|]. cbn [recordSize] in *. now rewrite uint32_small by lia.
    + rewrite !lookup_insert_ne by assumption.
      destruct (KeyDir (replay rs newStore) !! key) as [e|]; [|exact IH].
      destruct IH as (rs1 & ts' & v' & rs2 & -> & Hm & ->).
      exists rs1, ts', v', (rs2 ++ [(ts, k, v)]). split; [now rewrite <- app_assoc|].
      now split.
Qed.

Lemma dom_replay (rs : list record) (d : DiskStore) :
  dom (KeyDir (replay rs d)) = dom (KeyDir d) ∪ keys_of rs.
Proof.
  induction rs as [|r rs IH] using rev_ind.
  - cbn. unfold keys_of. cbn. now rewrite union_empty_r_L.
  - rewrite replay_snoc. destruct r as [[ts k] v]. rewrite keys_of_snoc.
    unfold upsert. cbn [KeyDir]. rewrite dom_insert_L, IH, (comm_L (∪) {[k]}). now rewrite (assoc_L (∪)).
Qed.

Section Lookup.
Variable o : ByteOrder.

(** What [Get] returns on a store that tracks a log shorter than [2^32]
    bytes, of records of at most [maxRW] bytes each: the value of the last
    record of the key, and the empty string when the log has no record of
    the key. *)
Lemma Get_tracks (path : string) (rs : list record) (d : DiskStore) (w : World)
    (key : string) :
  tracks o path rs d w -> Forall valid_record rs -> logSize rs < 2 ^ 32 ->
  fst (Get o key d w) = Done (default EmptyString (as_map rs !! key)).
Proof.
  intros Ht Hv Hsz. pose proof (tracks_contents o path rs d w Ht) as Hc.
  destruct Ht as ([p Hf] & _ & _ & _ & Hkd).
  pose proof (replay_entry rs Hsz key) as He. rewrite <- Hkd in He.
  destruct (KeyDir d !! key) as [e|] eqn:Hk.
  - destruct He as (rs1 & ts & v & rs2 & -> & -> & ->).
    apply Forall_app in Hv as [_ Hv]. apply Forall_cons_1 in Hv as [(_ & Hmax) _].
    rewrite encodeLog_app, encodeLog_cons in Hc.
    rewrite (Get_hit o key d w path p _ (encodeLog o rs1) (encodeLog o rs2) ts key v
               Hf Hk Hc); try assumption; try reflexivity.
    cbn [writeOffSet]. now rewrite len_encodeLog.
  - rewrite He. now rewrite (Get_miss o key d w Hk).
Qed.

Lemma entry_tracks (path : string) (rs : list record) (d : DiskStore) (w : World)
    (key : string) (e : KeyEntry) :
  tracks o path rs d w -> logSize rs < 2 ^ 32 ->
  KeyDir d !! key = Some e ->
  exists pre value post,
    contents w path = pre ++ snd (encodeKV o (timestamp e) key value) ++ post /\
    writeOffSet e = len pre /\
    totalSize e = headerSize + slen key + slen value /\
    len pre + totalSize e <= len (contents w path).
Proof.
  intros Ht Hsz Hk. pose proof (tracks_contents o path rs d w Ht) as Hc.
  destruct Ht as (_ & _ & _ & _ & Hkd).
  pose proof (replay_entry rs Hsz key) as He. rewrite <- Hkd, Hk in He.
  destruct He as (rs1 & ts & v & rs2 & -> & Hm & ->).
  rewrite encodeLog_app, encodeLog_cons in Hc.
  exists (encodeLog o rs1), v, (encodeLog o rs2). cbn [timestamp writeOffSet totalSize].
  split; [exact Hc|]. split; [now rewrite len_encodeLog|]. split; [reflexivity|].
  rewrite Hc, !len_app, len_encodeKV. pose proof (len_nonneg (encodeLog o rs2)). lia.
Qed.

(** [Get] of a key reads the bytes of the entry of the key and no others:
    what it returns is the same after bytes have been appended to the
    file. *)
Lemma Get_append (key : string) (d d' : DiskStore) (w w' : World) (path : string)
    (p p' : Z) (e : KeyEntry) (extra : list byte) :
  file d = Some (mkOsFile path p false) -> file d' = Some (mkOsFile path p' false) ->
  KeyDir d !! key = Some e -> KeyDir d' !! key = Some e ->
  contents w' path = contents w path ++ extra ->
  0 <= writeOffSet e -> 0 <= totalSize e ->
  writeOffSet e + totalSize e <= len (contents w path) ->
  fst (Get o key d' w') = fst (Get o key d w).
Proof.
  intros Hf Hf' Hk Hk' Hc Hoff Hsz Hin. unfold Get. rewrite Hk, Hk', Hf, Hf'.
  unfold file_Seek. cbn [fclosed fname].
  destruct (Z.ltb_spec (writeOffSet e) 0); [lia|].
  unfold file_Read. cbn [fclosed fname fpos].
  destruct (Z.eqb_spec (totalSize e) 0) as [_|Hn].
  - now destruct (decodeKV o []) as [[[? ?] ?]|].
  - cbv zeta. rewrite Hc.
    assert (Hmin : Z.min (totalSize e) maxRW <= totalSize e) by lia.
    assert (Hmin0 : 0 <= Z.min (totalSize e) maxRW) by (unfold maxRW; lia).
    rewrite drop_app_le by (unfold len in Hin; lia).
    rewrite take_app_le by (rewrite length_drop; unfold len in Hin; lia).
    match goal with |- context [len ?g =? 0] => destruct (len g =? 0) end; [reflexivity|].
    match goal with |- context [decodeKV o ?b] => destruct (decodeKV o b) as [[[? ?] ?]|] end;
      reflexivity.
Qed.

End Lookup.

(** ** The store as a map *)

Section MapView.
Variable o : ByteOrder.

Lemma tracks_open_holds_log (path : string) (w : World) (rs0 : list record) :
  holds_log o w path rs0 -> path ∉ denied w ->
  exists d0 w0, NewDiskStore o path w = (Done (d0, None), w0) /\
                tracks o path rs0 d0 w0 /\ free w0 = free w /\ Forall valid_record rs0.
Proof.
  intros [[Habs ->]|[Hlog Hv]] Hperm.
  - destruct (tracks_open_absent o path w Habs Hperm) as (d0 & w0 & Hopen & Ht & Hfree).
    exists d0, w0. split; [exact Hopen|]. split; [exact Ht|]. split; [exact Hfree|].
    apply List.Forall_nil.
  - destruct (tracks_open_log o path w rs0 Hlog Hv Hperm) as (d0 & Hopen & Ht).
    exists d0, w. split; [exact Hopen|]. split; [exact Ht|]. now split.
Qed.

(** X1. The store answers like a map. [NewDiskStore] on an absent file or on
    a log, then any list of calls of [Set] that the disk has room for: as
    long as every record, of the log and of the calls, has at most [2^30]
    bytes, the most that one [Read] returns, and the file stays shorter
    than [2^32] bytes, all the calls return and [Get] of any key returns
    what the map built from the records of the log followed by the calls of
    [Set], in order, holds for the key, and the empty string when it holds
    nothing. *)
Theorem store_answers_like_a_map (path : string) (w : World) (rs0 : list record)
    (ops : list (Z * string * string)) :
  holds_log o w path rs0 -> path ∉ denied w ->
  logSize (records_of ops) <= free w ->
  Forall valid_record (records_of ops) ->
  logSize (rs0 ++ records_of ops) < 2 ^ 32 ->
  exists d0 w0 d' w',
    NewDiskStore o path w = (Done (d0, None), w0) /\
    run_sets o ops d0 w0 = (Done tt, d', w') /\
    forall key,
      fst (Get o key d' w')
      = Done (default EmptyString (as_map (rs0 ++ records_of ops) !! key)).
Proof.
  intros Hlog Hperm Hfree Hsmall Hsz.
  destruct (tracks_open_holds_log path w rs0 Hlog Hperm) as (d0 & w0 & Hopen & Ht0 & Hf0 & Hv0).
  destruct (run_sets_tracks o ops path rs0 d0 w0 Ht0) as (d' & w' & Hrun & Ht'); [lia|].
  exists d0, w0, d', w'. split; [exact Hopen|]. split; [exact Hrun|]. intros key.
  apply (Get_tracks o path _ d' w' key Ht'); [|exact Hsz].
  apply Forall_app. now split.
Qed.

(** X2. The key directory has the keys of the log, no more and no less:
    after [NewDiskStore] on an absent file or on a log of records of at
    most [2^30] bytes each, the keys of the directory are the keys of the
    records of the log, and after any list of calls of [Set] that the disk
    has room for they are those keys and the keys of the calls, whatever
    the sizes of the values set. No call removes a key. *)
Theorem index_has_the_keys_of_the_log (path : string) (w : World) (rs0 : list record)
    (ops : list (Z * string * string)) :
  holds_log o w path rs0 -> path ∉ denied w ->
  logSize (records_of ops) <= free w ->
  exists d0 w0 d' w',
    NewDiskStore o path w = (Done (d0, None), w0) /\
    run_sets o ops d0 w0 = (Done tt, d', w') /\
    dom (KeyDir d0) = keys_of rs0 /\
    dom (KeyDir d') = keys_of rs0 ∪ keys_of (records_of ops).
Proof.
  intros Hlog Hperm Hfree.
  destruct (tracks_open_holds_log path w rs0 Hlog Hperm) as (d0 & w0 & Hopen & Ht0 & Hf0 & _).
  destruct (run_sets_tracks o ops path rs0 d0 w0 Ht0) as (d' & w' & Hrun & Ht'); [lia|].
  exists d0, w0, d', w'. split; [exact Hopen|]. split; [exact Hrun|].
  destruct Ht0 as (_ & _ & _ & _ & ->). destruct Ht' as (_ & _ & _ & _ & ->).
  rewrite !dom_replay, keys_of_app. cbn [newStore KeyDir].
  now rewrite dom_empty_L, !union_empty_l_L.
Qed.

(** X3. [Set] of one key leaves the other keys as they are: on a reachable
    store, one that [NewDiskStore] opened on an absent file or on a log of
    records of at most [2^30] bytes each and that [Set] and [Get] have used
    since, when [Set key value] has returned and the file is still shorter
    than [2^32] bytes, [Get] of any other key ends as it did before the
    call and returns what it returned, whatever the sizes of the records:
    [Get] reads the bytes of the entry of its key, and [Set] has changed
    neither the entry nor the bytes. *)
Theorem Set_keeps_the_other_keys (path : string) (d : DiskStore) (w : World) (now : Z)
    (key value : string) (d' : DiskStore) (w' : World) (key' : string) :
  reachable o path d w ->
  Set_ o now key value d w = (Done tt, d', w') ->
  len (contents w' path) < 2 ^ 32 ->
  key' <> key ->
  fst (Get o key' d' w') = fst (Get o key' d w).
Proof.
  intros Hr HS Hlt Hne.
  destruct (reachable_tracks o path d w Hr) as (rs & Ht & _).
  destruct (tracks_Set o path rs d w now key value d' w' Ht HS) as [Ht' Hc'].
  pose proof (tracks_contents o path rs d w Ht) as Hc.
  assert (Hsz : logSize rs < 2 ^ 32).
  { rewrite <- (len_encodeLog o), <- Hc. rewrite Hc', len_app in Hlt.
    pose proof (len_nonneg (snd (encodeKV o (uint32 now) key value))). lia. }
  pose proof Ht as ([p Hf] & _ & _ & _ & Hkd).
  pose proof Ht' as ([p' Hf'] & _ & _ & _ & Hkd').
  assert (Hsame : KeyDir d' !! key' = KeyDir d !! key').
  { rewrite Hkd', replay_snoc, Hkd. unfold upsert. cbn [KeyDir].
    now rewrite lookup_insert_ne by (intros <-; now apply Hne). }
  destruct (KeyDir d !! key') as [e|] eqn:Hk.
  - destruct (entry_tracks o path rs d w key' e Ht Hsz Hk) as (pre & v & post & _ & Ho & Hs & Hin).
    pose proof (len_nonneg pre). pose proof (slen_nonneg key'). pose proof (slen_nonneg v).
    apply (Get_append o key' d d' w w' path p p' e _ Hf Hf' Hk Hsame Hc');
      unfold headerSize in *; lia.
  - now rewrite (Get_miss o key' d' w' Hsame), (Get_miss o key' d w Hk).
Qed.

(** X4. Every entry of the key directory points at a record of its key: on
    a reachable store whose file is shorter than [2^32] bytes, the file
    holds, at the offset of the entry, a record of the key with the
    timestamp and the size of the entry, within the file; and when the
    record has at most [2^30] bytes, the most that one [Read] returns,
    [Get] of the key returns the value of that record. *)
Theorem every_entry_points_at_a_record (path : string) (d : DiskStore) (w : World)
    (key : string) (e : KeyEntry) :
  reachable o path d w -> len (contents w path) < 2 ^ 32 ->
  KeyDir d !! key = Some e ->
  exists pre value post,
    contents w path = pre ++ snd (encodeKV o (timestamp e) key value) ++ post /\
    writeOffSet e = len pre /\
    totalSize e = headerSize + slen key + slen value /\
    (totalSize e <= maxRW -> fst (Get o key d w) = Done value).
Proof.
  intros Hr Hlt Hk.
  destruct (reachable_facts o path d w Hr Hlt) as (rs & p & Ht & _ & Hf & _ & _ & Hsz).
  destruct (entry_tracks o path rs d w key e Ht) as (pre & v & post & Hc & Ho & Hs & _);
    [lia|exact Hk|].
  exists pre, v, post. split; [exact Hc|]. split; [exact Ho|]. split; [exact Hs|].
  intros Hmax. rewrite Hs in Hmax.
  now rewrite (Get_hit o key d w path p e pre post (timestamp e) key v Hf Hk Hc Ho Hs Hmax).
Qed.

(** X5. Closing and reopening restores the store: on a reachable store
    whose file is shorter than [2^32] bytes and holds records of at most
    [2^30] bytes only, the most that one [Read] returns, [Close] returns,
    [NewDiskStore] on the same path returns a store without error and
    leaves the disk as it is, the key directory and [writePos] of the new
    store are those of the old one, and [Get] of every key returns what it
    returned before. *)
Theorem reopen_restores_the_store (path : string) (d : DiskStore) (w : World) :
  reachable o path d w -> len (contents w path) < 2 ^ 32 -> small_records o w path ->
  exists d1 d2,
    Close d = (Done tt, d1) /\
    NewDiskStore o path w = (Done (d2, None), w) /\
    KeyDir d2 = KeyDir d /\ writePos d2 = writePos d /\
    forall key, fst (Get o key d2 w) = fst (Get o key d w).
Proof.
  intros Hr Hlt Hsmall.
  destruct (reachable_small o path d w Hr Hlt Hsmall)
    as (rs & p & Ht & Hv & Hf & _ & _ & Hsz).
  pose proof Ht as (_ & Hperm & Hd & Hwp & Hkd).
  destruct (tracks_open_log o path w rs Hd Hv Hperm) as (d2 & Hopen & Ht2).
  pose proof Ht2 as (_ & _ & _ & Hwp2 & Hkd2).
  eexists. exists d2. split; [exact (Close_open d path p Hf)|]. split; [exact Hopen|].
  split; [congruence|]. split; [congruence|]. intros key.
  now rewrite (Get_tracks o path rs d2 w key Ht2), (Get_tracks o path rs d w key Ht) by
    (try assumption; lia).
Qed.

(** X6. [writePos] is the length of the file modulo [2^32]: on every
    reachable store, one that [NewDiskStore] opened on an absent file or on
    a log of records of at most [2^30] bytes each, whatever the sizes of
    the records that [Set] has written since, [writePos] is a 32-bit number
    and equals [uint32] of the length of the file. *)
Theorem writePos_is_the_file_length_mod_2_32 (path : string) (d : DiskStore) (w : World) :
  reachable o path d w ->
  writePos d = uint32 (len (contents w path)) /\ 0 <= writePos d < 2 ^ 32.
Proof.
  intros Hr. destruct (reachable_tracks o path d w Hr) as (rs & Ht & _).
  pose proof (tracks_contents o path rs d w Ht) as Hc.
  destruct Ht as (_ & _ & _ & Hwp & _).
  assert (H : writePos d = uint32 (len (contents w path)))
    by now rewrite Hwp, writePos_replay, Hc, len_encodeLog.
  split; [exact H|]. rewrite H. apply uint32_range.
Qed.

End MapView.

(** ** What [Set] writes, closed stores and files that cannot be opened *)

Section Edges.
Variable o : ByteOrder.

Lemma contents_insert_ne (w : World) (name name' : string) (c : list byte) (fr : Z)
    (dn : gset string) :
  name <> name' -> contents (mkWorld (<[name := c]> (disk w)) fr dn) name' = contents w name'.
Proof. intros Hne. unfold contents. cbn [disk]. now rewrite lookup_insert_ne. Qed.

Lemma file_Write_appends (w : World) (f : option OsFile) (data : list byte) :
  (forall name, contents w name `prefix_of` contents (snd (file_Write w f data)) name) /\
  (forall name, (forall h, f = Some h -> fname h <> name) ->
                disk (snd (file_Write w f data)) !! name = disk w !! name) /\
  (fst (fst (file_Write w f data)) = None ->
   exists h, f = Some h /\ fclosed h = false /\
             contents (snd (file_Write w f data)) (fname h) = contents w (fname h) ++ data).
Proof.
  unfold file_Write. destruct f as [h|]; [|cbn; repeat split; [reflexivity|discriminate]].
  destruct (fclosed h) eqn:Hcl; [cbn; repeat split; [reflexivity|discriminate]|].
  destruct (len data <=? free w); cbn [fst snd].
  - split; [|split].
    + intros name. destruct (decide (fname h = name)) as [<-|Hne].
      * rewrite contents_insert. now eexists.
      * now rewrite contents_insert_ne.
    + intros name Hname. cbn [disk]. apply lookup_insert_ne. now apply Hname.
    + intros _. exists h. now rewrite contents_insert.
  - split; [|split].
    + intros name. destruct (decide (fname h = name)) as [<-|Hne].
      * rewrite contents_insert. now eexists.
      * now rewrite contents_insert_ne.
    + intros name Hname. cbn [disk]. apply lookup_insert_ne. now apply Hname.
    + discriminate.
Qed.

(** X7. [Set] only appends. However the call ends, every file on the disk
    begins with the bytes it had before the call, and the files other than
    the store's are as before; when the call returns, the store's file is
    the old file followed by the encoded record. *)
Theorem Set_only_appends (now : Z) (key value : string) (d : DiskStore) (w : World) :
  (forall name,
      contents w name `prefix_of` contents (snd (Set_ o now key value d w)) name) /\
  (forall name, (forall h, file d = Some h -> fname h <> name) ->
                disk (snd (Set_ o now key value d w)) !! name = disk w !! name) /\
  (fst (fst (Set_ o now key value d w)) = Done tt ->
   exists h, file d = Some h /\
             contents (snd (Set_ o now key value d w)) (fname h)
             = contents w (fname h) ++ snd (encodeKV o (uint32 now) key value)).
Proof.
  unfold Set_. destruct (encodeKV o (uint32 now) key value) as [total data]. cbn [snd].
  destruct (file_Write_appends w (file d) data) as (Hpre & Hother & Hok).
  destruct (file_Write w (file d) data) as [[err f'] w']. cbn [fst snd] in *.
  destruct err as [e|]; cbn [fst snd].
  - split; [exact Hpre|]. split; [exact Hother|]. discriminate.
  - split; [exact Hpre|]. split; [exact Hother|]. intros _.
    destruct (Hok eq_refl) as (h & Hf & _ & Hc). now exists h.
Qed.

(** X8. A closed store ends the process. After [Close] has returned, the
    key directory and [writePos] are as before, and on the closed store a
    second [Close], every [Set] and every [Get] of a key that is in the key
    directory end the process with exit status 1, leaving the disk and the
    store as they are. *)
Theorem closed_store_ends_the_process (d d' : DiskStore) :
  Close d = (Done tt, d') ->
  KeyDir d' = KeyDir d /\ writePos d' = writePos d /\
  Close d' = (Exit 1, d') /\
  (forall now key value w, Set_ o now key value d' w = (Exit 1, d', w)) /\
  (forall key w, is_Some (KeyDir d' !! key) -> Get o key d' w = (Exit 1, d')).
Proof.
  unfold Close, file_Close. destruct d as [[[name p cl]|] wp kd]; cbn; [|discriminate].
  destruct cl; cbn; [discriminate|]. intros [= <-]. cbn.
  split; [reflexivity|]. split; [reflexivity|]. split; [reflexivity|]. split.
  - intros now key value w. unfold Set_.
    destruct (encodeKV o (uint32 now) key value) as [total data]. reflexivity.
  - intros key w [e He]. unfold Get. cbn [KeyDir]. rewrite He. reflexivity.
Qed.

(** X9. [Get] of a record that is not in the file any more ends the
    process: when the entry of the key has a size other than 0 and starts
    at or after the end of the file, the read returns [io.EOF] and [Get]
    exits with status 1; the key directory and [writePos] are as before. *)
Theorem Get_past_the_end_of_the_file_exits (key : string) (d : DiskStore) (w : World)
    (path : string) (p : Z) (e : KeyEntry) :
  file d = Some (mkOsFile path p false) ->
  KeyDir d !! key = Some e ->
  totalSize e <> 0 ->
  len (contents w path) <= writeOffSet e ->
  Get o key d w
  = (Exit 1, mkDiskStore (Some (mkOsFile path (writeOffSet e) false)) (writePos d) (KeyDir d)).
Proof.
  intros Hf Hk Hsz Hend. unfold Get. rewrite Hk, Hf. unfold file_Seek. cbn [fclosed fname].
  pose proof (len_nonneg (contents w path)).
  destruct (Z.ltb_spec (writeOffSet e) 0); [lia|].
  now rewrite file_Read_EOF.
Qed.

Lemma NewDiskStore_denied_existing (path : string) (w : World) :
  path ∈ denied w -> is_Some (disk w !! path) -> NewDiskStore o path w = (Exit 1, w).
Proof.
  intros Hden [c Hc]. unfold NewDiskStore, isFileExists, os_Stat, LoadKeys, os_Open.
  rewrite Hc. now destruct (decide (path ∈ denied w)).
Qed.

Lemma NewDiskStore_denied_absent (path : string) (w : World) :
  path ∈ denied w -> disk w !! path = None ->
  NewDiskStore o path w = (Done (mkDiskStore None 0 ∅, Some ErrPermission), w).
Proof.
  intros Hden Hc. unfold NewDiskStore, isFileExists, os_Stat, os_OpenFile.
  rewrite Hc. now destruct (decide (path ∈ denied w)).
Qed.

Lemma Set_nil_file (now : Z) (key value : string) (wp : Z) (kd : gmap string KeyEntry)
    (w : World) :
  Set_ o now key value (mkDiskStore None wp kd) w = (Exit 1, mkDiskStore None wp kd, w).
Proof.
  unfold Set_. now destruct (encodeKV o (uint32 now) key value) as [total data].
Qed.

(** X10. A file that cannot be opened. When the file exists, [LoadKeys]
    ends the process with exit status 1 and [NewDiskStore] returns nothing,
    not even the error. When there is no file and it cannot be created,
    [NewDiskStore] returns the error with an empty store, on which every
    [Get] returns the empty string and [Set] and [Close] end the process
    with exit status 1. The disk is as before in both cases. *)
Theorem NewDiskStore_on_a_file_it_cannot_open (path : string) (w : World) :
  path ∈ denied w ->
  (is_Some (disk w !! path) -> NewDiskStore o path w = (Exit 1, w)) /\
  (disk w !! path = None ->
   exists empty,
     NewDiskStore o path w = (Done (empty, Some ErrPermission), w) /\
     (forall key, Get o key empty w = (Done EmptyString, empty)) /\
     (forall now key value, Set_ o now key value empty w = (Exit 1, empty, w)) /\
     Close empty = (Exit 1, empty)).
Proof.
  intros Hden. split; [now apply NewDiskStore_denied_existing|]. intros Habs.
  exists (mkDiskStore None 0 ∅). split; [now apply NewDiskStore_denied_absent|].
  split; [|split].
  - intros key. apply Get_miss. apply lookup_empty.
  - intros now key value. apply Set_nil_file.
  - reflexivity.
Qed.

Lemma loadLoop_frame (fuel : nat) :
  forall w f d d',
    loadLoop o fuel w f d = Done d' -> 0 <= writePos d < 2 ^ 32 ->
    file d' = file d /\ 0 <= writePos d' < 2 ^ 32.
Proof.
  induction fuel as [|fuel IH]; intros w f d d'; [discriminate|].
  cbn [loadLoop]. destruct (loadStep o w f d) as [[f1 d1]|] eqn:Hstep.
  - intros Hloop Hwp. unfold loadStep in Hstep.
    destruct (file_Read w f headerSize) as [[buffer [err|]] f2]; [discriminate|].
    destruct (decodeHeader o buffer) as [[ts ks] vs].
    destruct (file_Read w f2 ks) as [[kb [err|]] f3]; [discriminate|].
    destruct (file_Read w f3 vs) as [[vb [err|]] f4]; [discriminate|].
    injection Hstep as <- <-.
    destruct (IH w f4 _ d' Hloop) as [Hf Hr]; [cbn [writePos]; apply uint32_range|].
    now split.
  - intros [= <-] Hwp. now split.
Qed.

(** [NewDiskStore] on a file that can be opened: the store is open on it and
    the free space is as before. *)
Lemma NewDiskStore_opens (path : string) (w : World) :
  path ∉ denied w ->
  exists d w',
    NewDiskStore o path w = (Done (d, None), w') /\
    file d = Some (mkOsFile path 0 false) /\ free w' = free w.
Proof.
  intros Hperm. unfold NewDiskStore, isFileExists, os_Stat.
  destruct (disk w !! path) as [c|] eqn:Hc.
  - destruct (LoadKeys_total o path (mkDiskStore None 0 ∅) w Hperm) as [d' ->];
      [now rewrite Hc|].
    unfold os_OpenFile. rewrite Hc.
    destruct (decide (path ∈ denied w)); [contradiction|]. now eexists _, _.
  - unfold os_OpenFile. rewrite Hc.
    destruct (decide (path ∈ denied w)); [contradiction|]. now eexists _, _.
Qed.

(** X11. Recovery cannot fail. Whatever the file holds, when it can be
    opened [NewDiskStore] returns a store and no error: [LoadKeys] comes to
    the end of its loop within the fuel, the store is open on the file at
    offset 0 with a 32-bit [writePos], every file is as before, and the
    only change of the disk is the empty file made when there was none. *)
Theorem NewDiskStore_opens_whatever_the_file_holds (path : string) (w : World) :
  path ∉ denied w ->
  exists d w',
    NewDiskStore o path w = (Done (d, None), w') /\
    file d = Some (mkOsFile path 0 false) /\
    0 <= writePos d < 2 ^ 32 /\
    (forall name, contents w' name = contents w name) /\
    (is_Some (disk w !! path) -> w' = w) /\
    free w' = free w /\ denied w' = denied w.
Proof.
  intros Hperm. unfold NewDiskStore, isFileExists, os_Stat.
  destruct (disk w !! path) as [c|] eqn:Hc.
  - destruct (LoadKeys_total o path (mkDiskStore None 0 ∅) w Hperm) as [d' Hload];
      [now rewrite Hc|].
    rewrite Hload. unfold os_OpenFile. rewrite Hc.
    destruct (decide (path ∈ denied w)); [contradiction|].
    eexists _, _. split; [reflexivity|]. cbn [file writePos].
    split; [reflexivity|]. split; [|now repeat split].
    unfold LoadKeys, os_Open in Hload. rewrite Hc in Hload.
    destruct (decide (path ∈ denied w)); [contradiction|].
    apply loadLoop_frame in Hload; [tauto|cbn; lia].
  - unfold os_OpenFile. rewrite Hc.
    destruct (decide (path ∈ denied w)); [contradiction|].
    eexists _, _. split; [reflexivity|]. cbn [file writePos free denied].
    split; [reflexivity|]. split; [lia|]. split; [|split; [|now split]].
    + intros name. destruct (decide (path = name)) as [<-|Hne].
      * rewrite contents_insert. unfold contents. now rewrite Hc.
      * now rewrite contents_insert_ne.
    + intros [? ?]. discriminate.
Qed.

End Edges.

(** ** The programs *)

Lemma length_le_logSize (rs : list record) : Z.of_nat (length rs) <= logSize rs.
Proof.
  induction rs as [|r rs IH]; [cbn; lia|].
  change (logSize (r :: rs)) with (recordSize r + logSize rs).
  pose proof (recordSize_pos r). unfold headerSize in *. cbn [length]. lia.
Qed.

Section Programs.
Variable o : ByteOrder.

Lemma Set_Get_tracks (path : string) (rs : list record) (d : DiskStore) (w : World)
    (now : Z) (key value : string) :
  tracks o path rs d w -> Forall valid_record rs ->
  logSize rs + (headerSize + slen key + slen value) < 2 ^ 32 ->
  headerSize + slen key + slen value <= maxRW ->
  headerSize + slen key + slen value <= free w ->
  exists d1 w1 d2,
    Set_ o now key value d w = (Done tt, d1, w1) /\
    Get o key d1 w1 = (Done value, d2) /\
    tracks o path (rs ++ [(uint32 now, key, value)]) d2 w1 /\
    Forall valid_record (rs ++ [(uint32 now, key, value)]) /\
    free w1 = free w - (headerSize + slen key + slen value) /\
    contents w1 path = contents w path ++ snd (encodeKV o (uint32 now) key value).
Proof.
  intros Ht Hv Hsz Hmax Hfree.
  pose proof (logSize_nonneg rs). pose proof (slen_nonneg key). pose proof (slen_nonneg value).
  pose proof (uint32_range now).
  destruct (tracks_Set_ok o path rs d w now key value Ht Hfree)
    as (d1 & w1 & HS & Ht1 & Hf1 & Hc1).
  assert (Hv1 : Forall valid_record (rs ++ [(uint32 now, key, value)])).
  { apply Forall_app. split; [assumption|]. constructor; [|constructor].
    unfold valid_record. split; [lia|exact Hmax]. }
  assert (HG : fst (Get o key d1 w1) = Done value).
  { rewrite (Get_tracks o path _ d1 w1 key Ht1 Hv1).
    - now rewrite as_map_snoc, lookup_insert_eq.
    - rewrite logSize_app.
      change (logSize [(uint32 now, key, value)])
        with (headerSize + slen key + slen value + 0). lia. }
  exists d1, w1, (snd (Get o key d1 w1)). split; [exact HS|].
  split; [now rewrite <- HG, <- surjective_pairing|].
  split; [now apply tracks_Get|]. now repeat split.
Qed.

(** One iteration of the loop of [LoadKeys] at a record of at most [maxRW]
    bytes: the store it makes and the line it prints. *)
Lemma loadStep_record (w : World) (name : string) (pre post : list byte) (ts : Z)
    (k v : string) (d : DiskStore) :
  contents w name = pre ++ snd (encodeKV o ts k v) ++ post -> valid_record (ts, k, v) ->
  loadStep o w (Some (mkOsFile name (len pre) false)) d
  = Some (Some (mkOsFile name (len (pre ++ snd (encodeKV o ts k v))) false),
          upsert (ts, k, v) d) /\
  loadStep_prints o w (Some (mkOsFile name (len pre) false)) = loaded_key k v.
Proof.
  intros Hc (Hts & Hmax).
  pose proof (slen_nonneg k). pose proof (slen_nonneg v).
  unfold headerSize, maxRW in Hmax.
  assert (Hk : slen k < 2 ^ 32) by lia. assert (Hvl : slen v < 2 ^ 32) by lia.
  unfold encodeKV in Hc. cbn [snd] in Hc.
  rewrite (uint32_small (slen k)), (uint32_small (slen v)), <- !app_assoc in Hc by lia.
  assert (H1 : file_Read w (Some (mkOsFile name (len pre) false)) headerSize
               = (encodeHeader o ts (slen k) (slen v), None,
                  Some (mkOsFile name (len pre + headerSize) false))).
  { apply (file_Read_exact' w name pre _
             (list_byte_of_string k ++ list_byte_of_string v ++ post));
      [exact Hc|reflexivity|now rewrite len_encodeHeader|unfold headerSize, maxRW; lia]. }
  assert (H2 : file_Read w (Some (mkOsFile name (len pre + headerSize) false)) (slen k)
               = (list_byte_of_string k, None,
                  Some (mkOsFile name (len pre + headerSize + slen k) false))).
  { apply (file_Read_exact' w name (pre ++ encodeHeader o ts (slen k) (slen v)) _
             (list_byte_of_string v ++ post));
      [now rewrite Hc, <- !app_assoc|now rewrite len_app, len_encodeHeader
      |now rewrite len_list_byte_of_string|unfold maxRW; lia]. }
  assert (H3 : file_Read w (Some (mkOsFile name (len pre + headerSize + slen k) false)) (slen v)
               = (list_byte_of_string v, None,
                  Some (mkOsFile name (len pre + headerSize + slen k + slen v) false))).
  { apply (file_Read_exact' w name
             (pre ++ encodeHeader o ts (slen k) (slen v) ++ list_byte_of_string k) _ post);
      [now rewrite Hc, <- !app_assoc
      |rewrite !len_app, len_encodeHeader, len_list_byte_of_string; lia
      |now rewrite len_list_byte_of_string|unfold maxRW; lia]. }
  unfold loadStep, loadStep_prints.
  rewrite H1, decodeHeader_encodeHeader.
  rewrite (uint32_small ts), (uint32_small (slen k)), (uint32_small (slen v)) by lia.
  rewrite H2, H3, !string_of_list_byte_of_string.
  split; [|reflexivity].
  rewrite len_app, len_encodeKV. unfold upsert. cbn [recordSize].
  replace (len pre + (headerSize + slen k + slen v))
    with (len pre + headerSize + slen k + slen v) by lia.
  reflexivity.
Qed.

Lemma loadStep_end (w : World) (name : string) (p : Z) (d : DiskStore) :
  len (contents w name) <= p ->
  loadStep o w (Some (mkOsFile name p false)) d = None /\
  loadStep_prints o w (Some (mkOsFile name p false)) = done_reading.
Proof.
  intros Hp. unfold loadStep, loadStep_prints.
  now rewrite file_Read_EOF by (try assumption; discriminate).
Qed.

(** The lines of [LoadKeys] on a log of records of at most [maxRW] bytes
    each: one for every record, then the one of the end of the file. *)
Lemma loadLoop_prints_log (rs : list record) :
  forall fuel w name pre d,
    contents w name = pre ++ encodeLog o rs ->
    Forall valid_record rs ->
    (length rs < fuel)%nat ->
    loadLoop_prints o fuel w (Some (mkOsFile name (len pre) false)) d
    = loaded_lines rs ++ [done_reading].
Proof.
  induction rs as [|[[ts k] v] rs IH]; intros fuel w name pre d Hc Hv Hfuel.
  - destruct fuel as [|fuel]; [cbn in Hfuel; lia|]. cbn [loadLoop_prints].
    destruct (loadStep_end w name (len pre) d) as [-> ->]; [|reflexivity].
    rewrite Hc. unfold encodeLog. cbn. rewrite app_nil_r. lia.
  - destruct fuel as [|fuel]; [cbn in Hfuel; lia|]. cbn [length] in Hfuel.
    apply Forall_cons_1 in Hv as [Hr Hv]. rewrite encodeLog_cons in Hc.
    cbn [loadLoop_prints].
    destruct (loadStep_record w name pre (encodeLog o rs) ts k v d) as [-> ->];
      [exact Hc|exact Hr|].
    rewrite (IH fuel w name (pre ++ snd (encodeKV o ts k v)));
      [reflexivity|now rewrite Hc, app_assoc|exact Hv|lia].
Qed.

Lemma NewDiskStore_prints_holds_log (path : string) (w : World) (rs0 : list record) :
  holds_log o w path rs0 -> path ∉ denied w ->
  NewDiskStore_prints o path w
  = if isFileExists w path then loaded_lines rs0 ++ [done_reading] else [].
Proof.
  intros [[Habs ->]|[Hlog Hv]] Hperm;
    unfold NewDiskStore_prints, isFileExists, os_Stat.
  - now rewrite Habs.
  - rewrite Hlog. unfold LoadKeys_prints, os_Open. rewrite Hlog.
    destruct (decide (path ∈ denied w)); [contradiction|].
    change 0 with (len (@nil byte)).
    apply loadLoop_prints_log; [|exact Hv|].
    + unfold contents. now rewrite Hlog.
    + pose proof (length_le_logSize rs0) as Hle.
      rewrite <- (len_encodeLog o) in Hle.
      unfold contents. rewrite Hlog. cbn [default from_option id]. unfold len in Hle. lia.
Qed.

(** A call that returns has printed nothing. *)
Lemma Set_prints_Done now key value d w d' w' :
  Set_ o now key value d w = (Done tt, d', w') -> Set_prints o now key value d w = [].
Proof.
  unfold Set_, Set_prints. destruct (encodeKV o (uint32 now) key value) as [total data].
  destruct (file_Write w (file d) data) as [[[err|] f'] w1]; [discriminate|reflexivity].
Qed.

Lemma Get_prints_Done key d w value d' :
  Get o key d w = (Done value, d') -> Get_prints key d w = [].
Proof.
  unfold Get, Get_prints. destruct (KeyDir d !! key) as [e|]; [|reflexivity].
  destruct (file_Seek (file d) (writeOffSet e)) as [[err|] f1]; [discriminate|].
  destruct (file_Read w f1 (totalSize e)) as [[buffer [err|]] f2]; [discriminate|].
  reflexivity.
Qed.

Lemma Close_prints_Done d d' : Close d = (Done tt, d') -> Close_prints d = [].
Proof.
  unfold Close, Close_prints.
  destruct (file_Close (file d)) as [[err|] f1]; [discriminate|reflexivity].
Qed.

Lemma Set_prints_error now key value d w err f' w' :
  file_Write w (file d) (snd (encodeKV o (uint32 now) key value)) = (Some err, f', w') ->
  Set_prints o now key value d w = [error_writing_kv err].
Proof.
  intros Hw. unfold Set_prints.
  destruct (encodeKV o (uint32 now) key value) as [total data]. cbn [snd] in Hw.
  now rewrite Hw.
Qed.

(** [LoadKeys] prints no value that [main] has read. *)
Lemma loadStep_prints_not_value_read w f value : loadStep_prints o w f <> value_read value.
Proof.
  unfold loadStep_prints.
  destruct (file_Read w f headerSize) as [[buffer [[]|]] f1]; try discriminate.
  destruct (decodeHeader o buffer) as [[ts ks] vs].
  destruct (file_Read w f1 ks) as [[kb [err|]] f2]; [discriminate|].
  destruct (file_Read w f2 vs) as [[vb [err|]] f3]; discriminate.
Qed.

Lemma loadLoop_prints_not_value_read (fuel : nat) :
  forall w f d value, value_read value ∉ loadLoop_prints o fuel w f d.
Proof.
  induction fuel as [|fuel IH]; intros w f d value; cbn [loadLoop_prints].
  - apply not_elem_of_nil.
  - apply not_elem_of_cons. split.
    + intros H. symmetry in H. now apply loadStep_prints_not_value_read in H.
    + destruct (loadStep o w f d) as [[f1 d1]|]; [apply IH|apply not_elem_of_nil].
Qed.

Lemma NewDiskStore_prints_not_value_read path w value :
  value_read value ∉ NewDiskStore_prints o path w.
Proof.
  unfold NewDiskStore_prints. destruct (isFileExists w path); [|apply not_elem_of_nil].
  unfold LoadKeys_prints. destruct (os_Open w path) as [f|err].
  - apply loadLoop_prints_not_value_read.
  - apply not_elem_of_cons. split; [discriminate|apply not_elem_of_nil].
Qed.

(** X12. [main] reads back what it wrote. On a disk where books.db is
    absent or is a log of records of at most [2^30] bytes each, with room
    for the two records of 30 and 32 bytes and a file that stays shorter
    than [2^32] bytes, [main] returns. The standard output has the lines of
    [LoadKeys] when the file exists, one for every record of the log and
    the one of the end of the file, and then the two lines of [main] with
    the values "shakespeare" and "tolstoy", in either byte order and
    whatever the clock reads. books.db is the old file followed by the two
    records, a log again. *)
Theorem main_reads_what_it_wrote (now1 now2 : Z) (w : World) (rs0 : list record) :
  holds_log o w "books.db" rs0 -> "books.db"%string ∉ denied w ->
  len (contents w "books.db") + 62 < 2 ^ 32 -> 62 <= free w ->
  exists w',
    MainGo.main o now1 now2 w
    = (Done tt,
       ((if isFileExists w "books.db" then loaded_lines rs0 ++ [done_reading] else [])
        ++ [value_read "shakespeare"; value_read "tolstoy"], w')) /\
    contents w' "books.db"
    = contents w "books.db"
      ++ snd (encodeKV o (uint32 now1) "othello" "shakespeare")
      ++ snd (encodeKV o (uint32 now2) "war and peace" "tolstoy") /\
    holds_log o w' "books.db"
      (rs0 ++ [(uint32 now1, "othello", "shakespeare");
               (uint32 now2, "war and peace", "tolstoy")]%string) /\
    ("books.db"%string ∉ denied w') /\
    free w' = free w - 62.
Proof.
  intros Hlog Hperm Hlt Hfree.
  pose proof (NewDiskStore_prints_holds_log "books.db" w rs0 Hlog Hperm) as Hout.
  destruct (tracks_open_holds_log o "books.db" w rs0 Hlog Hperm)
    as (d0 & w0 & Hopen & Ht0 & Hf0 & Hv0).
  assert (Hc0 : contents w0 "books.db" = contents w "books.db").
  { rewrite (tracks_contents o _ _ _ _ Ht0).
    destruct Hlog as [[Habs ->]|[Hl _]]; unfold contents; [now rewrite Habs|now rewrite Hl]. }
  assert (Hsz : logSize rs0 = len (contents w "books.db"))
    by now rewrite <- Hc0, (tracks_contents o _ _ _ _ Ht0), len_encodeLog.
  destruct (Set_Get_tracks "books.db" rs0 d0 w0 now1 "othello" "shakespeare" Ht0 Hv0)
    as (d1 & w1 & d2 & HS1 & HG1 & Ht2 & Hv2 & Hf1 & Hc1).
  { change (headerSize + slen "othello" + slen "shakespeare") with 30. lia. }
  { vm_compute. discriminate. }
  { change (headerSize + slen "othello" + slen "shakespeare") with 30. lia. }
  change (headerSize + slen "othello" + slen "shakespeare") with 30 in Hf1.
  destruct (Set_Get_tracks "books.db" _ d2 w1 now2 "war and peace" "tolstoy" Ht2 Hv2)
    as (d3 & w3 & d4 & HS2 & HG2 & Ht4 & Hv4 & Hf3 & Hc3).
  { rewrite logSize_app.
    change (logSize [(uint32 now1, "othello"%string, "shakespeare"%string)]) with 30.
    change (headerSize + slen "war and peace" + slen "tolstoy") with 32. lia. }
  { vm_compute. discriminate. }
  { change (headerSize + slen "war and peace" + slen "tolstoy") with 32. lia. }
  change (headerSize + slen "war and peace" + slen "tolstoy") with 32 in Hf3.
  rewrite <- app_assoc in Ht4, Hv4. cbn [app] in Ht4, Hv4.
  destruct Ht4 as ([p4 Hfile4] & Hperm4 & Hd4 & _).
  pose proof (Close_open d4 "books.db" p4 Hfile4) as Hclose.
  exists w3. split; [|split; [|split; [|split]]].
  - unfold MainGo.main. rewrite Hout, Hopen. cbv beta iota zeta delta [and_then].
    rewrite (Set_prints_Done _ _ _ _ _ _ _ HS1), HS1. cbv beta iota zeta.
    rewrite (Get_prints_Done _ _ _ _ _ HG1), HG1. cbv beta iota zeta.
    rewrite (Set_prints_Done _ _ _ _ _ _ _ HS2), HS2. cbv beta iota zeta.
    rewrite (Get_prints_Done _ _ _ _ _ HG2), HG2. cbv beta iota zeta.
    rewrite (Close_prints_Done _ _ Hclose), Hclose. cbv beta iota zeta.
    rewrite !app_nil_r, <- ?app_assoc. reflexivity.
  - now rewrite Hc3, Hc1, Hc0, <- app_assoc.
  - right. split; [exact Hd4|exact Hv4].
  - exact Hperm4.
  - lia.
Qed.

(** X13. [main] does not look at the error of [NewDiskStore]. When books.db
    cannot be opened, or when the disk has fewer than the 30 free bytes of
    the first record, [main] ends in the process exiting with status 1 and
    never prints a value it has read. When the file exists and cannot be
    opened, [LoadKeys] prints its message and exits; when there is no file
    and none can be made, [main] goes on with the empty store that came
    with the error and the first [Set] prints its message and exits; in
    both cases the disk is as before. When the file can be opened and the
    disk is full, the output is that of [LoadKeys] followed by the message
    of the write that failed. *)
Theorem main_exits_when_it_cannot_write (now1 now2 : Z) (w : World) :
  "books.db"%string ∈ denied w \/ free w < 30 ->
  exists out w',
    MainGo.main o now1 now2 w = (Exit 1, (out, w')) /\
    (forall value, value_read value ∉ out) /\
    ("books.db"%string ∈ denied w ->
     w' = w /\
     out = if isFileExists w "books.db" then [error_loading_keys ErrPermission]
           else [error_writing_kv ErrInvalid]) /\
    ("books.db"%string ∉ denied w ->
     out = NewDiskStore_prints o "books.db" w ++ [error_writing_kv ErrNoSpace]).
Proof.
  intros Hcase. unfold MainGo.main.
  destruct (decide ("books.db"%string ∈ denied w)) as [Hden|Hperm].
  - destruct (disk w !! "books.db"%string) as [c|] eqn:Hc.
    + rewrite (NewDiskStore_denied_existing o "books.db" w Hden) by now rewrite Hc.
      assert (Hout : NewDiskStore_prints o "books.db" w = [error_loading_keys ErrPermission]).
      { unfold NewDiskStore_prints, isFileExists, os_Stat, LoadKeys_prints, os_Open.
        rewrite Hc. now destruct (decide ("books.db"%string ∈ denied w)). }
      rewrite Hout. eexists _, _. split; [reflexivity|]. split; [|split].
      * intros value. apply not_elem_of_cons. split; [discriminate|apply not_elem_of_nil].
      * intros _. unfold isFileExists, os_Stat. now rewrite Hc.
      * contradiction.
    + rewrite (NewDiskStore_denied_absent o "books.db" w Hden Hc).
      assert (Hout : NewDiskStore_prints o "books.db" w = []).
      { unfold NewDiskStore_prints, isFileExists, os_Stat. now rewrite Hc. }
      rewrite Hout. cbv beta iota zeta delta [and_then]. rewrite Set_nil_file.
      rewrite (Set_prints_error now1 "othello" "shakespeare" (mkDiskStore None 0 ∅) w
                 ErrInvalid None w) by reflexivity.
      eexists _, _. split; [reflexivity|]. split; [|split].
      * intros value. apply not_elem_of_cons. split; [discriminate|apply not_elem_of_nil].
      * intros _. unfold isFileExists, os_Stat. now rewrite Hc.
      * contradiction.
  - destruct Hcase as [Hden|Hfull]; [contradiction|].
    destruct (NewDiskStore_opens o "books.db" w Hperm) as (d0 & w0 & Hopen & Hfile & Hfree).
    rewrite Hopen. cbv beta iota zeta delta [and_then].
    assert (Hw : file_Write w0 (file d0) (snd (encodeKV o (uint32 now1) "othello" "shakespeare"))
                 = (Some ErrNoSpace,
                    snd (fst (file_Write w0 (file d0)
                                (snd (encodeKV o (uint32 now1) "othello" "shakespeare")))),
                    snd (file_Write w0 (file d0)
                           (snd (encodeKV o (uint32 now1) "othello" "shakespeare"))))).
    { rewrite Hfile. unfold file_Write. cbn [fclosed fname].
      rewrite len_encodeKV. change (headerSize + slen "othello" + slen "shakespeare") with 30.
      destruct (Z.leb_spec 30 (free w0)); [lia|reflexivity]. }
    rewrite (Set_write_error o _ _ _ _ _ _ _ _ Hw), (Set_prints_error _ _ _ _ _ _ _ _ Hw).
    eexists _, _. split; [reflexivity|]. split; [|split].
    + intros value. apply not_elem_of_app. split.
      * apply NewDiskStore_prints_not_value_read.
      * apply not_elem_of_cons. split; [discriminate|apply not_elem_of_nil].
    + contradiction.
    + reflexivity.
Qed.

(** X14. The second program sees the last write. On a disk where books.db
    is absent or is a log of records of at most [2^30] bytes each, with
    room for the two records of 31 bytes each and a file that stays shorter
    than [2^32] bytes, [main] returns. The standard output has the lines of
    [LoadKeys] when the file exists and then the line of [main] with
    "shakespeare2", the value of the second [Set] of the key, and books.db
    is the old file followed by both records, a log again. *)
Theorem main_000_reads_the_last_write (now1 now2 : Z) (w : World) (rs0 : list record) :
  holds_log o w "books.db" rs0 -> "books.db"%string ∉ denied w ->
  len (contents w "books.db") + 62 < 2 ^ 32 -> 62 <= free w ->
  exists w',
    Part000.main o now1 now2 w
    = (Done tt,
       ((if isFileExists w "books.db" then loaded_lines rs0 ++ [done_reading] else [])
        ++ [value_read "shakespeare2"], w')) /\
    contents w' "books.db"
    = contents w "books.db"
      ++ snd (encodeKV o (uint32 now1) "othello" "shakespeare1")
      ++ snd (encodeKV o (uint32 now2) "othello" "shakespeare2") /\
    holds_log o w' "books.db"
      (rs0 ++ [(uint32 now1, "othello", "shakespeare1");
               (uint32 now2, "othello", "shakespeare2")]%string) /\
    ("books.db"%string ∉ denied w') /\
    free w' = free w - 62.
Proof.
  intros Hlog Hperm Hlt Hfree.
  pose proof (NewDiskStore_prints_holds_log "books.db" w rs0 Hlog Hperm) as Hout.
  destruct (tracks_open_holds_log o "books.db" w rs0 Hlog Hperm)
    as (d0 & w0 & Hopen & Ht0 & Hf0 & Hv0).
  assert (Hc0 : contents w0 "books.db" = contents w "books.db").
  { rewrite (tracks_contents o _ _ _ _ Ht0).
    destruct Hlog as [[Habs ->]|[Hl _]]; unfold contents; [now rewrite Habs|now rewrite Hl]. }
  assert (Hsz : logSize rs0 = len (contents w "books.db"))
    by now rewrite <- Hc0, (tracks_contents o _ _ _ _ Ht0), len_encodeLog.
  destruct (tracks_Set_ok o "books.db" rs0 d0 w0 now1 "othello" "shakespeare1" Ht0)
    as (d1 & w1 & HS1 & Ht1 & Hf1 & Hc1).
  { change (headerSize + slen "othello" + slen "shakespeare1") with 31. lia. }
  change (headerSize + slen "othello" + slen "shakespeare1") with 31 in Hf1.
  assert (Hv1 : Forall valid_record (rs0 ++ [(uint32 now1, "othello"%string,
                                             "shakespeare1"%string)])).
  { apply Forall_app. split; [assumption|]. constructor; [|constructor].
    pose proof (uint32_range now1). unfold valid_record. split; [lia|].
    vm_compute. discriminate. }
  destruct (Set_Get_tracks "books.db" _ d1 w1 now2 "othello" "shakespeare2" Ht1 Hv1)
    as (d2 & w2 & d3 & HS2 & HG2 & Ht3 & Hv3 & Hf2 & Hc2).
  { rewrite logSize_app.
    change (logSize [(uint32 now1, "othello"%string, "shakespeare1"%string)]) with 31.
    change (headerSize + slen "othello" + slen "shakespeare2") with 31. lia. }
  { vm_compute. discriminate. }
  { change (headerSize + slen "othello" + slen "shakespeare2") with 31. lia. }
  change (headerSize + slen "othello" + slen "shakespeare2") with 31 in Hf2.
  rewrite <- app_assoc in Ht3, Hv3. cbn [app] in Ht3, Hv3.
  destruct Ht3 as ([p3 Hfile3] & Hperm3 & Hd3 & _).
  pose proof (Close_open d3 "books.db" p3 Hfile3) as Hclose.
  exists w2. split; [|split; [|split; [|split]]].
  - unfold Part000.main. rewrite Hout, Hopen. cbv beta iota zeta delta [and_then].
    rewrite (Set_prints_Done _ _ _ _ _ _ _ HS1), HS1. cbv beta iota zeta.
    rewrite (Set_prints_Done _ _ _ _ _ _ _ HS2), HS2. cbv beta iota zeta.
    rewrite (Get_prints_Done _ _ _ _ _ HG2), HG2. cbv beta iota zeta.
    rewrite (Close_prints_Done _ _ Hclose), Hclose. cbv beta iota zeta.
    rewrite !app_nil_r, <- ?app_assoc. reflexivity.
  - now rewrite Hc2, Hc1, Hc0, <- app_assoc.
  - right. split; [exact Hd3|exact Hv3].
  - exact Hperm3.
  - lia.
Qed.

End Programs.

(** ** Stray bytes after a log *)

Section StrayBytes.
Variable o : ByteOrder.

Lemma loadLoop_log_then (rs : list record) :
  forall fuel w name pre post d,
    contents w name = pre ++ encodeLog o rs ++ post ->
    Forall valid_record rs ->
    loadLoop o (length rs + fuel) w (Some (mkOsFile name (len pre) false)) d
    = loadLoop o fuel w (Some (mkOsFile name (len (pre ++ encodeLog o rs)) false)) (replay rs d).
Proof.
  induction rs as [|[[ts k] v] rs IH]; intros fuel w name pre post d Hc Hv.
  - cbn [length Nat.add replay fold_left]. unfold encodeLog. cbn. now rewrite app_nil_r.
  - apply Forall_cons_1 in Hv as [(Hts & Hmax) Hv].
    pose proof (slen_nonneg k). pose proof (slen_nonneg v).
    unfold headerSize, maxRW in Hmax.
    assert (Hk : slen k < 2 ^ 32) by lia. assert (Hvl : slen v < 2 ^ 32) by lia.
    rewrite encodeLog_cons in Hc. unfold encodeKV in Hc. cbn [snd] in Hc.
    rewrite <- !app_assoc in Hc.
    cbn [length Nat.add loadLoop]. unfold loadStep.
    rewrite (file_Read_exact' w name pre
               (encodeHeader o ts (uint32 (slen k)) (uint32 (slen v)))
               (list_byte_of_string k ++ list_byte_of_string v ++ encodeLog o rs ++ post)).
    2:{ exact Hc. }
    2:{ reflexivity. }
    2:{ now rewrite len_encodeHeader. }
    2:{ unfold headerSize, maxRW. lia. }
    rewrite decodeHeader_encodeHeader, !uint32_idemp.
    rewrite (uint32_small ts), (uint32_small (slen k)), (uint32_small (slen v)) by lia.
    rewrite (uint32_small (slen k)), (uint32_small (slen v)) in Hc by lia.
    rewrite (file_Read_exact' w name
               (pre ++ encodeHeader o ts (slen k) (slen v))
               (list_byte_of_string k)
               (list_byte_of_string v ++ encodeLog o rs ++ post)).
    2:{ rewrite Hc. now rewrite <- !app_assoc. }
    2:{ now rewrite len_app, len_encodeHeader. }
    2:{ now rewrite len_list_byte_of_string. }
    2:{ unfold maxRW. lia. }
    rewrite (file_Read_exact' w name
               (pre ++ encodeHeader o ts (slen k) (slen v) ++ list_byte_of_string k)
               (list_byte_of_string v)
               (encodeLog o rs ++ post)).
    2:{ rewrite Hc. now rewrite <- !app_assoc. }
    2:{ rewrite !len_app, len_encodeHeader, len_list_byte_of_string. lia. }
    2:{ now rewrite len_list_byte_of_string. }
    2:{ unfold maxRW. lia. }
    rewrite string_of_list_byte_of_string.
    replace (len pre + headerSize + slen k + slen v)
      with (len (pre ++ snd (encodeKV o ts k v)))
      by (rewrite len_app, len_encodeKV; lia).
    rewrite (IH fuel w name (pre ++ snd (encodeKV o ts k v)) post).
    + rewrite encodeLog_cons, <- app_assoc. reflexivity.
    + rewrite Hc. unfold encodeKV. cbn [snd].
      rewrite (uint32_small (slen k)), (uint32_small (slen v)) by lia.
      now rewrite <- !app_assoc.
    + assumption.
Qed.

Lemma file_Read_short (w : World) (name : string) (pre tail : list byte) (n : Z) :
  contents w name = pre ++ tail -> 0 < len tail < n -> len tail <= maxRW ->
  file_Read w (Some (mkOsFile name (len pre) false)) n
  = (tail ++ make (n - len tail), None, Some (mkOsFile name (len pre + len tail) false)).
Proof.
  intros Hc Hlen Hmax. unfold file_Read. cbn [fclosed fname fpos].
  destruct (Z.eqb_spec n 0); [lia|]. rewrite Hc.
  assert (take (Z.to_nat (Z.min n maxRW)) (drop (Z.to_nat (len pre)) (pre ++ tail)) = tail)
    as ->.
  { unfold len. rewrite Nat2Z.id, drop_app_length. apply take_ge. unfold len in *. lia. }
  destruct (Z.eqb_spec (len tail) 0); [lia|reflexivity].
Qed.

Lemma decodeHeader_stray (tail : list byte) :
  0 < len tail <= 4 ->
  decodeHeader o (tail ++ make (headerSize - len tail))
  = (Uint32 o (tail ++ make (4 - len tail)), 0, 0).
Proof.
  intros Hlen.
  destruct tail as [|a [|b [|c [|d [|e tail]]]]];
    try (unfold len in Hlen; cbn [length] in Hlen; lia);
    destruct o; reflexivity.
Qed.

(** The store after the iteration of [LoadKeys] that reads a header whose
    key and value sizes are 0. *)
Lemma loadLoop_stray (rs : list record) (fuel : nat) (w : World) (name : string)
    (tail : list byte) (d : DiskStore) :
  contents w name = encodeLog o rs ++ tail -> Forall valid_record rs ->
  0 < len tail <= 4 -> (length rs + 2 <= fuel)%nat ->
  loadLoop o fuel w (Some (mkOsFile name 0 false)) d
  = Done (mkDiskStore
            (file (replay rs d))
            (uint32 (writePos (replay rs d) + 12))
            (<[EmptyString := mkKeyEntry (Uint32 o (tail ++ make (4 - len tail)))
                                         (writePos (replay rs d)) 12]>
               (KeyDir (replay rs d)))).
Proof.
  intros Hc Hv Hlen Hfuel.
  replace fuel with (length rs + S (S (fuel - length rs - 2)))%nat by lia.
  change 0 with (len (@nil byte)) at 1.
  rewrite (loadLoop_log_then rs _ w name [] tail d Hc Hv). cbn [app].
  cbn [loadLoop]. unfold loadStep at 1.
  rewrite (file_Read_short w name (encodeLog o rs) tail headerSize Hc)
    by (unfold headerSize, maxRW; lia).
  rewrite decodeHeader_stray by assumption.
  unfold file_Read at 1 2. cbn [fclosed Z.eqb].
  unfold loadStep. rewrite file_Read_EOF; [reflexivity|easy|].
  rewrite Hc, len_app. lia.
Qed.

(** [NewDiskStore] on a log followed by one to four more bytes, whatever
    the size of the log. *)
Lemma NewDiskStore_stray (path : string) (w : World)
    (rs : list record) (tail : list byte) :
  disk w !! path = Some (encodeLog o rs ++ tail) -> Forall valid_record rs ->
  path ∉ denied w -> 0 < len tail <= 4 ->
  NewDiskStore o path w
  = (Done (mkDiskStore
             (Some (mkOsFile path 0 false))
             (uint32 (writePos (replay rs newStore) + 12))
             (<[EmptyString := mkKeyEntry (Uint32 o (tail ++ make (4 - len tail)))
                                          (writePos (replay rs newStore)) 12]>
                (KeyDir (replay rs newStore))),
           None), w).
Proof.
  intros Hd Hv Hperm Hlen.
  assert (Hc : contents w path = encodeLog o rs ++ tail)
    by (unfold contents; now rewrite Hd).
  unfold NewDiskStore, isFileExists, os_Stat, os_OpenFile, LoadKeys, os_Open.
  rewrite Hd. destruct (decide (path ∈ denied w)) as [|_]; [contradiction|].
  rewrite (loadLoop_stray rs _ w path tail _ Hc Hv Hlen); [reflexivity|].
  pose proof (length_le_logSize rs) as Hle.
  rewrite Hc, length_app. rewrite <- (len_encodeLog o) in Hle. unfold len in *. lia.
Qed.

(** X15. Stray bytes after a log become a record of the empty key. When
    the file is a log of records of at most [2^30] bytes each followed by
    one to four more bytes, the read of the
    next header gets those bytes without an error, the sizes it decodes
    from the zeroes that follow them are 0, and the reads of no bytes for
    the key and the value succeed at the end of the file: [NewDiskStore]
    returns no error and a store whose key directory is the one of the log
    with an entry of 12 bytes for the empty key in it, and whose [writePos]
    is 12 more than the size of the log, past the end of the file. *)
Theorem stray_bytes_become_a_record_of_the_empty_key (path : string) (w : World)
    (rs : list record) (tail : list byte) :
  disk w !! path = Some (encodeLog o rs ++ tail) -> Forall valid_record rs ->
  path ∉ denied w -> 0 < len tail <= 4 -> logSize rs + 12 < 2 ^ 32 ->
  exists d,
    NewDiskStore o path w = (Done (d, None), w) /\
    KeyDir d
    = <[EmptyString := mkKeyEntry (Uint32 o (tail ++ make (4 - len tail))) (logSize rs) 12]>
        (KeyDir (replay rs newStore)) /\
    writePos d = logSize rs + 12 /\
    len (contents w path) < writePos d.
Proof.
  intros Hd Hv Hperm Hlen Hsz. pose proof (logSize_nonneg rs) as Hnn.
  assert (Hwp : writePos (replay rs newStore) = logSize rs)
    by (rewrite writePos_replay; apply uint32_small; lia).
  eexists. split; [exact (NewDiskStore_stray path w rs tail Hd Hv Hperm Hlen)|].
  cbn [KeyDir writePos]. rewrite Hwp. split; [reflexivity|].
  rewrite uint32_small by lia. split; [reflexivity|].
  assert (Hc : contents w path = encodeLog o rs ++ tail)
    by (unfold contents; now rewrite Hd).
  rewrite Hc, len_app, len_encodeLog. lia.
Qed.

(** X16. A [Set] that fails for lack of space leaves a record of the empty
    key behind. On a reachable store whose file holds records of at most
    [2^30] bytes only, with one to four free bytes on the disk, [Set]
    writes those bytes of its header and ends the process with
    exit status 1; [NewDiskStore] on the file then returns no error, with
    the key directory of the store before the call and an entry of 12
    bytes for the empty key in it, where the old file ended, and a
    [writePos] that is 12 more than the old size of the file, which has
    grown by the free bytes only. *)
Theorem failed_Set_leaves_a_record_of_the_empty_key (path : string) (d : DiskStore)
    (w : World) (now : Z) (key value : string) :
  reachable o path d w -> small_records o w path ->
  len (contents w path) + 12 < 2 ^ 32 ->
  0 < free w <= 4 ->
  exists d1 w1 d2 ts,
    Set_ o now key value d w = (Exit 1, d1, w1) /\
    KeyDir d1 = KeyDir d /\
    len (contents w1 path) = len (contents w path) + free w /\
    NewDiskStore o path w1 = (Done (d2, None), w1) /\
    KeyDir d2 = <[EmptyString := mkKeyEntry ts (len (contents w path)) 12]> (KeyDir d) /\
    writePos d2 = len (contents w path) + 12.
Proof.
  intros Hr Hsmall Hlt Hfree. pose proof (len_nonneg (contents w path)) as Hnn.
  destruct (reachable_small o path d w Hr) as (rs & p & Ht & Hv & Hf & Hc & Hwp & Hsz);
    [lia|exact Hsmall|].
  destruct Ht as (_ & Hperm & Hd & _ & Hkd).
  set (data := snd (encodeKV o (uint32 now) key value)).
  assert (Hdata : len data = headerSize + slen key + slen value) by apply len_encodeKV.
  pose proof (slen_nonneg key). pose proof (slen_nonneg value). unfold headerSize in Hdata.
  set (part := take (Z.to_nat (free w)) data).
  assert (Hpart : len part = free w).
  { unfold part, len in *. rewrite length_take. lia. }
  set (w1 := mkWorld (<[path := contents w path ++ part]> (disk w)) (free w - len part)
                     (denied w)).
  assert (Hw : file_Write w (file d) data
               = (Some ErrNoSpace,
                  Some (mkOsFile path (len (contents w path) + len part) false), w1)).
  { rewrite Hf. unfold file_Write. cbn [fclosed fname].
    destruct (Z.leb_spec (len data) (free w)); [lia|reflexivity]. }
  assert (Hd1 : disk w1 !! path = Some (encodeLog o rs ++ part))
    by (unfold w1; cbn [disk]; now rewrite lookup_insert_eq, Hc).
  assert (Hwp0 : writePos (replay rs newStore) = len (contents w path))
    by (rewrite writePos_replay, Hsz; apply uint32_small; lia).
  eexists _, w1, _, _. split; [exact (Set_write_error o _ _ _ _ _ _ _ _ Hw)|].
  split; [reflexivity|]. split.
  { unfold w1. now rewrite contents_insert, len_app, Hpart. }
  split; [apply (NewDiskStore_stray path w1 rs part Hd1 Hv Hperm); lia|].
  cbn [KeyDir writePos]. rewrite Hwp0, <- Hkd. split; [reflexivity|].
  apply uint32_small. lia.
Qed.

End StrayBytes.

(** ** The further properties at concrete inputs *)

Lemma othelloWorld_holds_log : holds_log LittleEndian othelloWorld "books.db" othelloLog.
Proof.
  right. split; [vm_compute; reflexivity|].
  constructor; [|constructor]. unfold valid_record. vm_compute. intuition discriminate.
Defined.

Lemma freshStore_reachable_full : reachable LittleEndian "books.db" freshStore fullWorld.
Proof.
  apply (reach_open LittleEndian "books.db" fullWorld).
  - right. exists []. split; [vm_compute; reflexivity|constructor].
  - vm_compute. reflexivity.
Defined.

Lemma twoSets_valid : Forall valid_record (records_of twoSets).
Proof.
  constructor; [|constructor; [|constructor]];
    (split; [vm_compute; intuition discriminate|vm_compute; discriminate]).
Defined.

Lemma fullWorld_small_records : small_records LittleEndian fullWorld "books.db".
Proof. exists []. split; [vm_compute; reflexivity|constructor]. Defined.

Lemma store_answers_like_a_map_witness :
  holds_log LittleEndian othelloWorld "books.db" othelloLog /\
  ("books.db"%string ∉ denied othelloWorld) /\
  logSize (records_of twoSets) <= free othelloWorld /\
  Forall valid_record (records_of twoSets) /\
  logSize (othelloLog ++ records_of twoSets) < 2 ^ 32 /\
  exists d0 w0 d' w',
    NewDiskStore LittleEndian "books.db" othelloWorld = (Done (d0, None), w0) /\
    run_sets LittleEndian twoSets d0 w0 = (Done tt, d', w') /\
    forall key,
      fst (Get LittleEndian key d' w')
      = Done (default EmptyString (as_map (othelloLog ++ records_of twoSets) !! key)).
Proof.
  split; [exact othelloWorld_holds_log|]. split; [apply not_elem_of_empty|].
  split; [vm_compute; discriminate|]. split; [exact twoSets_valid|].
  split; [vm_compute; reflexivity|].
  apply (store_answers_like_a_map LittleEndian "books.db" othelloWorld othelloLog twoSets).
  - exact othelloWorld_holds_log.
  - apply not_elem_of_empty.
  - vm_compute. discriminate.
  - exact twoSets_valid.
  - vm_compute. reflexivity.
Defined.

Lemma index_has_the_keys_of_the_log_witness :
  holds_log LittleEndian othelloWorld "books.db" othelloLog /\
  ("books.db"%string ∉ denied othelloWorld) /\
  logSize (records_of twoSets) <= free othelloWorld /\
  exists d0 w0 d' w',
    NewDiskStore LittleEndian "books.db" othelloWorld = (Done (d0, None), w0) /\
    run_sets LittleEndian twoSets d0 w0 = (Done tt, d', w') /\
    dom (KeyDir d0) = keys_of othelloLog /\
    dom (KeyDir d') = keys_of othelloLog ∪ keys_of (records_of twoSets).
Proof.
  split; [exact othelloWorld_holds_log|]. split; [apply not_elem_of_empty|].
  split; [vm_compute; discriminate|].
  apply (index_has_the_keys_of_the_log LittleEndian "books.db" othelloWorld othelloLog twoSets).
  - exact othelloWorld_holds_log.
  - apply not_elem_of_empty.
  - vm_compute. discriminate.
Defined.

Lemma Set_keeps_the_other_keys_witness :
  reachable LittleEndian "books.db" othelloStore othelloWorld /\
  Set_ LittleEndian 1700000001 "war and peace" "tolstoy" othelloStore othelloWorld
  = (Done tt, tolstoyStore, tolstoyWorld) /\
  len (contents tolstoyWorld "books.db") < 2 ^ 32 /\
  "othello"%string <> "war and peace"%string /\
  fst (Get LittleEndian "othello" tolstoyStore tolstoyWorld)
  = fst (Get LittleEndian "othello" othelloStore othelloWorld).
Proof.
  split; [exact othelloStore_reachable|]. split; [vm_compute; reflexivity|].
  split; [vm_compute; reflexivity|]. split; [discriminate|].
  apply (Set_keeps_the_other_keys LittleEndian "books.db" othelloStore othelloWorld
           1700000001 "war and peace" "tolstoy" tolstoyStore tolstoyWorld "othello").
  - exact othelloStore_reachable.
  - vm_compute. reflexivity.
  - vm_compute. reflexivity.
  - discriminate.
Defined.

Lemma every_entry_points_at_a_record_witness :
  reachable LittleEndian "books.db" othelloStore othelloWorld /\
  len (contents othelloWorld "books.db") < 2 ^ 32 /\
  KeyDir othelloStore !! "othello"%string = Some (mkKeyEntry 1700000000 0 30) /\
  exists pre value post,
    contents othelloWorld "books.db"
    = pre ++ snd (encodeKV LittleEndian (timestamp (mkKeyEntry 1700000000 0 30))
                           "othello" value) ++ post /\
    writeOffSet (mkKeyEntry 1700000000 0 30) = len pre /\
    totalSize (mkKeyEntry 1700000000 0 30) = headerSize + slen "othello" + slen value /\
    (totalSize (mkKeyEntry 1700000000 0 30) <= maxRW ->
     fst (Get LittleEndian "othello" othelloStore othelloWorld) = Done value).
Proof.
  split; [exact othelloStore_reachable|]. split; [vm_compute; reflexivity|].
  split; [vm_compute; reflexivity|].
  apply (every_entry_points_at_a_record LittleEndian "books.db" othelloStore othelloWorld).
  - exact othelloStore_reachable.
  - vm_compute. reflexivity.
  - vm_compute. reflexivity.
Defined.

Lemma reopen_restores_the_store_witness :
  reachable LittleEndian "books.db" othelloStore othelloWorld /\
  len (contents othelloWorld "books.db") < 2 ^ 32 /\
  small_records LittleEndian othelloWorld "books.db" /\
  exists d1 d2,
    Close othelloStore = (Done tt, d1) /\
    NewDiskStore LittleEndian "books.db" othelloWorld = (Done (d2, None), othelloWorld) /\
    KeyDir d2 = KeyDir othelloStore /\ writePos d2 = writePos othelloStore /\
    forall key, fst (Get LittleEndian key d2 othelloWorld)
                = fst (Get LittleEndian key othelloStore othelloWorld).
Proof.
  split; [exact othelloStore_reachable|]. split; [vm_compute; reflexivity|].
  split; [exact othelloWorld_small_records|].
  apply (reopen_restores_the_store LittleEndian "books.db" othelloStore othelloWorld).
  - exact othelloStore_reachable.
  - vm_compute. reflexivity.
  - exact othelloWorld_small_records.
Defined.

Lemma writePos_is_the_file_length_mod_2_32_witness :
  reachable LittleEndian "books.db" othelloStore othelloWorld /\
  writePos othelloStore = uint32 (len (contents othelloWorld "books.db")) /\
  0 <= writePos othelloStore < 2 ^ 32.
Proof.
  split; [exact othelloStore_reachable|].
  apply (writePos_is_the_file_length_mod_2_32 LittleEndian "books.db" othelloStore othelloWorld).
  exact othelloStore_reachable.
Defined.

Lemma closed_store_ends_the_process_witness :
  Close othelloStore = (Done tt, closedStore) /\
  KeyDir closedStore = KeyDir othelloStore /\ writePos closedStore = writePos othelloStore /\
  Close closedStore = (Exit 1, closedStore) /\
  (forall now key value w,
      Set_ BigEndian now key value closedStore w = (Exit 1, closedStore, w)) /\
  (forall key w, is_Some (KeyDir closedStore !! key) ->
                 Get BigEndian key closedStore w = (Exit 1, closedStore)).
Proof.
  split; [reflexivity|].
  apply (closed_store_ends_the_process BigEndian othelloStore closedStore). reflexivity.
Defined.

Lemma Get_past_the_end_of_the_file_exits_witness :
  file othelloStore = Some (mkOsFile "books.db" 30 false) /\
  KeyDir othelloStore !! "othello"%string = Some (mkKeyEntry 1700000000 0 30) /\
  totalSize (mkKeyEntry 1700000000 0 30) <> 0 /\
  len (contents freshWorld "books.db") <= writeOffSet (mkKeyEntry 1700000000 0 30) /\
  Get LittleEndian "othello" othelloStore freshWorld
  = (Exit 1,
     mkDiskStore (Some (mkOsFile "books.db" (writeOffSet (mkKeyEntry 1700000000 0 30)) false))
                 (writePos othelloStore) (KeyDir othelloStore)).
Proof.
  split; [reflexivity|]. split; [vm_compute; reflexivity|]. split; [discriminate|].
  split; [vm_compute; discriminate|].
  apply (Get_past_the_end_of_the_file_exits LittleEndian "othello" othelloStore freshWorld
           "books.db" 30 (mkKeyEntry 1700000000 0 30)).
  - reflexivity.
  - vm_compute. reflexivity.
  - discriminate.
  - vm_compute. discriminate.
Defined.

Lemma NewDiskStore_on_a_file_it_cannot_open_witness :
  "books.db"%string ∈ denied lockedWorld /\
  (is_Some (disk lockedWorld !! "books.db"%string) ->
   NewDiskStore LittleEndian "books.db" lockedWorld = (Exit 1, lockedWorld)) /\
  (disk lockedWorld !! "books.db"%string = None ->
   exists empty,
     NewDiskStore LittleEndian "books.db" lockedWorld
     = (Done (empty, Some ErrPermission), lockedWorld) /\
     (forall key, Get LittleEndian key empty lockedWorld = (Done EmptyString, empty)) /\
     (forall now key value,
         Set_ LittleEndian now key value empty lockedWorld = (Exit 1, empty, lockedWorld)) /\
     Close empty = (Exit 1, empty)).
Proof.
  split; [vm_compute; reflexivity|].
  apply (NewDiskStore_on_a_file_it_cannot_open LittleEndian "books.db" lockedWorld).
  vm_compute. reflexivity.
Defined.

Lemma NewDiskStore_opens_whatever_the_file_holds_witness :
  ("books.db"%string ∉ denied (cutWorld LittleEndian 28)) /\
  exists d w',
    NewDiskStore LittleEndian "books.db" (cutWorld LittleEndian 28) = (Done (d, None), w') /\
    file d = Some (mkOsFile "books.db" 0 false) /\
    0 <= writePos d < 2 ^ 32 /\
    (forall name, contents w' name = contents (cutWorld LittleEndian 28) name) /\
    (is_Some (disk (cutWorld LittleEndian 28) !! "books.db"%string) ->
     w' = cutWorld LittleEndian 28) /\
    free w' = free (cutWorld LittleEndian 28) /\
    denied w' = denied (cutWorld LittleEndian 28).
Proof.
  split; [apply not_elem_of_empty|].
  apply (NewDiskStore_opens_whatever_the_file_holds LittleEndian "books.db"
           (cutWorld LittleEndian 28)).
  apply not_elem_of_empty.
Defined.

Lemma main_reads_what_it_wrote_witness :
  holds_log LittleEndian othelloWorld "books.db" othelloLog /\
  ("books.db"%string ∉ denied othelloWorld) /\
  len (contents othelloWorld "books.db") + 62 < 2 ^ 32 /\ 62 <= free othelloWorld /\
  exists w',
    MainGo.main LittleEndian 1700000001 1700000002 othelloWorld
    = (Done tt,
       ((if isFileExists othelloWorld "books.db"
         then loaded_lines othelloLog ++ [done_reading] else [])
        ++ [value_read "shakespeare"; value_read "tolstoy"], w')) /\
    contents w' "books.db"
    = contents othelloWorld "books.db"
      ++ snd (encodeKV LittleEndian (uint32 1700000001) "othello" "shakespeare")
      ++ snd (encodeKV LittleEndian (uint32 1700000002) "war and peace" "tolstoy") /\
    holds_log LittleEndian w' "books.db"
      (othelloLog ++ [(uint32 1700000001, "othello", "shakespeare");
                      (uint32 1700000002, "war and peace", "tolstoy")]%string) /\
    ("books.db"%string ∉ denied w') /\
    free w' = free othelloWorld - 62.
Proof.
  split; [exact othelloWorld_holds_log|]. split; [apply not_elem_of_empty|].
  split; [vm_compute; reflexivity|]. split; [vm_compute; discriminate|].
  apply (main_reads_what_it_wrote LittleEndian 1700000001 1700000002 othelloWorld othelloLog).
  - exact othelloWorld_holds_log.
  - apply not_elem_of_empty.
  - vm_compute. reflexivity.
  - vm_compute. discriminate.
Defined.

Lemma main_exits_when_it_cannot_write_witness :
  ("books.db"%string ∈ denied fullWorld \/ free fullWorld < 30) /\
  exists out w',
    MainGo.main LittleEndian 1700000000 1700000001 fullWorld = (Exit 1, (out, w')) /\
    (forall value, value_read value ∉ out) /\
    ("books.db"%string ∈ denied fullWorld ->
     w' = fullWorld /\
     out = if isFileExists fullWorld "books.db" then [error_loading_keys ErrPermission]
           else [error_writing_kv ErrInvalid]) /\
    ("books.db"%string ∉ denied fullWorld ->
     out = NewDiskStore_prints LittleEndian "books.db" fullWorld
           ++ [error_writing_kv ErrNoSpace]).
Proof.
  split; [right; vm_compute; reflexivity|].
  apply (main_exits_when_it_cannot_write LittleEndian 1700000000 1700000001 fullWorld).
  right. vm_compute. reflexivity.
Defined.

Lemma main_000_reads_the_last_write_witness :
  holds_log BigEndian smallWorld "books.db" [] /\
  ("books.db"%string ∉ denied smallWorld) /\
  len (contents smallWorld "books.db") + 62 < 2 ^ 32 /\ 62 <= free smallWorld /\
  exists w',
    Part000.main BigEndian 1700000001 1700000002 smallWorld
    = (Done tt,
       ((if isFileExists smallWorld "books.db"
         then loaded_lines [] ++ [done_reading] else [])
        ++ [value_read "shakespeare2"], w')) /\
    contents w' "books.db"
    = contents smallWorld "books.db"
      ++ snd (encodeKV BigEndian (uint32 1700000001) "othello" "shakespeare1")
      ++ snd (encodeKV BigEndian (uint32 1700000002) "othello" "shakespeare2") /\
    holds_log BigEndian w' "books.db"
      ([] ++ [(uint32 1700000001, "othello", "shakespeare1");
              (uint32 1700000002, "othello", "shakespeare2")]%string) /\
    ("books.db"%string ∉ denied w') /\
    free w' = free smallWorld - 62.
Proof.
  split; [left; split; reflexivity|]. split; [apply not_elem_of_empty|].
  split; [vm_compute; reflexivity|]. split; [vm_compute; discriminate|].
  apply (main_000_reads_the_last_write BigEndian 1700000001 1700000002 smallWorld []).
  - left. split; reflexivity.
  - apply not_elem_of_empty.
  - vm_compute. reflexivity.
  - vm_compute. discriminate.
Defined.

Lemma stray_bytes_become_a_record_of_the_empty_key_witness :
  disk (cutWorld LittleEndian 17) !! "books.db"%string
  = Some (encodeLog LittleEndian [(1, "a", "x")]%string ++ [x02; x00; x00]) /\
  Forall valid_record [(1, "a", "x")]%string /\
  ("books.db"%string ∉ denied (cutWorld LittleEndian 17)) /\
  0 < len [x02; x00; x00] <= 4 /\
  logSize [(1, "a", "x")]%string + 12 < 2 ^ 32 /\
  exists d,
    NewDiskStore LittleEndian "books.db" (cutWorld LittleEndian 17)
    = (Done (d, None), cutWorld LittleEndian 17) /\
    KeyDir d
    = <[EmptyString
        := mkKeyEntry (Uint32 LittleEndian ([x02; x00; x00] ++ make (4 - len [x02; x00; x00])))
                      (logSize [(1, "a", "x")]%string) 12]>
        (KeyDir (replay [(1, "a", "x")]%string newStore)) /\
    writePos d = logSize [(1, "a", "x")]%string + 12 /\
    len (contents (cutWorld LittleEndian 17) "books.db") < writePos d.
Proof.
  assert (Hv : Forall valid_record [(1, "a", "x")]%string).
  { constructor; [|constructor]. unfold valid_record. vm_compute. intuition discriminate. }
  split; [vm_compute; reflexivity|]. split; [exact Hv|]. split; [apply not_elem_of_empty|].
  split; [vm_compute; intuition discriminate|]. split; [vm_compute; reflexivity|].
  apply (stray_bytes_become_a_record_of_the_empty_key LittleEndian "books.db"
           (cutWorld LittleEndian 17) [(1, "a", "x")]%string [x02; x00; x00]).
  - vm_compute. reflexivity.
  - exact Hv.
  - apply not_elem_of_empty.
  - vm_compute. intuition discriminate.
  - vm_compute. reflexivity.
Defined.

Lemma failed_Set_leaves_a_record_of_the_empty_key_witness :
  reachable LittleEndian "books.db" freshStore fullWorld /\
  small_records LittleEndian fullWorld "books.db" /\
  len (contents fullWorld "books.db") + 12 < 2 ^ 32 /\
  0 < free fullWorld <= 4 /\
  exists d1 w1 d2 ts,
    Set_ LittleEndian 1700000000 "othello" "shakespeare" freshStore fullWorld
    = (Exit 1, d1, w1) /\
    KeyDir d1 = KeyDir freshStore /\
    len (contents w1 "books.db") = len (contents fullWorld "books.db") + free fullWorld /\
    NewDiskStore LittleEndian "books.db" w1 = (Done (d2, None), w1) /\
    KeyDir d2
    = <[EmptyString := mkKeyEntry ts (len (contents fullWorld "books.db")) 12]>
        (KeyDir freshStore) /\
    writePos d2 = len (contents fullWorld "books.db") + 12.
Proof.
  split; [exact freshStore_reachable_full|]. split; [exact fullWorld_small_records|].
  split; [vm_compute; reflexivity|].
  split; [vm_compute; intuition discriminate|].
  apply (failed_Set_leaves_a_record_of_the_empty_key LittleEndian "books.db" freshStore
           fullWorld 1700000000 "othello" "shakespeare").
  - exact freshStore_reachable_full.
  - exact fullWorld_small_records.
  - vm_compute. reflexivity.
  - vm_compute. intuition discriminate.
Defined.
